(** * mktwo: MFCC extraction and DTW matching (audio_matcher.cpp)

    A shallow embedding of [app/src/main/cpp/audio_matcher.cpp].

    The C++ code computes in IEEE-754 binary32 ([float]) and binary64
    ([double]).  Both formats are modelled exactly with the executable
    specification of floating-point arithmetic of the Standard Library
    ([SpecFloat]: round to nearest, ties to even, a single NaN), so every
    definition below can be evaluated on concrete inputs.  The
    transcendental functions of libm ([cos], [sin], [acos], [log],
    [log10], [pow]) are not part of the repository and are not fixed by
    IEEE-754; they are parameters of the sections that use them. *)

From Stdlib Require Import ZArith Lia Bool List.
From Stdlib Require Import Floats.SpecFloat.
From stdpp Require Import base list.

Open Scope Z_scope.

(** ** Number formats *)

(** [float]: IEEE-754 binary32. *)
Module F32.
Definition prec : Z := 24.
Definition emax : Z := 128.

Definition add := SFadd prec emax.
Definition sub := SFsub prec emax.
Definition mul := SFmul prec emax.
Definition div := SFdiv prec emax.
Definition sqrt := SFsqrt prec emax.
Definition ltb := SFltb.
Definition leb := SFleb.
Definition eqb := SFeqb.

Definition zero : spec_float := S754_zero false.
Definition one : spec_float := S754_finite false 8388608 (-23).
Definition infinity : spec_float := S754_infinity false.

(** Conversion of an integer ([int], [size_t]) to [float]. *)
Definition of_Z (z : Z) : spec_float := binary_normalize prec emax z 0 false.

(** Conversion of a value of another format (a [double]) to [float]. *)
Definition of_float (x : spec_float) : spec_float :=
  match x with
  | S754_finite s m e => binary_normalize prec emax (cond_Zopp s (Zpos m)) e s
  | _ => x
  end.
End F32.

(** [double]: IEEE-754 binary64. *)
Module F64.
Definition prec : Z := 53.
Definition emax : Z := 1024.

Definition add := SFadd prec emax.
Definition sub := SFsub prec emax.
Definition mul := SFmul prec emax.
Definition div := SFdiv prec emax.
Definition ltb := SFltb.
Definition leb := SFleb.

Definition zero : spec_float := S754_zero false.
Definition one : spec_float := S754_finite false 4503599627370496 (-52).

Definition of_Z (z : Z) : spec_float := binary_normalize prec emax z 0 false.

(** Promotion of a [float] to [double] (exact). *)
Definition of_float (x : spec_float) : spec_float :=
  match x with
  | S754_finite s m e => binary_normalize prec emax (cond_Zopp s (Zpos m)) e s
  | _ => x
  end.

(** A decimal literal [m * 10^(-k)], correctly rounded. *)
Definition of_decimal (m : Z) (k : Z) : spec_float :=
  div (of_Z m) (of_Z (10 ^ k)).
End F64.

Abbreviation f32 := spec_float (only parsing).
Abbreviation f64 := spec_float (only parsing).

(** ** Loops and arrays *)

(** [for (i = lo; i < lo + count; ++i) s = body i s]. *)
Fixpoint for_range {S : Type} (lo count : nat) (body : nat -> S -> S) (s : S) : S :=
  match count with
  | O => s
  | Datatypes.S c => for_range (Datatypes.S lo) c body (body lo s)
  end.

(** [v[i]] on a [std::vector<float>] or [std::vector<double>]; every index
    used by the code is in range, the default is never read. *)
Definition nth_f (v : list spec_float) (i : nat) : spec_float :=
  default S754_nan (v !! i).

(** [seq[i]] on a vector of vectors. *)
Definition nth_v (s : list (list spec_float)) (i : nat) : list spec_float :=
  default [] (s !! i).

(** [dp[i][j]]. *)
Definition at2 (dp : list (list spec_float)) (i j : nat) : spec_float :=
  nth_f (nth_v dp i) j.

(** [dp[i][j] = x]. *)
Definition set2 (dp : list (list spec_float)) (i j : nat) (x : spec_float)
  : list (list spec_float) :=
  <[i := <[j := x]> (nth_v dp i)]> dp.

(** ** Cosine similarity (audio_matcher.cpp, lines 184-194) *)

Record cos_acc := { dot : f32; norm1 : f32; norm2 : f32 }.

(** One iteration of the accumulation loop. *)
Definition cos_step (a : cos_acc) (x y : f32) : cos_acc :=
  {| dot := F32.add (dot a) (F32.mul x y);
     norm1 := F32.add (norm1 a) (F32.mul x x);
     norm2 := F32.add (norm2 a) (F32.mul y y) |}.

(** [for (i = 0; i < vec1.size(); ++i)], on vectors of equal size. *)
Fixpoint cos_loop (vec1 vec2 : list f32) (a : cos_acc) : cos_acc :=
  match vec1, vec2 with
  | x :: vec1', y :: vec2' => cos_loop vec1' vec2' (cos_step a x y)
  | _, _ => a
  end.

Definition cos_sums (vec1 vec2 : list f32) : cos_acc :=
  cos_loop vec1 vec2 {| dot := F32.zero; norm1 := F32.zero; norm2 := F32.zero |}.

(** [denom = std::sqrt(norm1) * std::sqrt(norm2)]. *)
Definition cos_denom (vec1 vec2 : list f32) : f32 :=
  let a := cos_sums vec1 vec2 in
  F32.mul (F32.sqrt (norm1 a)) (F32.sqrt (norm2 a)).

Definition cosineSimilarity (vec1 vec2 : list f32) : f32 :=
  if negb (Nat.eqb (length vec1) (length vec2)) then F32.zero
  else
    let a := cos_sums vec1 vec2 in
    let denom := F32.mul (F32.sqrt (norm1 a)) (F32.sqrt (norm2 a)) in
    if F32.eqb denom F32.zero then F32.zero else F32.div (dot a) denom.

(** ** Dynamic time warping (audio_matcher.cpp, lines 197-227) *)

(** [std::min({a, b, c})]: the first smallest element under [operator<]. *)
Definition min3 (a b c : f32) : f32 :=
  let r := if F32.ltb b a then b else a in
  if F32.ltb c r then c else r.

(** [cost = 1.0f - cosineSimilarity(seq1[i - 1], seq2[j - 1])]. *)
Definition dtw_cost (seq1 seq2 : list (list f32)) (i j : nat) : f32 :=
  F32.sub F32.one (cosineSimilarity (nth_v seq1 (i - 1)) (nth_v seq2 (j - 1))).

(** The table after construction and [dp[0][0] = 0.0f]. *)
Definition dtw_init (len1 len2 : nat) : list (list f32) :=
  set2 (replicate (len1 + 1) (replicate (len2 + 1) F32.infinity)) 0 0 F32.zero.

(** Body of the inner loop. *)
Definition dtw_cell (seq1 seq2 : list (list f32)) (i j : nat)
    (dp : list (list f32)) : list (list f32) :=
  let cost := dtw_cost seq1 seq2 i j in
  set2 dp i j
    (F32.add cost (min3 (at2 dp (i - 1) j) (at2 dp i (j - 1)) (at2 dp (i - 1) (j - 1)))).

(** The inner loop [for (j = 1; j <= len2; ++j)]. *)
Definition dtw_row (seq1 seq2 : list (list f32)) (i : nat)
    (dp : list (list f32)) : list (list f32) :=
  for_range 1 (length seq2) (dtw_cell seq1 seq2 i) dp.

(** The table when both loops have finished. *)
Definition dtw_table (seq1 seq2 : list (list f32)) : list (list f32) :=
  for_range 1 (length seq1) (dtw_row seq1 seq2) (dtw_init (length seq1) (length seq2)).

(** [len1 + len2] is a [jsize] (32-bit [int]) sum, converted to [float] for
    the division. *)
Definition computeDTW (seq1 seq2 : list (list f32)) : f32 :=
  let len1 := length seq1 in
  let len2 := length seq2 in
  let dp := dtw_table seq1 seq2 in
  F32.sub F32.one
    (F32.div (at2 dp len1 len2) (F32.of_Z (Z.of_nat len1 + Z.of_nat len2))).

(** The alignment cost matrix as the specification describes it: a
    recurrence on the cell indices, independent of any table. *)
Definition dtw_boundary (i j : nat) : f32 :=
  match i, j with
  | O, O => F32.zero
  | _, _ => F32.infinity
  end.

Fixpoint dtw_rec_row (prev : nat -> f32) (cost : nat -> f32) (j : nat) : f32 :=
  match j with
  | O => F32.infinity
  | S j' => F32.add (cost j) (min3 (prev j) (dtw_rec_row prev cost j') (prev j'))
  end.

Fixpoint dtw_rec (seq1 seq2 : list (list f32)) (i : nat) : nat -> f32 :=
  match i with
  | O => dtw_boundary 0
  | S i' => dtw_rec_row (dtw_rec seq1 seq2 i') (dtw_cost seq1 seq2 i)
  end.


(** A table of [rows] rows of [cols] columns. *)
Definition table_dims (rows cols : nat) (dp : list (list f32)) : Prop :=
  length dp = rows /\ forall i row, dp !! i = Some row -> length row = cols.

(** Progress of the two nested loops: cell [(a, b)] has been written when
    the next cell to be written is [(i, j)]. *)
Definition dtw_done (i j a b : nat) : bool :=
  Nat.ltb a i || (Nat.eqb a i && Nat.ltb b j).

(** Loop invariant of [computeDTW]: written cells hold the recurrence,
    the others still hold their initial value. *)
Definition dtw_inv (seq1 seq2 : list (list f32)) (i j : nat)
    (dp : list (list f32)) : Prop :=
  table_dims (length seq1 + 1) (length seq2 + 1) dp /\
  forall a b, (a <= length seq1)%nat -> (b <= length seq2)%nat ->
    at2 dp a b
    = if dtw_done i j a b then dtw_rec seq1 seq2 a b else dtw_boundary a b.

(** ** Classes of floating-point values used in the statements *)

(** A value produced by a rounding of sign [s]: a zero, an infinity or a
    finite number of that sign, with an exponent of the format. *)
Definition rounded (prec emax : Z) (s : bool) (x : spec_float) : Prop :=
  match x with
  | S754_zero s' | S754_infinity s' => s' = s
  | S754_finite s' _ e => s' = s /\ emin prec emax <= e <= emax - prec
  | S754_nan => False
  end.

(** A positive value that is at most one: the exponent is below that of
    [1], or the value is [1] itself. *)
Definition at_most_one (prec : Z) (x : spec_float) : Prop :=
  match x with
  | S754_zero false => True
  | S754_finite false m e => e < 1 - prec \/ (e = 1 - prec /\ Zpos m = 2 ^ (prec - 1))
  | _ => False
  end.

(** Sign bit clear and not NaN: [+0], a positive finite number or [+inf]. *)
Definition nonneg (x : spec_float) : bool :=
  match x with
  | S754_zero false | S754_infinity false | S754_finite false _ _ => true
  | _ => false
  end.

(** Neither NaN nor an infinity. *)
Definition is_finite (x : spec_float) : bool :=
  match x with
  | S754_zero _ | S754_finite _ _ _ => true
  | _ => false
  end.

(** The values that can sit in the DTW table when no NaN arises: no NaN,
    no negative zero, exponents within the binary32 format. *)
Definition proper (x : f32) : Prop :=
  match x with
  | S754_nan => False
  | S754_zero s => s = false
  | S754_infinity _ => True
  | S754_finite _ _ e => emin F32.prec F32.emax <= e
  end.

(** Exchange of the two squared norms of an accumulator. *)
Definition cos_swap (a : cos_acc) : cos_acc :=
  {| dot := dot a; norm1 := norm2 a; norm2 := norm1 a |}.

(** A zero of either sign. *)
Definition is_zero (x : spec_float) : bool :=
  match x with
  | S754_zero _ => true
  | _ => false
  end.

(** [0.5f]. *)
Definition F32_half : f32 := S754_finite false 8388608 (-24).

(** ** Integers and doubles *)

(** [std::floor] followed by [static_cast<int>]: defined for a finite value
    whose floor fits a 32-bit [int]; the conversion of any other value is
    undefined in C++. *)
Definition double_to_int (x : f64) : option Z :=
  match x with
  | S754_zero _ => Some 0
  | S754_finite s m e =>
      let z := Z.shiftl (cond_Zopp s (Zpos m)) e in
      if (- 2 ^ 31 <=? z) && (z <? 2 ^ 31) then Some z else None
  | _ => None
  end.

(** The values taken by [k] in [for (int k = lo; k < hi; k++)]. *)
Definition int_range (lo hi : Z) : list Z :=
  map (fun d => lo + Z.of_nat d) (seq 0 (Z.to_nat (hi - lo))).

(** [bin[i]] on a [std::vector<int>]. *)
Definition nth_Z (v : list Z) (i : Z) : Z :=
  default 0 (v !! Z.to_nat i).

(** ** Complex numbers ([std::complex<double>]) *)

Record cd := { re : f64; im : f64 }.

Definition cd_of_real (x : f64) : cd := {| re := x; im := F64.zero |}.

Definition cd_add (x y : cd) : cd :=
  {| re := F64.add (re x) (re y); im := F64.add (im x) (im y) |}.

Definition cd_sub (x y : cd) : cd :=
  {| re := F64.sub (re x) (re y); im := F64.sub (im x) (im y) |}.

(** [operator*]: [(ac - bd) + (ad + bc)i].  (The library recomputes the
    product only when both parts come out as NaN.) *)
Definition cd_mul (x y : cd) : cd :=
  {| re := F64.sub (F64.mul (re x) (re y)) (F64.mul (im x) (im y));
     im := F64.add (F64.mul (re x) (im y)) (F64.mul (im x) (re y)) |}.

(** [x /= n] with a real divisor. *)
Definition cd_div_real (x : cd) (n : f64) : cd :=
  {| re := F64.div (re x) n; im := F64.div (im x) n |}.

(** [std::norm]: the squared magnitude. *)
Definition cd_norm (x : cd) : f64 :=
  F64.add (F64.mul (re x) (re x)) (F64.mul (im x) (im x)).

(** [a[i]] on a [std::vector<cd>]. *)
Definition nth_cd (a : list cd) (i : nat) : cd :=
  default (cd_of_real F64.zero) (a !! i).

(** [std::swap(a[i], a[j])]. *)
Definition swap_cd (a : list cd) (i j : nat) : list cd :=
  <[j := nth_cd a i]> (<[i := nth_cd a j]> a).

(** [while (x < n) x <<= 1], started at [x]; at most [fuel] doublings. *)
Fixpoint double_until (fuel : nat) (x n : Z) : Z :=
  match fuel with
  | O => x
  | S fuel' => if x <? n then double_until fuel' (2 * x) n else x
  end.

(** [while ((1 << lg_n) < n) lg_n++]. *)
Fixpoint log2_until (fuel : nat) (lg_n : nat) (n : Z) : nat :=
  match fuel with
  | O => lg_n
  | S fuel' =>
      if Z.shiftl 1 (Z.of_nat lg_n) <? n then log2_until fuel' (S lg_n) n else lg_n
  end.

(** The bit reversal of [i] on [lg_n] bits (lines 31-34). *)
Definition bit_reverse (lg_n : nat) (i : Z) : Z :=
  for_range 0 lg_n
    (fun j rev =>
       if Z.testbit i (Z.of_nat j)
       then Z.lor rev (Z.shiftl 1 (Z.of_nat lg_n - 1 - Z.of_nat j))
       else rev)
    0.

(** One execution of a ramp assignment
    [filters[row][col] = num * 1.0 / den] (lines 115 and 118). *)
Record ramp_write := { rw_row : Z; rw_col : Z; rw_num : Z; rw_den : Z }.

(** The rising ramp of filter [m]: [for (k = bin[m-1]; k < bin[m]; k++)]. *)
Definition up_ramp (bin : list Z) (m : Z) : list ramp_write :=
  map (fun k => {| rw_row := m - 1; rw_col := k;
                   rw_num := k - nth_Z bin (m - 1);
                   rw_den := nth_Z bin m - nth_Z bin (m - 1) |})
      (int_range (nth_Z bin (m - 1)) (nth_Z bin m)).

(** The falling ramp of filter [m]: [for (k = bin[m]; k < bin[m+1]; k++)]. *)
Definition down_ramp (bin : list Z) (m : Z) : list ramp_write :=
  map (fun k => {| rw_row := m - 1; rw_col := k;
                   rw_num := nth_Z bin (m + 1) - k;
                   rw_den := nth_Z bin (m + 1) - nth_Z bin m |})
      (int_range (nth_Z bin m) (nth_Z bin (m + 1))).

(** All assignments of [for (m = 1; m <= num_filters; m++)], in order. *)
Definition ramp_writes (bin : list Z) (num_filters : Z) : list ramp_write :=
  flat_map (fun m => up_ramp bin m ++ down_ramp bin m) (int_range 1 (num_filters + 1)).

(** The value assigned: [num * 1.0 / den] in [double]. *)
Definition ramp_weight (w : ramp_write) : f64 :=
  F64.div (F64.mul (F64.of_Z (rw_num w)) F64.one) (F64.of_Z (rw_den w)).

(** The assignment itself; an index outside the vector is undefined
    behaviour in C++. *)
Definition ramp_store (filters : list (list f64)) (w : ramp_write)
  : option (list (list f64)) :=
  if (0 <=? rw_row w) && (rw_row w <? Z.of_nat (length filters))
     && (0 <=? rw_col w)
     && (rw_col w <? Z.of_nat (length (nth_v filters (Z.to_nat (rw_row w)))))
  then Some (set2 filters (Z.to_nat (rw_row w)) (Z.to_nat (rw_col w)) (ramp_weight w))
  else None.

(** [fft_size / 2 + 1] on [int]: the C++ division truncates toward zero. *)
Definition filter_cols (fft_size : Z) : Z := Z.quot fft_size 2 + 1.

(** The construction of [filters] (line 112) and the filling loops on a
    given vector [bin].  A negative element count makes the constructor of
    [std::vector] throw: no table is returned. *)
Definition fill_filters (num_filters fft_size : Z) (bin : list Z)
  : option (list (list f64)) :=
  if (0 <=? num_filters) && (0 <=? filter_cols fft_size)
  then
    foldl (fun acc w => acc ≫= fun filters => ramp_store filters w)
      (Some (replicate (Z.to_nat num_filters)
               (replicate (Z.to_nat (filter_cols fft_size)) F64.zero)))
      (ramp_writes bin num_filters)
  else None.

(** ** Rounding of binary64 quotients *)

(** [m / 2^n] rounded to the nearest integer, ties to even: what
    [binary_round_aux] computes when it shifts an exact mantissa by [n]. *)
Definition rne (m : Z) (n : Z) : Z :=
  let q := m / 2 ^ n in
  let rho := m mod 2 ^ n in
  let h := 2 ^ (n - 1) in
  if rho <? h then q
  else if h <? rho then q + 1
  else if Z.even q then q else q + 1.

(** The canonical form of a rounded mantissa in [[2^52, 2^53]]. *)
Definition canon53 (mr er : Z) : spec_float :=
  if mr <? 2 ^ 53 then S754_finite false (Z.to_pos mr) er
  else S754_finite false 4503599627370496 (er + 1).

(** The [double] value of [a * 1.0 / n] for two [int]s, as in lines 115
    and 118. *)
Definition quot53 (a n : Z) : f64 :=
  F64.div (F64.mul (F64.of_Z a) F64.one) (F64.of_Z n).

Section MFCC.

(** libm: [std::cos], [std::sin], [acos], [std::log], [std::log10],
    [std::pow] on [double]. *)
Variables cos_d sin_d acos_d log_d log10_d : f64 -> f64.
Variable pow_d : f64 -> f64 -> f64.

(** [const double PI = acos(-1.0)]. *)
Definition PI : f64 := acos_d (F64.of_Z (-1)).

Definition SAMPLE_RATE : Z := 48000.

(** ** FFT (lines 25-55) *)

(** The permutation loop (lines 30-36). *)
Definition fft_permute (lg_n : nat) (a : list cd) : list cd :=
  for_range 0 (length a)
    (fun i a =>
       let rev := bit_reverse lg_n (Z.of_nat i) in
       if Z.of_nat i <? rev then swap_cd a i (Z.to_nat rev) else a)
    a.

(** One butterfly (lines 44-47), on the array and the running twiddle [w]. *)
Definition fft_butterfly (wlen : cd) (i half : nat) (j : nat) (st : list cd * cd)
  : list cd * cd :=
  let '(a, w) := st in
  let u := nth_cd a (i + j) in
  let v := cd_mul (nth_cd a (i + j + half)) w in
  (<[(i + j + half)%nat := cd_sub u v]> (<[(i + j)%nat := cd_add u v]> a),
   cd_mul w wlen).

(** One block [for (j = 0; j < len / 2; j++)] started with [w = 1]. *)
Definition fft_block (wlen : cd) (len : nat) (i : nat) (a : list cd) : list cd :=
  fst (for_range 0 (len / 2) (fft_butterfly wlen i (len / 2))
         (a, cd_of_real F64.one)).

(** One pass [for (i = 0; i < n; i += len)] for a given [len]. *)
Definition fft_pass (invert : bool) (len : nat) (a : list cd) : list cd :=
  let n := length a in
  let ang :=
    F64.mul (F64.div (F64.mul (F64.of_Z 2) PI) (F64.of_Z (Z.of_nat len)))
            (F64.of_Z (if invert then -1 else 1)) in
  let wlen := {| re := cos_d ang; im := sin_d ang |} in
  for_range 0 ((n + len - 1) / len) (fun b a => fft_block wlen len (b * len) a) a.

(** [for (len = 2; len <= n; len <<= 1)]. *)
Fixpoint fft_passes (fuel : nat) (invert : bool) (len : nat) (a : list cd) : list cd :=
  match fuel with
  | O => a
  | S fuel' =>
      if (len <=? length a)%nat
      then fft_passes fuel' invert (2 * len) (fft_pass invert len a)
      else a
  end.

Definition fft (a : list cd) (invert : bool) : list cd :=
  let n := length a in
  let lg_n := log2_until n 0 (Z.of_nat n) in
  let a := fft_permute lg_n a in
  let a := fft_passes n invert 2 a in
  if invert then map (fun x => cd_div_real x (F64.of_Z (Z.of_nat n))) a else a.

(** ** Power spectrum (lines 58-70) *)

Definition power_spectrum (frame : list f32) : list f64 :=
  let n := length frame in
  let fft_size := Z.to_nat (double_until n 1 (Z.of_nat n)) in
  let fft_input :=
    for_range 0 n
      (fun i a => <[i := cd_of_real (F64.of_float (nth_f frame i))]> a)
      (replicate fft_size (cd_of_real F64.zero)) in
  let spectrum := fft fft_input false in
  for_range 0 (fft_size / 2 + 1)
    (fun i power =>
       <[i := F64.div (cd_norm (nth_cd spectrum i)) (F64.of_Z (Z.of_nat fft_size))]> power)
    (replicate (fft_size / 2 + 1) F64.zero).

(** ** Pre-emphasis (lines 73-77) *)

(** The literal [0.95f]. *)
Definition pre_emphasis_coeff : f32 := F32.div (F32.of_Z 95) (F32.of_Z 100).

(** [signal[i] -= 0.95f * signal[i - 1]]. *)
Definition pre_emphasis_step (i : nat) (signal : list f32) : list f32 :=
  <[i := F32.sub (nth_f signal i)
           (F32.mul pre_emphasis_coeff (nth_f signal (i - 1)))]> signal.

(** [for (size_t i = signal.size() - 1; i > 0; --i)]: iteration [k] handles
    index [size - 1 - k].  (On an empty vector [size() - 1] wraps around and
    the C++ loop reads out of bounds; the model then does nothing.) *)
Definition pre_emphasis (signal : list f32) : list f32 :=
  let n := length signal in
  for_range 0 (n - 1) (fun k s => pre_emphasis_step (n - 1 - k) s) signal.

(** ** Hamming window (lines 80-85) *)

(** [0.54 - 0.46 * std::cos(2 * PI * i / (n - 1))]. *)
Definition hamming_coeff (n : Z) (i : Z) : f64 :=
  F64.sub (F64.of_decimal 54 2)
    (F64.mul (F64.of_decimal 46 2)
       (cos_d (F64.div (F64.mul (F64.mul (F64.of_Z 2) PI) (F64.of_Z i))
                 (F64.of_Z (n - 1))))).

(** [frame[i] *= c]: a [double] product stored back into a [float]. *)
Definition hamming_step (n : Z) (i : nat) (frame : list f32) : list f32 :=
  <[i := F32.of_float
           (F64.mul (F64.of_float (nth_f frame i)) (hamming_coeff n (Z.of_nat i)))]> frame.

Definition hamming_window (frame : list f32) : list f32 :=
  let n := length frame in
  for_range 0 n (hamming_step (Z.of_nat n)) frame.

(** ** Mel scale (lines 88-94) *)

Definition hz_to_mel (hz : f64) : f64 :=
  F64.mul (F64.of_Z 2595)
    (log10_d (F64.add F64.one (F64.div hz (F64.of_Z 700)))).

Definition mel_to_hz (mel : f64) : f64 :=
  F64.mul (F64.of_Z 700)
    (F64.sub (pow_d (F64.of_Z 10) (F64.div mel (F64.of_Z 2595))) F64.one).

(** ** Mel filterbank (lines 97-122) *)

(** [mel_points[i]] (line 102). *)
Definition mel_point (num_filters sample_rate : Z) (i : Z) : f64 :=
  let low_freq_mel := F64.zero in
  let high_freq_mel := hz_to_mel (F64.div (F64.of_Z sample_rate) (F64.of_Z 2)) in
  F64.add low_freq_mel
    (F64.div (F64.mul (F64.sub high_freq_mel low_freq_mel) (F64.of_Z i))
       (F64.of_Z (num_filters + 1))).

(** [bin[i]] (lines 106 and 110). *)
Definition mel_bin (num_filters fft_size sample_rate : Z) (i : Z) : option Z :=
  let hz := mel_to_hz (mel_point num_filters sample_rate i) in
  double_to_int
    (F64.div (F64.mul (F64.of_Z (fft_size + 1)) hz) (F64.of_Z sample_rate)).

(** The vector [bin], of [num_filters + 2] entries. *)
Definition mel_bins (num_filters fft_size sample_rate : Z) : option (list Z) :=
  mapM (mel_bin num_filters fft_size sample_rate) (int_range 0 (num_filters + 2)).


Definition create_mel_filterbanks (num_filters fft_size sample_rate : Z)
  : option (list (list f64)) :=
  mel_bins num_filters fft_size sample_rate ≫= fill_filters num_filters fft_size.

(** ** Filter energies (lines 125-136) *)

(** The literal [1e-10]. *)
Definition log_floor : f64 := F64.of_decimal 1 10.

(** [for (k = 0; k < power.size(); k++) mel_energies[m] += power[k] * filterbanks[m][k]],
    started from [acc]. *)
Definition mel_accumulate (power : list f64) (filter : list f64) (acc : f64) : f64 :=
  for_range 0 (length power)
    (fun k acc => F64.add acc (F64.mul (nth_f power k) (nth_f filter k))) acc.

(** [if (e > 0) log(e) else log(1e-10)]. *)
Definition log_energy (e : f64) : f64 :=
  if F64.ltb F64.zero e then log_d e else log_d log_floor.

Definition apply_mel_filters (power : list f64) (filterbanks : list (list f64))
  : list f64 :=
  let num_filters := length filterbanks in
  for_range 0 num_filters
    (fun m mel_energies =>
       let e := mel_accumulate power (nth_v filterbanks m) (nth_f mel_energies m) in
       <[m := log_energy e]> mel_energies)
    (replicate num_filters F64.zero).

(** ** DCT (lines 139-151) *)

(** [std::cos(PI * k * (m + 0.5) / num_filters)]. *)
Definition dct_basis (num_filters : Z) (k m : Z) : f64 :=
  cos_d (F64.div
           (F64.mul (F64.mul PI (F64.of_Z k))
                    (F64.add (F64.of_Z m) (F64.of_decimal 5 1)))
           (F64.of_Z num_filters)).

(** The inner loop: [sum += mel_energies[m] * cos(...)]. *)
Definition dct_sum (mel_energies : list f64) (k : nat) : f64 :=
  let num_filters := length mel_energies in
  for_range 0 num_filters
    (fun m sum =>
       F64.add sum
         (F64.mul (nth_f mel_energies m)
            (dct_basis (Z.of_nat num_filters) (Z.of_nat k) (Z.of_nat m))))
    F64.zero.

Definition dct (mel_energies : list f64) : list f32 :=
  let num_mfcc := 13%nat in
  for_range 0 num_mfcc
    (fun k mfcc => <[k := F32.of_float (dct_sum mel_energies k)]> mfcc)
    (replicate num_mfcc F32.zero).

(** ** MFCC extraction (lines 154-181), without the JNI marshalling *)

Definition extractMFCC (audioData : list f32) : option (list f32) :=
  let frame := hamming_window (pre_emphasis audioData) in
  let power := power_spectrum frame in
  filterbanks ← create_mel_filterbanks 40 (Z.of_nat (length power) * 2 - 2) SAMPLE_RATE;
  Some (dct (apply_mel_filters power filterbanks)).

(** ** The loops in closed form *)

(** The downward loop of [pre_emphasis] as one map over the original
    vector. *)
Definition pre_emphasis_map (frame : list f32) : list f32 :=
  imap (fun i x =>
          match i with
          | O => x
          | S i' => F32.sub x (F32.mul pre_emphasis_coeff (nth_f frame i'))
          end) frame.

(** The loop of [hamming_window] as one map. *)
Definition hamming_map (frame : list f32) : list f32 :=
  imap (fun i x =>
          F32.of_float
            (F64.mul (F64.of_float x)
               (hamming_coeff (Z.of_nat (length frame)) (Z.of_nat i)))) frame.

(** The outer loop of [apply_mel_filters] as one map over the filters. *)
Definition mel_energies_map (power : list f64) (filterbanks : list (list f64))
  : list f64 :=
  map (fun filter => log_energy (mel_accumulate power filter F64.zero)) filterbanks.

(** The outer loop of [dct] as one map over [k = 0..12]. *)
Definition dct_map (mel_energies : list f64) : list f32 :=
  map (fun k => F32.of_float (dct_sum mel_energies k)) (seq 0 13).

End MFCC.

(** * The pipeline in the words of the specification

    Sections 4.1 to 4.3 of the specification, written out on the same
    number formats.  Nothing below refers to the definitions that embed
    the functions of [audio_matcher.cpp]; only the arithmetic of the two
    formats, complex numbers and libm are shared. *)

(** The [double] nearest to pi. *)
Definition spec_pi : f64 := S754_finite false 7074237752028440 (-51).

(** The pre-emphasis coefficient 0.95 as a [float]. *)
Definition spec_alpha : f32 := S754_finite false 15938355 (-24).

(** Bit reversal of an index on [bits] bits: the lowest bit becomes the
    highest, the others are reversed below it. *)
Fixpoint spec_rev (bits : nat) (i : nat) : nat :=
  match bits with
  | O => O
  | S b => ((i mod 2) * 2 ^ b + spec_rev b (i / 2))%nat
  end.

(** The twiddle factor of butterfly [j]: [j] successive products by the
    factor of angle [2 pi / len], from 1. *)
Definition spec_twiddle (wlen : cd) (j : nat) : cd :=
  Nat.iter j (fun w => cd_mul w wlen) (cd_of_real F64.one).

Section SpecSide.

Variables cos_d sin_d log_d log10_d : f64 -> f64.
Variable pow_d : f64 -> f64 -> f64.

(** ** 4.3, step 1: pre-emphasis *)

(** Every sample but the first loses [alpha] times the unmodified sample
    before it. *)
Definition spec_pre_emphasis (frame : list f32) : list f32 :=
  imap (fun i x =>
          match i with
          | O => x
          | S j => F32.sub x (F32.mul spec_alpha (nth_f frame j))
          end) frame.

(** ** 4.3, step 2: windowing *)

(** [0.54 - 0.46 cos(2 pi i / (n - 1))]. *)
Definition spec_hamming_coefficient (n i : nat) : f64 :=
  F64.sub (F64.of_decimal 54 2)
    (F64.mul (F64.of_decimal 46 2)
       (cos_d (F64.div (F64.mul (F64.mul (F64.of_Z 2) spec_pi) (F64.of_Z (Z.of_nat i)))
                 (F64.of_Z (Z.of_nat n - 1))))).

Definition spec_hamming (frame : list f32) : list f32 :=
  imap (fun i x =>
          F32.of_float
            (F64.mul (F64.of_float x) (spec_hamming_coefficient (length frame) i)))
       frame.

(** ** 4.1: the transform and the power spectrum *)

(** The bit-reversal permutation. *)
Definition spec_bit_reversal (a : list cd) : list cd :=
  imap (fun i _ => nth_cd a (spec_rev (Nat.log2 (length a)) i)) a.

(** The butterfly merges for blocks of [len] elements: in every block the
    lower half receives [u + v w] and the upper half [u - v w], where [u]
    is taken from the lower half, [v] from the upper half and [w] is the
    twiddle factor of the position in the half. *)
Definition spec_butterflies (invert : bool) (len : nat) (a : list cd) : list cd :=
  let half := (len / 2)%nat in
  let ang :=
    F64.mul (F64.div (F64.mul (F64.of_Z 2) spec_pi) (F64.of_Z (Z.of_nat len)))
            (F64.of_Z (if invert then -1 else 1)) in
  let wlen := {| re := cos_d ang; im := sin_d ang |} in
  imap (fun p _ =>
          let j := (p mod len)%nat in
          if (j <? half)%nat
          then cd_add (nth_cd a p)
                 (cd_mul (nth_cd a (p + half)) (spec_twiddle wlen j))
          else cd_sub (nth_cd a (p - half))
                 (cd_mul (nth_cd a p) (spec_twiddle wlen (j - half)))) a.

(** Bit reversal, then the merges for the block sizes 2, 4, ..., [n]; the
    inverse transform divides every element by [n]. *)
Definition spec_transform (a : list cd) (invert : bool) : list cd :=
  let n := length a in
  let merged :=
    foldl (fun a s => spec_butterflies invert (2 ^ s) a)
      (spec_bit_reversal a) (seq 1 (Nat.log2 n)) in
  if invert
  then map (fun x => cd_div_real x (F64.of_Z (Z.of_nat n))) merged
  else merged.

(** Zero padding to the next power of two, forward transform, and
    [|X_k|^2 / n] for [k = 0 .. n/2]. *)
Definition spec_power_spectrum (frame : list f32) : list f64 :=
  let n := (2 ^ Nat.log2_up (length frame))%nat in
  let padded :=
    map (fun x => cd_of_real (F64.of_float x)) frame
    ++ replicate (n - length frame) (cd_of_real F64.zero) in
  let spectrum := spec_transform padded false in
  map (fun k =>
         let z := nth_cd spectrum k in
         F64.div (F64.add (F64.mul (re z) (re z)) (F64.mul (im z) (im z)))
                 (F64.of_Z (Z.of_nat n)))
      (seq 0 (n / 2 + 1)).

(** ** 4.2: the mel filterbank *)

Definition spec_hz_to_mel (hz : f64) : f64 :=
  F64.mul (F64.of_Z 2595) (log10_d (F64.add F64.one (F64.div hz (F64.of_Z 700)))).

Definition spec_mel_to_hz (mel : f64) : f64 :=
  F64.mul (F64.of_Z 700)
    (F64.sub (pow_d (F64.of_Z 10) (F64.div mel (F64.of_Z 2595))) F64.one).

(** Point [i] of the [numFilters + 2] points equally spaced in mel between 0
    and the mel value of [sampleRate / 2], as an FFT bin index
    [floor((fftSize + 1) hz / sampleRate)]. *)
Definition spec_bin (numFilters fftSize sampleRate : Z) (i : nat) : option Z :=
  let high := spec_hz_to_mel (F64.div (F64.of_Z sampleRate) (F64.of_Z 2)) in
  let mel :=
    F64.add F64.zero
      (F64.div (F64.mul (F64.sub high F64.zero) (F64.of_Z (Z.of_nat i)))
               (F64.of_Z (numFilters + 1))) in
  double_to_int
    (F64.div (F64.mul (F64.of_Z (fftSize + 1)) (spec_mel_to_hz mel))
             (F64.of_Z sampleRate)).

(** The weight of filter [m] (from 1) at bin [k]: a linear ramp from 0 at
    the left bin up to 1 at the centre bin, a linear ramp from 1 at the
    centre bin down to 0 at the right bin, and 0 elsewhere. *)
Definition spec_weight (bin : list Z) (m k : Z) : f64 :=
  let left := nth_Z bin (m - 1) in
  let centre := nth_Z bin m in
  let right := nth_Z bin (m + 1) in
  if (left <=? k) && (k <? centre)
  then F64.div (F64.of_Z (k - left)) (F64.of_Z (centre - left))
  else if (centre <=? k) && (k <? right)
  then F64.div (F64.of_Z (right - k)) (F64.of_Z (right - centre))
  else F64.zero.

Definition spec_filterbank (numFilters fftSize sampleRate : Z)
  : option (list (list f64)) :=
  bin ← mapM (spec_bin numFilters fftSize sampleRate)
             (seq 0 (Z.to_nat (numFilters + 2)));
  Some (map (fun m =>
               map (fun k => spec_weight bin (Z.of_nat m) (Z.of_nat k))
                   (seq 0 (Z.to_nat (fftSize / 2 + 1))))
            (seq 1 (Z.to_nat numFilters))).

(** ** 4.3, step 4: filter energies and log compression *)

(** For each filter the sum of [power[k] weight[k]] over all bins, then
    [log(energy)] if [energy > 0] and [log(1e-10)] otherwise. *)
Definition spec_energies (power : list f64) (filterbank : list (list f64))
  : list f64 :=
  map (fun weights =>
         let energy :=
           foldl (fun acc k =>
                    F64.add acc (F64.mul (nth_f power k) (nth_f weights k)))
                 F64.zero (seq 0 (length power)) in
         if F64.ltb F64.zero energy then log_d energy
         else log_d (F64.of_decimal 1 10))
      filterbank.

(** ** 4.3, step 5: the cosine sums *)

(** For [k = 0 .. 12] the sum over all filters [m] of
    [melEnergy[m] cos(pi k (m + 0.5) / numFilters)], without scaling, as a
    [float]. *)
Definition spec_dct (energies : list f64) : list f32 :=
  map (fun k =>
         F32.of_float
           (foldl (fun acc m =>
                     F64.add acc
                       (F64.mul (nth_f energies m)
                          (cos_d (F64.div
                                    (F64.mul (F64.mul spec_pi (F64.of_Z (Z.of_nat k)))
                                             (F64.add (F64.of_Z (Z.of_nat m))
                                                      (F64.of_decimal 5 1)))
                                    (F64.of_Z (Z.of_nat (length energies)))))))
                  F64.zero (seq 0 (length energies))))
      (seq 0 13).

(** ** 4.3: the whole pipeline, 40 filters at 48000 Hz *)

Definition spec_mfcc (frame : list f32) : option (list f32) :=
  let power := spec_power_spectrum (spec_hamming (spec_pre_emphasis frame)) in
  filterbank ← spec_filterbank 40 (2 * (Z.of_nat (length power) - 1)) 48000;
  Some (spec_dct (spec_energies power filterbank)).

End SpecSide.
(** ** Generic facts on loops and tables *)

Lemma for_range_snoc {S : Type} (lo count : nat) (body : nat -> S -> S) (s : S) :
  for_range lo (Datatypes.S count) body s
  = body (lo + count)%nat (for_range lo count body s).
Proof.
  revert lo s. induction count as [|c IH]; intros lo s.
  - simpl. by rewrite Nat.add_0_r.
  - change (for_range lo (Datatypes.S (Datatypes.S c)) body s)
      with (for_range (Datatypes.S lo) (Datatypes.S c) body (body lo s)).
    rewrite IH. simpl. by rewrite Nat.add_succ_r.
Qed.

(** Loop invariants: [P k] holds before iteration [k]. *)
Lemma for_range_inv {S : Type} (P : nat -> S -> Prop) (lo count : nat)
    (body : nat -> S -> S) (s : S) :
  P lo s ->
  (forall k t, (lo <= k < lo + count)%nat -> P k t -> P (Datatypes.S k) (body k t)) ->
  P (lo + count)%nat (for_range lo count body s).
Proof.
  intros Hs Hstep. induction count as [|c IH].
  - simpl. by rewrite Nat.add_0_r.
  - rewrite for_range_snoc, Nat.add_succ_r.
    apply Hstep; [lia|]. apply IH. intros k t Hk. apply Hstep. lia.
Qed.


Lemma table_dims_replicate (rows cols : nat) (x : f32) :
  table_dims rows cols (replicate rows (replicate cols x)).
Proof.
  split; [apply length_replicate|].
  intros i row Hrow. apply lookup_replicate in Hrow as [-> _].
  apply length_replicate.
Qed.

Lemma table_dims_row (rows cols : nat) (dp : list (list f32)) (i : nat) :
  table_dims rows cols dp -> (i < rows)%nat -> length (nth_v dp i) = cols.
Proof.
  intros [Hlen Hrows] Hi. unfold nth_v.
  destruct (dp !! i) as [row|] eqn:E; simpl; [by eapply Hrows|].
  apply lookup_ge_None in E. lia.
Qed.

Lemma table_dims_set2 (rows cols : nat) (dp : list (list f32)) (i j : nat) (x : f32) :
  table_dims rows cols dp -> table_dims rows cols (set2 dp i j x).
Proof.
  intros Hd. pose proof Hd as [Hlen Hrows]. unfold set2. split.
  - by rewrite length_insert.
  - intros a row Ha. destruct (decide (a = i)) as [->|Hne].
    + destruct (decide (i < length dp)%nat) as [Hlt|Hge].
      * rewrite list_lookup_insert_eq in Ha by done. injection Ha as <-.
        rewrite length_insert. apply (table_dims_row rows cols); [done|lia].
      * rewrite list_insert_ge in Ha by lia. by eapply Hrows.
    + rewrite list_lookup_insert_ne in Ha by done. by eapply Hrows.
Qed.

Lemma at2_set2 (rows cols : nat) (dp : list (list f32)) (i j a b : nat) (x : f32) :
  table_dims rows cols dp -> (i < rows)%nat -> (j < cols)%nat ->
  at2 (set2 dp i j x) a b
  = if Nat.eqb a i && Nat.eqb b j then x else at2 dp a b.
Proof.
  intros Hd Hi Hj. pose proof Hd as [Hlen Hrows].
  pose proof (table_dims_row rows cols dp i Hd Hi) as Hrow.
  unfold at2, set2. destruct (Nat.eqb_spec a i) as [->|Hne]; simpl.
  - unfold nth_v at 1. rewrite list_lookup_insert_eq by lia. simpl.
    destruct (Nat.eqb_spec b j) as [->|Hnb].
    + unfold nth_f. by rewrite list_lookup_insert_eq by lia.
    + unfold nth_f. by rewrite list_lookup_insert_ne by done.
  - unfold nth_v at 1. by rewrite list_lookup_insert_ne by done.
Qed.

(** ** The DTW table built by the loops is the recurrence *)

Lemma dtw_rec_col0 (seq1 seq2 : list (list f32)) (a : nat) :
  dtw_rec seq1 seq2 a 0 = dtw_boundary a 0.
Proof. by destruct a. Qed.

Lemma dtw_rec_row0 (seq1 seq2 : list (list f32)) (b : nat) :
  dtw_rec seq1 seq2 0 b = dtw_boundary 0 b.
Proof. done. Qed.

Lemma dtw_rec_step (seq1 seq2 : list (list f32)) (i j : nat) :
  (1 <= i)%nat -> (1 <= j)%nat ->
  dtw_rec seq1 seq2 i j
  = F32.add (dtw_cost seq1 seq2 i j)
      (min3 (dtw_rec seq1 seq2 (i - 1) j) (dtw_rec seq1 seq2 i (j - 1))
            (dtw_rec seq1 seq2 (i - 1) (j - 1))).
Proof.
  intros Hi Hj. destruct i as [|i]; [lia|]. destruct j as [|j]; [lia|].
  simpl. by rewrite !Nat.sub_0_r.
Qed.

Lemma at2_dtw_init (len1 len2 a b : nat) :
  (a <= len1)%nat -> (b <= len2)%nat ->
  at2 (dtw_init len1 len2) a b = dtw_boundary a b.
Proof.
  intros Ha Hb. unfold dtw_init.
  rewrite (at2_set2 (len1 + 1) (len2 + 1)) by (try apply table_dims_replicate; lia).
  destruct a as [|a], b as [|b]; simpl; try done;
    unfold at2, nth_v, nth_f;
    rewrite lookup_replicate_2 by lia; simpl;
    by rewrite lookup_replicate_2 by lia.
Qed.

Lemma dtw_inv_init (seq1 seq2 : list (list f32)) :
  dtw_inv seq1 seq2 1 1 (dtw_init (length seq1) (length seq2)).
Proof.
  split.
  - apply table_dims_set2, table_dims_replicate.
  - intros a b Ha Hb. rewrite at2_dtw_init by done. unfold dtw_done.
    destruct a as [|[|a]]; simpl; try done.
    destruct b; simpl; done.
Qed.

Lemma dtw_inv_cell (seq1 seq2 : list (list f32)) (i j : nat) (dp : list (list f32)) :
  (1 <= i <= length seq1)%nat -> (1 <= j <= length seq2)%nat ->
  dtw_inv seq1 seq2 i j dp ->
  dtw_inv seq1 seq2 i (S j) (dtw_cell seq1 seq2 i j dp).
Proof.
  intros Hi Hj [Hd Hv]. split; [by apply table_dims_set2|].
  intros a b Ha Hb. unfold dtw_cell.
  rewrite (at2_set2 _ _ _ _ _ _ _ _ Hd) by lia.
  destruct (Nat.eqb_spec a i) as [->|Hai]; simpl.
  - destruct (Nat.eqb_spec b j) as [->|Hbj].
    + rewrite !Hv by lia. unfold dtw_done.
      rewrite Nat.eqb_refl.
      replace (i - 1 <? i)%nat with true by (symmetry; apply Nat.ltb_lt; lia).
      replace (j - 1 <? j)%nat with true by (symmetry; apply Nat.ltb_lt; lia).
      replace (j <? S j)%nat with true by (symmetry; apply Nat.ltb_lt; lia).
      rewrite orb_true_r. simpl. symmetry. apply dtw_rec_step; lia.
    + rewrite Hv by done. unfold dtw_done. rewrite Nat.eqb_refl. simpl.
      destruct (Nat.ltb_spec b j), (Nat.ltb_spec b (S j)); try done; lia.
  - rewrite Hv by done. unfold dtw_done.
    by replace (a =? i)%nat with false by (symmetry; by apply Nat.eqb_neq).
Qed.

Lemma dtw_inv_row (seq1 seq2 : list (list f32)) (i : nat) (dp : list (list f32)) :
  (1 <= i <= length seq1)%nat ->
  dtw_inv seq1 seq2 i 1 dp ->
  dtw_inv seq1 seq2 (S i) 1 (dtw_row seq1 seq2 i dp).
Proof.
  intros Hi Hinv. unfold dtw_row.
  pose proof (for_range_inv (dtw_inv seq1 seq2 i) 1 (length seq2)
                (dtw_cell seq1 seq2 i) dp Hinv) as Hloop.
  destruct Hloop as [Hd Hv].
  { intros k t Hk. apply dtw_inv_cell; [done|lia]. }
  split; [done|]. intros a b Ha Hb. rewrite Hv by done. unfold dtw_done.
  destruct (Nat.ltb_spec a i), (Nat.ltb_spec a (S i)); simpl; try done; try lia.
  - destruct (Nat.eqb_spec a i); [|lia]. simpl.
    destruct (Nat.ltb_spec b (S (length seq2))); [done|lia].
  - destruct (Nat.eqb_spec a i); [lia|]. simpl.
    destruct (Nat.eqb_spec a (S i)) as [->|]; simpl; [|done].
    destruct b; simpl; done.
Qed.

Lemma dtw_inv_table (seq1 seq2 : list (list f32)) :
  dtw_inv seq1 seq2 (1 + length seq1) 1 (dtw_table seq1 seq2).
Proof.
  unfold dtw_table. apply (for_range_inv (fun i => dtw_inv seq1 seq2 i 1)).
  - apply dtw_inv_init.
  - intros k t Hk. apply dtw_inv_row. lia.
Qed.

Lemma dtw_table_dims (seq1 seq2 : list (list f32)) :
  table_dims (length seq1 + 1) (length seq2 + 1) (dtw_table seq1 seq2).
Proof. apply dtw_inv_table. Qed.

Lemma dtw_table_rec (seq1 seq2 : list (list f32)) (a b : nat) :
  (a <= length seq1)%nat -> (b <= length seq2)%nat ->
  at2 (dtw_table seq1 seq2) a b = dtw_rec seq1 seq2 a b.
Proof.
  intros Ha Hb. destruct (dtw_inv_table seq1 seq2) as [_ Hv].
  rewrite Hv by done. unfold dtw_done.
  by replace (a <? 1 + length seq1)%nat with true by (symmetry; apply Nat.ltb_lt; lia).
Qed.

(** The recurrence, read on the table itself. *)
Lemma dtw_table_step (seq1 seq2 : list (list f32)) (i j : nat) :
  (1 <= i <= length seq1)%nat -> (1 <= j <= length seq2)%nat ->
  at2 (dtw_table seq1 seq2) i j
  = F32.add (dtw_cost seq1 seq2 i j)
      (min3 (at2 (dtw_table seq1 seq2) (i - 1) j)
            (at2 (dtw_table seq1 seq2) i (j - 1))
            (at2 (dtw_table seq1 seq2) (i - 1) (j - 1))).
Proof.
  intros Hi Hj. rewrite !dtw_table_rec by lia. apply dtw_rec_step; lia.
Qed.

Lemma dtw_table_boundary (seq1 seq2 : list (list f32)) (i j : nat) :
  (i <= length seq1)%nat -> (j <= length seq2)%nat -> i = O \/ j = O ->
  at2 (dtw_table seq1 seq2) i j = dtw_boundary i j.
Proof.
  intros Hi Hj [->| ->]; rewrite dtw_table_rec by done.
  - apply dtw_rec_row0.
  - apply dtw_rec_col0.
Qed.

(** ** Facts on the rounding functions of [SpecFloat] *)

Lemma digits2_pos_bounds (p : positive) :
  2 ^ (Zpos (digits2_pos p) - 1) <= Zpos p < 2 ^ Zpos (digits2_pos p).
Proof.
  induction p as [p IH|p IH|]; simpl digits2_pos.
  - rewrite Pos2Z.inj_succ.
    replace (Z.succ (Zpos (digits2_pos p)) - 1) with (Z.succ (Zpos (digits2_pos p) - 1)) by lia.
    rewrite !Z.pow_succ_r by lia. lia.
  - rewrite Pos2Z.inj_succ.
    replace (Z.succ (Zpos (digits2_pos p)) - 1) with (Z.succ (Zpos (digits2_pos p) - 1)) by lia.
    rewrite !Z.pow_succ_r by lia. lia.
  - simpl. lia.
Qed.

Lemma Zdigits2_nonneg (m : Z) : 0 <= m -> 0 <= Zdigits2 m.
Proof. destruct m; simpl; lia. Qed.

Lemma Zdigits2_pos (m : Z) : 0 < m -> 0 < Zdigits2 m.
Proof. destruct m; simpl; lia. Qed.

Lemma Zdigits2_bounds (m : Z) :
  0 < m -> 2 ^ (Zdigits2 m - 1) <= m < 2 ^ Zdigits2 m.
Proof. destruct m as [|p|p]; try lia. intros _. apply digits2_pos_bounds. Qed.

(** A non-negative number below [2^k] has at most [k] binary digits. *)
Lemma Zdigits2_le (m k : Z) : 0 <= k -> 0 <= m < 2 ^ k -> Zdigits2 m <= k.
Proof.
  intros Hk [Hm0 Hm]. destruct (Z.eq_dec m 0) as [->|Hne]; [simpl; lia|].
  destruct (Z.le_gt_cases (Zdigits2 m) k) as [|Hgt]; [done|exfalso].
  pose proof (Zdigits2_bounds m ltac:(lia)) as [Hlo _].
  assert (2 ^ k <= 2 ^ (Zdigits2 m - 1)) by (apply Z.pow_le_mono_r; lia).
  lia.
Qed.

Lemma shr_1_m (mrs : shr_record) :
  0 <= shr_m mrs -> shr_m (shr_1 mrs) = shr_m mrs / 2.
Proof.
  destruct mrs as [m r s]. simpl. intros Hm.
  destruct m as [|[p|p|]|p]; simpl; try lia; try done.
  - rewrite Pos2Z.inj_xI. apply Z.div_unique with 1; lia.
  - rewrite Pos2Z.inj_xO. apply Z.div_unique with 0; lia.
Qed.

Lemma pow2_xO (p : positive) : 2 ^ Zpos p~0 = 2 ^ Zpos p * 2 ^ Zpos p.
Proof. rewrite <- Z.pow_add_r by lia. f_equal. lia. Qed.

Lemma pow2_xI (p : positive) : 2 ^ Zpos p~1 = 2 * (2 ^ Zpos p * 2 ^ Zpos p).
Proof.
  rewrite <- Z.pow_add_r by lia. rewrite <- Z.pow_succ_r by lia. f_equal. lia.
Qed.

Lemma iter_shr_1_m (p : positive) (mrs : shr_record) :
  0 <= shr_m mrs ->
  shr_m (SpecFloat.iter_pos shr_1 p mrs) = shr_m mrs / 2 ^ Zpos p.
Proof.
  revert mrs. induction p as [p IH|p IH|]; intros mrs Hm; simpl SpecFloat.iter_pos.
  - assert (H1 : 0 <= shr_m (shr_1 mrs)) by (rewrite shr_1_m by done; apply Z.div_pos; lia).
    assert (H2 : 0 <= shr_m (SpecFloat.iter_pos shr_1 p (shr_1 mrs)))
      by (rewrite IH by done; apply Z.div_pos; lia).
    rewrite IH by done. rewrite IH by done. rewrite shr_1_m by done.
    rewrite !Z.div_div by lia. by rewrite pow2_xI.
  - assert (H2 : 0 <= shr_m (SpecFloat.iter_pos shr_1 p mrs))
      by (rewrite IH by done; apply Z.div_pos; lia).
    rewrite IH by done. rewrite IH by done.
    rewrite !Z.div_div by lia. by rewrite pow2_xO.
  - rewrite shr_1_m by done. done.
Qed.

Lemma shr_record_of_loc_m (m : Z) (l : location) : shr_m (shr_record_of_loc m l) = m.
Proof. by destruct l as [|[]]. Qed.

(** Effect of [shr_fexp] on a non-negative mantissa: the exponent is raised
    to the canonical one when it lies below, and the mantissa is shifted
    accordingly. *)
Lemma shr_fexp_spec (prec emax m e : Z) (l : location) :
  0 <= m ->
  let e' := Z.max e (fexp prec emax (Zdigits2 m + e)) in
  snd (shr_fexp prec emax m e l) = e' /\
  shr_m (fst (shr_fexp prec emax m e l)) = m / 2 ^ (e' - e).
Proof.
  intros Hm e'. unfold shr_fexp, shr. subst e'.
  destruct (fexp prec emax (Zdigits2 m + e) - e) as [|p|p] eqn:E; simpl.
  - rewrite Z.max_l by lia. rewrite Z.sub_diag, shr_record_of_loc_m. simpl.
    by rewrite Z.div_1_r.
  - rewrite Z.max_r by lia. split; [lia|].
    rewrite iter_shr_1_m by (rewrite shr_record_of_loc_m; done).
    rewrite shr_record_of_loc_m. by rewrite <- E.
  - rewrite Z.max_l by lia. rewrite Z.sub_diag, shr_record_of_loc_m. simpl.
    by rewrite Z.div_1_r.
Qed.

Lemma round_nearest_even_cases (m : Z) (l : location) :
  round_nearest_even m l = m \/ round_nearest_even m l = m + 1.
Proof. destruct l as [|[]]; simpl; auto. destruct (Z.even m); auto. Qed.

(** The result of [binary_round_aux] on a non-negative mantissa, in terms of
    integer division by powers of two. *)
Lemma binary_round_aux_spec (prec emax : Z) (sx : bool) (mx ex : Z) (lx : location) :
  0 <= mx ->
  let e1 := Z.max ex (fexp prec emax (Zdigits2 mx + ex)) in
  let m1 := mx / 2 ^ (e1 - ex) in
  exists mr,
    (mr = m1 \/ mr = m1 + 1) /\
    let e2 := Z.max e1 (fexp prec emax (Zdigits2 mr + e1)) in
    binary_round_aux prec emax sx mx ex lx
    = match mr / 2 ^ (e2 - e1) with
      | Z0 => S754_zero sx
      | Zpos m => if e2 <=? emax - prec then S754_finite sx m e2 else S754_infinity sx
      | Zneg _ => S754_nan
      end.
Proof.
  intros Hmx e1 m1. unfold binary_round_aux.
  pose proof (shr_fexp_spec prec emax mx ex lx Hmx) as [He1 Hm1].
  destruct (shr_fexp prec emax mx ex lx) as [mrs' e'] eqn:E1. simpl in He1, Hm1.
  fold e1 in He1, Hm1. fold m1 in Hm1.
  set (mr := round_nearest_even (shr_m mrs') (loc_of_shr_record mrs')).
  exists mr. split.
  { subst mr. rewrite <- Hm1. apply round_nearest_even_cases. }
  assert (Hm1pos : 0 <= m1) by (apply Z.div_pos; [done|]; apply Z.pow_pos_nonneg; lia || (subst e1; lia)).
  assert (Hmr : 0 <= mr).
  { destruct (round_nearest_even_cases (shr_m mrs') (loc_of_shr_record mrs')) as [H|H];
      fold mr in H; lia. }
  pose proof (shr_fexp_spec prec emax mr e' loc_Exact Hmr) as [He2 Hm2].
  destruct (shr_fexp prec emax mr e' loc_Exact) as [mrs'' e''] eqn:E2. simpl in He2, Hm2.
  subst e'. simpl. rewrite Hm2, He2. done.
Qed.

Lemma fexp_ge_emin (prec emax e : Z) : emin prec emax <= fexp prec emax e.
Proof. unfold fexp. lia. Qed.

Lemma div_pow2_nonneg (m k : Z) : 0 <= m -> 0 <= m / 2 ^ k.
Proof.
  intros Hm. destruct (Z.le_gt_cases 0 k).
  - apply Z.div_pos; [done|]. by apply Z.pow_pos_nonneg.
  - rewrite Z.pow_neg_r by lia. by rewrite Z.div_0_r.
Qed.

(** Dropping the digits beyond the precision leaves a positive mantissa. *)
Lemma div_pow2_digits_pos (prec m : Z) :
  0 < prec -> 0 < m -> 0 < m / 2 ^ Z.max 0 (Zdigits2 m - prec).
Proof.
  intros Hp Hm. pose proof (Zdigits2_bounds m Hm) as [Hlo _].
  destruct (Z.le_gt_cases (Zdigits2 m - prec) 0) as [Hle|Hgt].
  - rewrite Z.max_l by lia. simpl. rewrite Z.div_1_r. lia.
  - rewrite Z.max_r by lia.
    apply Z.div_str_pos. split; [apply Z.pow_pos_nonneg; lia|].
    etransitivity; [|exact Hlo]. apply Z.pow_le_mono_r; lia.
Qed.

Lemma binary_round_aux_rounded (prec emax : Z) (sx : bool) (mx ex : Z) (lx : location) :
  0 <= mx -> rounded prec emax sx (binary_round_aux prec emax sx mx ex lx).
Proof.
  intros Hmx. destruct (binary_round_aux_spec prec emax sx mx ex lx Hmx) as (mr & Hmr & ->).
  set (e1 := Z.max ex (fexp prec emax (Zdigits2 mx + ex))) in *.
  set (e2 := Z.max e1 (fexp prec emax (Zdigits2 mr + e1))).
  assert (0 <= mx / 2 ^ (e1 - ex)) by by apply div_pow2_nonneg.
  assert (0 <= mr / 2 ^ (e2 - e1)) by (apply div_pow2_nonneg; lia).
  destruct (mr / 2 ^ (e2 - e1)) as [|m|m] eqn:E; simpl; try done; try lia.
  destruct (Z.leb_spec e2 (emax - prec)); simpl; [|done].
  split; [done|]. split; [|done].
  pose proof (fexp_ge_emin prec emax (Zdigits2 mr + e1)). lia.
Qed.

Lemma binary_round_aux_nonzero (prec emax : Z) (sx : bool) (mx ex : Z) (lx : location) (s : bool) :
  0 < prec -> 0 < mx -> emin prec emax <= ex ->
  binary_round_aux prec emax sx mx ex lx <> S754_zero s.
Proof.
  intros Hp Hmx Hex.
  destruct (binary_round_aux_spec prec emax sx mx ex lx ltac:(lia)) as (mr & Hmr & ->).
  set (e1 := Z.max ex (fexp prec emax (Zdigits2 mx + ex))) in *.
  set (e2 := Z.max e1 (fexp prec emax (Zdigits2 mr + e1))).
  assert (He1 : e1 - ex = Z.max 0 (Zdigits2 mx - prec)) by (subst e1; unfold fexp; lia).
  assert (Hm1 : 0 < mx / 2 ^ (e1 - ex)) by (rewrite He1; by apply div_pow2_digits_pos).
  assert (Hmr0 : 0 < mr) by lia.
  assert (He2 : e2 - e1 = Z.max 0 (Zdigits2 mr - prec)) by (subst e2 e1; unfold fexp; lia).
  assert (Hm2 : 0 < mr / 2 ^ (e2 - e1)) by (rewrite He2; by apply div_pow2_digits_pos).
  destruct (mr / 2 ^ (e2 - e1)) as [|m|m]; try lia.
  by destruct (e2 <=? emax - prec).
Qed.

(** Dividing by [2^k] removes [k] digits. *)
Lemma div_pow2_lt (m d k : Z) :
  0 <= k -> 0 <= m < 2 ^ d -> k <= d -> m / 2 ^ k < 2 ^ (d - k).
Proof.
  intros Hk [Hm0 Hm] Hkd.
  apply Z.div_lt_upper_bound; [by apply Z.pow_pos_nonneg|].
  rewrite <- Z.pow_add_r by lia. by replace (k + (d - k)) with d by lia.
Qed.

(** The exponent chosen by [binary_round_aux] exceeds the canonical exponent
    of the input by at most one. *)
Lemma binary_round_aux_exponent (prec emax : Z) (sx : bool) (mx ex : Z) (lx : location)
    (s : bool) (m : positive) (e : Z) :
  0 < prec -> 0 < mx ->
  binary_round_aux prec emax sx mx ex lx = S754_finite s m e ->
  e <= Z.max ex (Z.max (Zdigits2 mx + ex + 1 - prec) (emin prec emax)).
Proof.
  intros Hp Hmx.
  destruct (binary_round_aux_spec prec emax sx mx ex lx ltac:(lia)) as (mr & Hmr & ->).
  set (d := Zdigits2 mx) in *.
  set (e1 := Z.max ex (fexp prec emax (d + ex))) in *.
  set (e2 := Z.max e1 (fexp prec emax (Zdigits2 mr + e1))).
  pose proof (Zdigits2_bounds mx Hmx) as [_ Hhi]. fold d in Hhi.
  pose proof (Zdigits2_pos mx Hmx) as Hd. fold d in Hd.
  assert (He1 : ex <= e1) by (subst e1; lia).
  assert (Hbound : e2 <= Z.max ex (Z.max (d + ex + 1 - prec) (emin prec emax))).
  { destruct (Z.le_gt_cases (e1 - ex) d) as [Hle|Hgt].
    - assert (Hm1 : mx / 2 ^ (e1 - ex) < 2 ^ (d - (e1 - ex))) by (apply div_pow2_lt; lia).
      assert (Hm10 : 0 <= mx / 2 ^ (e1 - ex)) by (apply div_pow2_nonneg; lia).
      assert (Hdr : Zdigits2 mr <= d - (e1 - ex) + 1).
      { apply Zdigits2_le; [lia|]. rewrite Z.pow_add_r by lia. simpl (2 ^ 1). lia. }
      subst e2 e1. unfold fexp in *. lia.
    - assert (Hm1 : mx / 2 ^ (e1 - ex) = 0).
      { apply Z.div_small. split; [lia|].
        eapply Z.lt_le_trans; [exact Hhi|]. apply Z.pow_le_mono_r; lia. }
      assert (Hdr : Zdigits2 mr <= 1).
      { apply Zdigits2_le; [lia|]. simpl (2 ^ 1). lia. }
      subst e2 e1. unfold fexp in *. lia. }
  destruct (mr / 2 ^ (e2 - e1)) as [|m'|m']; try done.
  destruct (e2 <=? emax - prec); [|done]. intros [= _ _ <-]. exact Hbound.
Qed.

(** Rounding a value below [1] that carries its full precision gives at
    most [1]. *)
Lemma binary_round_aux_at_most_one (prec emax : Z) (mx ex : Z) (lx : location) :
  0 < prec -> emin prec emax <= - prec -> 1 - prec <= emax - prec ->
  0 <= mx -> ex <= fexp prec emax (Zdigits2 mx + ex) -> Zdigits2 mx + ex <= 0 ->
  at_most_one prec (binary_round_aux prec emax false mx ex lx).
Proof.
  intros Hp Hemin Hemax Hmx Hex HD.
  destruct (binary_round_aux_spec prec emax false mx ex lx Hmx) as (mr & Hmr & ->).
  set (d := Zdigits2 mx) in *.
  set (e1 := Z.max ex (fexp prec emax (d + ex))) in *.
  set (e2 := Z.max e1 (fexp prec emax (Zdigits2 mr + e1))).
  assert (He1 : e1 = fexp prec emax (d + ex)) by (subst e1; lia).
  assert (He1le : e1 <= - prec) by (rewrite He1; unfold fexp; lia).
  assert (Hd0 : 0 <= d) by (by apply Zdigits2_nonneg).
  assert (Hmxhi : mx < 2 ^ d).
  { destruct (Z.eq_dec mx 0) as [->|]; [simpl; lia|].
    apply Zdigits2_bounds. lia. }
  assert (Hm10 : 0 <= mx / 2 ^ (e1 - ex)) by (by apply div_pow2_nonneg).
  (* the rounded mantissa is at most 2^(d + ex - e1) *)
  assert (Hk : 0 <= d + ex - e1 \/ d + ex - e1 < 0) by lia.
  assert (Hmrhi : mr <= 2 ^ Z.max 0 (d + ex - e1)).
  { destruct Hk as [Hk|Hk].
    - rewrite Z.max_r by lia.
      assert (mx / 2 ^ (e1 - ex) < 2 ^ (d - (e1 - ex))) by (apply div_pow2_lt; lia).
      replace (d + ex - e1) with (d - (e1 - ex)) by lia. lia.
    - rewrite Z.max_l by lia. simpl.
      assert (mx / 2 ^ (e1 - ex) = 0); [|lia].
      apply Z.div_small. split; [lia|].
      eapply Z.lt_le_trans; [exact Hmxhi|]. apply Z.pow_le_mono_r; lia. }
  assert (Hmr0 : 0 <= mr) by lia.
  set (k := Z.max 0 (d + ex - e1)) in *.
  assert (Hk0 : 0 <= k) by (subst k; lia).
  assert (Hpow : 0 < 2 ^ k) by (by apply Z.pow_pos_nonneg).
  destruct (Z.eq_dec mr (2 ^ k)) as [Heq|Hne].
  - (* a carry up to the next power of two *)
    assert (Hdr : Zdigits2 mr = k + 1).
    { apply Z.le_antisymm.
      - apply Zdigits2_le; [lia|]. rewrite Heq, Z.pow_add_r by lia. simpl (2 ^ 1). lia.
      - destruct (Z.le_gt_cases (k + 1) (Zdigits2 mr)) as [|Hlt]; [done|exfalso].
        pose proof (Zdigits2_bounds mr ltac:(lia)) as [_ Hhi].
        assert (2 ^ Zdigits2 mr <= 2 ^ k) by (apply Z.pow_le_mono_r; lia). lia. }
    assert (He2 : e2 <= 1 - prec) by (subst e2 k; rewrite Hdr; unfold fexp in *; lia).
    assert (He21 : 0 <= e2 - e1) by (subst e2; lia).
    destruct (mr / 2 ^ (e2 - e1)) as [|m|m] eqn:E; simpl; try done.
    + replace (e2 <=? emax - prec) with true by (symmetry; apply Z.leb_le; lia).
      simpl. destruct (Z.eq_dec e2 (1 - prec)) as [Hone|]; [right|left; lia].
      split; [done|].
      assert (e2 - e1 = 1 /\ k = prec) as [H1 Hkp]
        by (subst e2 k; rewrite Hdr in *; unfold fexp in *; lia).
      rewrite <- E, Heq, H1, Hkp. simpl (2 ^ 1).
      replace prec with (1 + (prec - 1)) at 1 by lia.
      rewrite Z.pow_add_r by lia. simpl (2 ^ 1).
      rewrite Z.mul_comm. apply Z.div_mul. lia.
    + pose proof (div_pow2_nonneg mr (e2 - e1) Hmr0). lia.
  - (* no carry: the exponent stays below that of 1 *)
    assert (Hdr : Zdigits2 mr <= k) by (apply Zdigits2_le; lia).
    assert (He2 : e2 <= - prec) by (subst e2 k; unfold fexp in *; lia).
    destruct (mr / 2 ^ (e2 - e1)) as [|m|m] eqn:E; simpl; try done.
    + replace (e2 <=? emax - prec) with true by (symmetry; apply Z.leb_le; lia).
      simpl. left. lia.
    + pose proof (div_pow2_nonneg mr (e2 - e1) Hmr0). lia.
Qed.

Lemma binary_round_aux_not_infinity (prec emax : Z) (sx : bool) (mx ex : Z)
    (lx : location) (s : bool) :
  0 < prec -> 0 < mx ->
  Z.max ex (Z.max (Zdigits2 mx + ex + 1 - prec) (emin prec emax)) <= emax - prec ->
  binary_round_aux prec emax sx mx ex lx <> S754_infinity s.
Proof.
  intros Hp Hmx Hb Hinf.
  pose proof (binary_round_aux_rounded prec emax sx mx ex lx ltac:(lia)) as Hr.
  destruct (binary_round_aux_spec prec emax sx mx ex lx ltac:(lia)) as (mr & Hmr & Heq).
  set (d := Zdigits2 mx) in *.
  set (e1 := Z.max ex (fexp prec emax (d + ex))) in *.
  set (e2 := Z.max e1 (fexp prec emax (Zdigits2 mr + e1))) in *.
  pose proof (Zdigits2_bounds mx Hmx) as [_ Hhi]. fold d in Hhi.
  pose proof (Zdigits2_pos mx Hmx) as Hd. fold d in Hd.
  assert (He1 : ex <= e1) by (subst e1; lia).
  assert (Hbound : e2 <= Z.max ex (Z.max (d + ex + 1 - prec) (emin prec emax))).
  { destruct (Z.le_gt_cases (e1 - ex) d) as [Hle|Hgt].
    - assert (Hm1 : mx / 2 ^ (e1 - ex) < 2 ^ (d - (e1 - ex))) by (apply div_pow2_lt; lia).
      assert (Hm10 : 0 <= mx / 2 ^ (e1 - ex)) by (apply div_pow2_nonneg; lia).
      assert (Hdr : Zdigits2 mr <= d - (e1 - ex) + 1).
      { apply Zdigits2_le; [lia|]. rewrite Z.pow_add_r by lia. simpl (2 ^ 1). lia. }
      subst e2 e1. unfold fexp in *. lia.
    - assert (Hm1 : mx / 2 ^ (e1 - ex) = 0).
      { apply Z.div_small. split; [lia|].
        eapply Z.lt_le_trans; [exact Hhi|]. apply Z.pow_le_mono_r; lia. }
      assert (Hdr : Zdigits2 mr <= 1).
      { apply Zdigits2_le; [lia|]. simpl (2 ^ 1). lia. }
      subst e2 e1. unfold fexp in *. lia. }
  rewrite Hinf in Heq. cbv zeta in Heq.
  destruct (mr / 2 ^ (e2 - e1)) as [|m'|m']; try discriminate.
  destruct (Z.leb_spec e2 (emax - prec)); [discriminate|lia].
Qed.

(** *** Alignment to a smaller exponent *)

Lemma iter_xO_spec (m d : positive) : Zpos (Pos.iter xO m d) = Zpos m * 2 ^ Zpos d.
Proof.
  induction d as [|d IH] using Pos.peano_ind.
  - simpl. lia.
  - rewrite Pos.iter_succ, Pos2Z.inj_xO, IH, Pos2Z.inj_succ, Z.pow_succ_r by lia. lia.
Qed.

Lemma digits_iter_xO (m d : positive) :
  Zpos (digits2_pos (Pos.iter xO m d)) = Zpos (digits2_pos m) + Zpos d.
Proof.
  induction d as [|d IH] using Pos.peano_ind.
  - simpl. lia.
  - rewrite Pos.iter_succ. simpl digits2_pos. rewrite Pos2Z.inj_succ, IH. lia.
Qed.

Lemma shl_align_spec (mx : positive) (ex e' : Z) :
  snd (shl_align mx ex e') = Z.min ex e' /\
  Zpos (fst (shl_align mx ex e')) = Zpos mx * 2 ^ (ex - Z.min ex e') /\
  Zpos (digits2_pos (fst (shl_align mx ex e'))) + Z.min ex e'
  = Zpos (digits2_pos mx) + ex.
Proof.
  unfold shl_align. destruct (e' - ex) as [|d|d] eqn:E; simpl.
  - rewrite Z.min_l by lia. rewrite Z.sub_diag. simpl. lia.
  - rewrite Z.min_l by lia. rewrite Z.sub_diag. simpl. lia.
  - rewrite Z.min_r by lia. rewrite iter_xO_spec, digits_iter_xO.
    replace (ex - e') with (Zpos d) by lia. lia.
Qed.

(** *** [binary_round] and [binary_normalize] *)

Lemma binary_round_rounded (prec emax : Z) (sx : bool) (mx : positive) (ex : Z) :
  rounded prec emax sx (binary_round prec emax sx mx ex).
Proof.
  unfold binary_round.
  destruct (shl_align mx ex (fexp prec emax (Zpos (digits2_pos mx) + ex))) as [mz ez].
  apply binary_round_aux_rounded. lia.
Qed.

Lemma binary_round_nonzero (prec emax : Z) (sx : bool) (mx : positive) (ex : Z) (s : bool) :
  0 < prec -> emin prec emax <= ex ->
  binary_round prec emax sx mx ex <> S754_zero s.
Proof.
  intros Hp Hex. unfold binary_round.
  pose proof (shl_align_spec mx ex (fexp prec emax (Zpos (digits2_pos mx) + ex)))
    as (He & _ & _).
  destruct (shl_align mx ex (fexp prec emax (Zpos (digits2_pos mx) + ex))) as [mz ez].
  simpl in He. apply binary_round_aux_nonzero; [done|lia|].
  pose proof (fexp_ge_emin prec emax (Zpos (digits2_pos mx) + ex)). lia.
Qed.

Lemma binary_round_finite (prec emax : Z) (sx : bool) (mx : positive) (ex : Z) :
  0 < prec -> emin prec emax <= ex <= emax - prec ->
  Zpos (digits2_pos mx) + ex < emax ->
  exists m e, binary_round prec emax sx mx ex = S754_finite sx m e.
Proof.
  intros Hp Hex Hd.
  pose proof (binary_round_rounded prec emax sx mx ex) as Hr.
  pose proof (binary_round_nonzero prec emax sx mx ex) as Hz.
  assert (Hi : forall s, binary_round prec emax sx mx ex <> S754_infinity s).
  { intros s. unfold binary_round.
    pose proof (shl_align_spec mx ex (fexp prec emax (Zpos (digits2_pos mx) + ex)))
      as (He & _ & Hdig).
    destruct (shl_align mx ex (fexp prec emax (Zpos (digits2_pos mx) + ex))) as [mz ez].
    simpl in He, Hdig. apply binary_round_aux_not_infinity; [done|lia|].
    simpl Zdigits2. subst ez. lia. }
  destruct (binary_round prec emax sx mx ex) as [s|s| |s m e]; simpl in Hr.
  - by destruct (Hz s Hp (proj1 Hex)).
  - by destruct (Hi s).
  - done.
  - destruct Hr as [-> _]. eauto.
Qed.

Lemma binary_round_at_most_one (prec emax : Z) (mx : positive) (ex : Z) :
  0 < prec -> emin prec emax <= - prec -> 1 - prec <= emax - prec ->
  Zpos (digits2_pos mx) + ex <= 0 ->
  at_most_one prec (binary_round prec emax false mx ex).
Proof.
  intros Hp Hemin Hemax Hd. unfold binary_round.
  pose proof (shl_align_spec mx ex (fexp prec emax (Zpos (digits2_pos mx) + ex)))
    as (He & _ & Hdig).
  destruct (shl_align mx ex (fexp prec emax (Zpos (digits2_pos mx) + ex))) as [mz ez].
  simpl in He, Hdig.
  apply binary_round_aux_at_most_one; try done; simpl Zdigits2; subst ez.
  - rewrite Hdig. lia.
  - lia.
Qed.

(** The possible results of [binary_normalize]. *)
Lemma binary_normalize_cases (prec emax z e : Z) :
  0 < prec ->
  match binary_normalize prec emax z e false with
  | S754_nan => False
  | S754_zero s => (z = 0 /\ s = false) \/ (z <> 0 /\ e < emin prec emax)
  | S754_infinity s => s = (z <? 0) /\ z <> 0
  | S754_finite s _ e' =>
      s = (z <? 0) /\ z <> 0 /\ emin prec emax <= e' <= emax - prec
  end.
Proof.
  intros Hp. destruct z as [|p|p]; simpl.
  - by left.
  - pose proof (binary_round_rounded prec emax false p e) as Hr.
    pose proof (binary_round_nonzero prec emax false p e) as Hz.
    destruct (binary_round prec emax false p e) as [s|s| |s m e']; simpl in Hr; try done.
    + right. split; [done|]. destruct (Z.lt_ge_cases e (emin prec emax)); [done|].
      by destruct (Hz s Hp).
    + destruct Hr as [-> Hr]. done.
  - pose proof (binary_round_rounded prec emax true p e) as Hr.
    pose proof (binary_round_nonzero prec emax true p e) as Hz.
    destruct (binary_round prec emax true p e) as [s|s| |s m e']; simpl in Hr; try done.
    + right. split; [done|]. destruct (Z.lt_ge_cases e (emin prec emax)); [done|].
      by destruct (Hz s Hp).
    + destruct Hr as [-> Hr]. done.
Qed.

(** *** Multiplication commutes *)

Lemma SFmul_comm (prec emax : Z) (x y : spec_float) :
  SFmul prec emax x y = SFmul prec emax y x.
Proof.
  destruct x as [sx|sx| |sx mx ex], y as [sy|sy| |sy my ey]; simpl;
    try done; try by rewrite xorb_comm.
  by rewrite xorb_comm, Pos.mul_comm, Z.add_comm.
Qed.

(** ** Facts on binary32 operations *)

Lemma F32_prec_pos : 0 < F32.prec.
Proof. done. Qed.

Lemma nonneg_rounded (x : f32) : rounded F32.prec F32.emax false x -> nonneg x = true.
Proof. destruct x as [[]|[]| |[] m e]; simpl; try done; by intros []. Qed.

Lemma F32_add_nonneg (x y : f32) :
  nonneg x = true -> nonneg y = true -> nonneg (F32.add x y) = true.
Proof.
  destruct x as [[]|[]| |[] mx ex], y as [[]|[]| |[] my ey]; simpl; try done.
  intros _ _. apply nonneg_rounded. apply binary_round_rounded.
Qed.

Lemma SFdiv_core_binary_nonneg (prec emax : Z) (m1 : positive) (e1 : Z)
    (m2 : positive) (e2 : Z) :
  0 <= fst (fst (SFdiv_core_binary prec emax (Zpos m1) e1 (Zpos m2) e2)).
Proof.
  unfold SFdiv_core_binary.
  set (s := _ - _ - _).
  set (m' := match s with Zpos _ => Z.shiftl (Zpos m1) s | Z0 => Zpos m1 | Zneg _ => 0 end).
  assert (Hm' : 0 <= m').
  { subst m'. destruct s; try lia. apply Z.shiftl_nonneg. lia. }
  pose proof (Z_div_mod m' (Zpos m2) ltac:(lia)) as Hdm.
  destruct (Z.div_eucl m' (Zpos m2)) as [q r]. simpl. nia.
Qed.

Lemma F32_div_rounded (sx sy : bool) (mx my : positive) (ex ey : Z) :
  rounded F32.prec F32.emax (xorb sx sy)
    (F32.div (S754_finite sx mx ex) (S754_finite sy my ey)).
Proof.
  unfold F32.div. simpl.
  pose proof (SFdiv_core_binary_nonneg F32.prec F32.emax mx ex my ey) as Hq.
  destruct (SFdiv_core_binary F32.prec F32.emax (Zpos mx) ex (Zpos my) ey) as [[q e] l].
  by apply binary_round_aux_rounded.
Qed.

Lemma F32_div_nonneg (x : f32) (my : positive) (ey : Z) :
  nonneg x = true -> nonneg (F32.div x (S754_finite false my ey)) = true.
Proof.
  destruct x as [[]|[]| |[] mx ex]; try done. intros _.
  apply nonneg_rounded. apply (F32_div_rounded false false).
Qed.

(** Conversion of a positive [int] gives a positive finite [float]. *)
Lemma F32_of_Z_finite (n : Z) :
  0 < n < 2 ^ 31 -> exists m e, F32.of_Z n = S754_finite false m e.
Proof.
  intros [Hn0 Hn]. destruct n as [|p|p]; try lia.
  unfold F32.of_Z. simpl binary_normalize.
  apply binary_round_finite; try done.
  assert (Zdigits2 (Zpos p) <= 31) by (apply Zdigits2_le; lia).
  simpl Zdigits2 in *. unfold F32.emax. lia.
Qed.

(** [1.0f - y] does not exceed [1.0f] when [y] is not negative. *)
Lemma F32_sub_one_le (y : f32) :
  nonneg y = true -> F32.leb (F32.sub F32.one y) F32.one = true.
Proof.
  destruct y as [[]|[]| |[] my ey]; try done. intros _.
  unfold F32.sub, F32.one. simpl SFsub.
  set (ez := Z.min (-23) ey).
  pose proof (shl_align_spec 8388608 (-23) ez) as (_ & H1 & _).
  pose proof (shl_align_spec my ey ez) as (_ & H2 & _).
  rewrite H1, H2.
  replace (Z.min (-23) ez) with ez by (subst ez; lia).
  replace (Z.min ey ez) with ez by (subst ez; lia).
  assert (Hone : 8388608 * 2 ^ (-23 - ez) = 2 ^ (- ez)).
  { change 8388608 with (2 ^ 23). rewrite <- Z.pow_add_r by (subst ez; lia).
    f_equal. lia. }
  rewrite Hone.
  assert (Hy : 0 < Zpos my * 2 ^ (ey - ez)).
  { apply Z.mul_pos_pos; [lia|]. apply Z.pow_pos_nonneg; subst ez; lia. }
  set (z := 2 ^ (- ez) - Zpos my * 2 ^ (ey - ez)).
  assert (Hz : z < 2 ^ (- ez)) by (subst z; lia).
  destruct z as [|p|p] eqn:E; simpl binary_normalize.
  - done.
  - assert (Hd : Zdigits2 (Zpos p) <= - ez) by (apply Zdigits2_le; subst ez; lia).
    simpl Zdigits2 in Hd.
    pose proof (binary_round_at_most_one F32.prec F32.emax p ez) as Hr.
    specialize (Hr ltac:(done) ltac:(done) ltac:(done) ltac:(lia)).
    destruct (binary_round F32.prec F32.emax false p ez) as [[]|[]| |[] m e];
      simpl in Hr; try done; try reflexivity.
    unfold F32.leb, SFleb, SFcompare.
    destruct Hr as [Hlt|[-> Hm]].
    + assert ((e ?= -23) = Lt) as ->; [|done].
      apply Z.compare_lt_iff. unfold F32.prec in Hlt. lia.
    + assert (m = 8388608%positive) as ->.
      { unfold F32.prec in Hm. change (2 ^ (24 - 1)) with 8388608 in Hm. lia. }
      reflexivity.
  - pose proof (binary_round_rounded F32.prec F32.emax true p ez) as Hr.
    destruct (binary_round F32.prec F32.emax true p ez) as [s|s| |s m e];
      simpl in Hr; try done; subst; try reflexivity.
    by destruct Hr as [-> _].
Qed.

(** ** Cosine similarity is symmetric *)

Lemma F32_mul_comm (x y : f32) : F32.mul x y = F32.mul y x.
Proof. apply SFmul_comm. Qed.

Lemma cos_loop_swap (vec1 vec2 : list f32) (a : cos_acc) :
  cos_loop vec2 vec1 (cos_swap a) = cos_swap (cos_loop vec1 vec2 a).
Proof.
  revert vec2 a. induction vec1 as [|x vec1 IH]; intros [|y vec2] a; simpl; try done.
  rewrite <- IH. f_equal. unfold cos_swap, cos_step. simpl.
  by rewrite (F32_mul_comm y x).
Qed.

Lemma cos_sums_swap (vec1 vec2 : list f32) :
  cos_sums vec2 vec1 = cos_swap (cos_sums vec1 vec2).
Proof. unfold cos_sums. by rewrite <- cos_loop_swap. Qed.

Lemma cosineSimilarity_sym (vec1 vec2 : list f32) :
  cosineSimilarity vec1 vec2 = cosineSimilarity vec2 vec1.
Proof.
  unfold cosineSimilarity. rewrite (Nat.eqb_sym (length vec2)).
  destruct (length vec1 =? length vec2)%nat; simpl; [|done].
  rewrite (cos_sums_swap vec1 vec2). simpl.
  by rewrite (F32_mul_comm (F32.sqrt (norm2 (cos_sums vec1 vec2)))).
Qed.

Lemma dtw_cost_sym (seq1 seq2 : list (list f32)) (i j : nat) :
  dtw_cost seq2 seq1 j i = dtw_cost seq1 seq2 i j.
Proof. unfold dtw_cost. by rewrite cosineSimilarity_sym. Qed.

(** ** The table under non-negative step costs *)

Lemma min3_cases (a b c : f32) : min3 a b c = a \/ min3 a b c = b \/ min3 a b c = c.
Proof.
  unfold min3. destruct (F32.ltb b a).
  - destruct (F32.ltb c b); auto.
  - destruct (F32.ltb c a); auto.
Qed.

Lemma min3_nonneg (a b c : f32) :
  nonneg a = true -> nonneg b = true -> nonneg c = true -> nonneg (min3 a b c) = true.
Proof. intros. destruct (min3_cases a b c) as [->|[->| ->]]; done. Qed.

Lemma dtw_boundary_nonneg (i j : nat) : nonneg (dtw_boundary i j) = true.
Proof. by destruct i, j. Qed.

Lemma dtw_rec_nonneg (seq1 seq2 : list (list f32)) :
  (forall i j, (1 <= i <= length seq1)%nat -> (1 <= j <= length seq2)%nat ->
     nonneg (dtw_cost seq1 seq2 i j) = true) ->
  forall i j, (i <= length seq1)%nat -> (j <= length seq2)%nat ->
    nonneg (dtw_rec seq1 seq2 i j) = true.
Proof.
  intros Hcost. induction i as [|i IHi]; intros j Hi Hj.
  - rewrite dtw_rec_row0. apply dtw_boundary_nonneg.
  - induction j as [|j IHj].
    + rewrite dtw_rec_col0. apply dtw_boundary_nonneg.
    + rewrite dtw_rec_step by lia.
      replace (S i - 1)%nat with i by lia. replace (S j - 1)%nat with j by lia.
      apply F32_add_nonneg; [apply Hcost; lia|].
      apply min3_nonneg; [apply IHi; lia|apply IHj; lia|apply IHi; lia].
Qed.



(** ** The table when every step cost is finite *)

Lemma SFcompare_antisym (a b : spec_float) :
  SFcompare b a = option_map CompOpp (SFcompare a b).
Proof.
  destruct a as [[]|[]| |[] ma ea], b as [[]|[]| |[] mb eb]; simpl; try done.
  - rewrite (Z.compare_antisym ea eb).
    destruct (ea ?= eb); simpl; try done.
    by rewrite (Pos.compare_cont_antisym ma mb Eq).
  - rewrite (Z.compare_antisym ea eb).
    destruct (ea ?= eb); simpl; try done.
    by rewrite (Pos.compare_cont_antisym ma mb Eq).
Qed.

(** Values of the table that compare equal are identical. *)
Lemma SFcompare_proper_eq (a b : f32) :
  proper a -> proper b -> SFcompare a b = Some Eq -> a = b.
Proof.
  destruct a as [sa|[]| |[] ma ea], b as [sb|[]| |[] mb eb]; simpl; try done.
  - by intros -> ->.
  - intros _ _. destruct (Z.compare_spec ea eb) as [->| |]; try done.
    intros [= H]. apply CompOpp_iff in H. simpl in H.
    apply Pos.compare_eq in H. by subst.
  - intros _ _. destruct (Z.compare_spec ea eb) as [->| |]; try done.
    intros [= H]. apply Pos.compare_eq in H. by subst.
Qed.

Lemma SFcompare_proper (a b : f32) :
  proper a -> proper b -> is_Some (SFcompare a b).
Proof. destruct a as [|[]| |[]], b as [|[]| |[]]; simpl; by eauto. Qed.

Lemma min3_sym (a b c : f32) :
  proper a -> proper b -> min3 a b c = min3 b a c.
Proof.
  intros Ha Hb. unfold min3, F32.ltb, SFltb.
  rewrite (SFcompare_antisym b a).
  destruct (SFcompare_proper b a Hb Ha) as [o Ho].
  destruct o; rewrite Ho; simpl; try done.
  by rewrite (SFcompare_proper_eq b a Hb Ha Ho).
Qed.

Lemma min3_proper (a b c : f32) :
  proper a -> proper b -> proper c -> proper (min3 a b c).
Proof. intros. destruct (min3_cases a b c) as [->|[->| ->]]; done. Qed.

(** A finite result of [cosineSimilarity] has an exponent of the format. *)
Lemma cosineSimilarity_exponent (vec1 vec2 : list f32) :
  match cosineSimilarity vec1 vec2 with
  | S754_finite _ _ e => emin F32.prec F32.emax <= e
  | _ => True
  end.
Proof.
  unfold cosineSimilarity.
  destruct (negb (length vec1 =? length vec2)%nat); [done|]. simpl.
  destruct (F32.eqb _ F32.zero); [done|].
  set (d := dot _). set (n := F32.mul _ _).
  destruct d as [sd|sd| |sd md ed], n as [sn|sn| |sn mn en]; try done.
  pose proof (F32_div_rounded sd sn md mn ed en) as Hr.
  destruct (F32.div _ _); try done. simpl in Hr. lia.
Qed.

Lemma dtw_cost_proper (seq1 seq2 : list (list f32)) (i j : nat) :
  is_finite (dtw_cost seq1 seq2 i j) = true -> proper (dtw_cost seq1 seq2 i j).
Proof.
  unfold dtw_cost.
  pose proof (cosineSimilarity_exponent (nth_v seq1 (i - 1)) (nth_v seq2 (j - 1))) as Hc.
  destruct (cosineSimilarity _ _) as [sc|sc| |sc mc ec]; try done.
  unfold F32.sub, F32.one. simpl SFsub.
  set (z := _ - _). set (ez := Z.min (-23) ec).
  pose proof (binary_normalize_cases F32.prec F32.emax z ez F32_prec_pos) as Hn.
  destruct (binary_normalize F32.prec F32.emax z ez false) as [s|s| |s m e];
    try done; intros _; simpl.
  - destruct Hn as [[_ ->]|[_ Hlt]]; [done|].
    exfalso. subst ez. unfold emin, F32.prec, F32.emax in *. lia.
  - lia.
Qed.

Lemma F32_add_proper (x y : f32) :
  is_finite x = true -> proper x -> proper y -> proper (F32.add x y).
Proof.
  destruct x as [sx|sx| |sx mx ex], y as [sy|sy| |sy my ey]; simpl; try done.
  - by intros _ -> ->.
  - intros _ Hx Hy. unfold F32.add. simpl SFadd.
    set (z := _ + _). set (ez := Z.min ex ey).
    pose proof (binary_normalize_cases F32.prec F32.emax z ez F32_prec_pos) as Hn.
    destruct (binary_normalize F32.prec F32.emax z ez false) as [s|s| |s m e];
      try done; simpl.
    + destruct Hn as [[_ ->]|[_ Hlt]]; [done|]. subst ez. lia.
    + lia.
Qed.

Lemma dtw_boundary_proper (i j : nat) : proper (dtw_boundary i j).
Proof. by destruct i, j. Qed.

Lemma dtw_rec_proper (seq1 seq2 : list (list f32)) :
  (forall i j, (1 <= i <= length seq1)%nat -> (1 <= j <= length seq2)%nat ->
     is_finite (dtw_cost seq1 seq2 i j) = true) ->
  forall i j, (i <= length seq1)%nat -> (j <= length seq2)%nat ->
    proper (dtw_rec seq1 seq2 i j).
Proof.
  intros Hcost. induction i as [|i IHi]; intros j Hi Hj.
  - rewrite dtw_rec_row0. apply dtw_boundary_proper.
  - induction j as [|j IHj].
    + rewrite dtw_rec_col0. apply dtw_boundary_proper.
    + rewrite dtw_rec_step by lia.
      replace (S i - 1)%nat with i by lia. replace (S j - 1)%nat with j by lia.
      apply F32_add_proper; [apply Hcost; lia|apply dtw_cost_proper, Hcost; lia|].
      apply min3_proper; [apply IHi; lia|apply IHj; lia|apply IHi; lia].
Qed.

Lemma dtw_boundary_sym (i j : nat) : dtw_boundary j i = dtw_boundary i j.
Proof. by destruct i, j. Qed.

(** Exchanging the two sequences transposes the table. *)
Lemma dtw_rec_transpose (seq1 seq2 : list (list f32)) :
  (forall i j, (1 <= i <= length seq1)%nat -> (1 <= j <= length seq2)%nat ->
     is_finite (dtw_cost seq1 seq2 i j) = true) ->
  forall i j, (i <= length seq1)%nat -> (j <= length seq2)%nat ->
    dtw_rec seq2 seq1 j i = dtw_rec seq1 seq2 i j.
Proof.
  intros Hcost. induction i as [|i IHi]; intros j Hi Hj.
  - rewrite dtw_rec_row0, dtw_rec_col0. apply dtw_boundary_sym.
  - induction j as [|j IHj].
    + rewrite dtw_rec_row0, dtw_rec_col0. apply dtw_boundary_sym.
    + rewrite (dtw_rec_step seq1 seq2) by lia.
      rewrite (dtw_rec_step seq2 seq1) by lia.
      replace (S i - 1)%nat with i by lia. replace (S j - 1)%nat with j by lia.
      rewrite dtw_cost_sym. f_equal.
      rewrite (IHi (S j)), IHj, (IHi j) by lia.
      apply min3_sym; apply dtw_rec_proper; try done; lia.
Qed.

(** ** Results on [computeDTW] *)


Lemma computeDTW_table (seq1 seq2 : list (list f32)) :
  computeDTW seq1 seq2
  = F32.sub F32.one
      (F32.div (dtw_rec seq1 seq2 (length seq1) (length seq2))
         (F32.of_Z (Z.of_nat (length seq1) + Z.of_nat (length seq2)))).
Proof. unfold computeDTW. by rewrite dtw_table_rec. Qed.

Lemma length_pos_Z {A : Type} (l : list A) : l <> [] -> 0 < Z.of_nat (length l).
Proof. destruct l; [done|]. simpl. lia. Qed.

(** A sequence of one vector against itself: one cell. *)
Lemma dtw_rec_single (v : list f32) :
  dtw_rec [v] [v] 1 1
  = F32.add (F32.sub F32.one (cosineSimilarity v v)) F32.zero.
Proof. done. Qed.

(** The step costs of a sequence against itself, from the pairwise costs. *)
Lemma dtw_cost_lookup (seq1 seq2 : list (list f32)) (i j : nat) :
  (1 <= i <= length seq1)%nat -> (1 <= j <= length seq2)%nat ->
  exists u v, u ∈ seq1 /\ v ∈ seq2 /\
    dtw_cost seq1 seq2 i j = F32.sub F32.one (cosineSimilarity u v).
Proof.
  intros Hi Hj.
  destruct (lookup_lt_is_Some_2 seq1 (i - 1)) as [u Hu]; [lia|].
  destruct (lookup_lt_is_Some_2 seq2 (j - 1)) as [v Hv]; [lia|].
  exists u, v. split; [by eapply list_elem_of_lookup_2|].
  split; [by eapply list_elem_of_lookup_2|].
  unfold dtw_cost, nth_v. by rewrite Hu, Hv.
Qed.

(** * The claims *)

(** ** C1 *)

(** C1. For non-empty feature sequences [seq1] and [seq2], [computeDTW]
    returns [1 - dp[len1][len2] / (len1 + len2)], where [dp] is the
    [(len1+1) x (len2+1)] table left by the loops: [dp[0][0] = 0], every
    other cell of row 0 and column 0 is [+infinity], and for
    [1 <= i <= len1], [1 <= j <= len2],
    [dp[i][j] = (1 - cosineSimilarity(seq1[i-1], seq2[j-1]))
                + min(dp[i-1][j], dp[i][j-1], dp[i-1][j-1])]. *)
Theorem computeDTW_recurrence (seq1 seq2 : list (list f32)) :
  seq1 <> [] -> seq2 <> [] ->
  let len1 := length seq1 in
  let len2 := length seq2 in
  let dp := dtw_table seq1 seq2 in
  table_dims (len1 + 1) (len2 + 1) dp /\
  at2 dp 0 0 = F32.zero /\
  (forall j, (1 <= j <= len2)%nat -> at2 dp 0 j = F32.infinity) /\
  (forall i, (1 <= i <= len1)%nat -> at2 dp i 0 = F32.infinity) /\
  (forall i j, (1 <= i <= len1)%nat -> (1 <= j <= len2)%nat ->
     at2 dp i j
     = F32.add
         (F32.sub F32.one (cosineSimilarity (nth_v seq1 (i - 1)) (nth_v seq2 (j - 1))))
         (min3 (at2 dp (i - 1) j) (at2 dp i (j - 1)) (at2 dp (i - 1) (j - 1)))) /\
  computeDTW seq1 seq2
  = F32.sub F32.one
      (F32.div (at2 dp len1 len2) (F32.of_Z (Z.of_nat len1 + Z.of_nat len2))).
Proof.
  intros _ _ len1 len2 dp. subst len1 len2 dp.
  split; [apply dtw_table_dims|].
  split; [by rewrite dtw_table_boundary by (lia || auto)|].
  split.
  { intros j Hj. rewrite dtw_table_boundary by (lia || auto). by destruct j; [lia|]. }
  split.
  { intros i Hi. rewrite dtw_table_boundary by (lia || auto). by destruct i; [lia|]. }
  split; [|done].
  intros i j Hi Hj. by apply dtw_table_step.
Qed.

Lemma computeDTW_recurrence_witness :
  let seq1 := [[F32.of_Z 1; F32.of_Z 2]; [F32.of_Z 3; F32.of_Z (-1)]] in
  let seq2 := [[F32.of_Z 2; F32.of_Z 2]; [F32.of_Z 0; F32.of_Z 5]; [F32.of_Z 1; F32.of_Z 1]] in
  (seq1 <> [] /\ seq2 <> []) /\
  computeDTW seq1 seq2
  = F32.sub F32.one (F32.div (at2 (dtw_table seq1 seq2) 2 3) (F32.of_Z 5)).
Proof.
  intros seq1 seq2.
  assert (H1 : seq1 <> []) by (subst seq1; discriminate).
  assert (H2 : seq2 <> []) by (subst seq2; discriminate).
  split; [by split|].
  exact (proj2 (proj2 (proj2 (proj2 (proj2 (computeDTW_recurrence seq1 seq2 H1 H2)))))).
Defined.

(** ** C10 *)

(** C10. If exactly one of the two sequences is empty, the result is a
    defined value: [dp[len1][len2]] is [+infinity], the divisor
    [len1 + len2] is not zero and the score is [-infinity].  The divisor is
    zero only when both sequences are empty; the quotient is then [0/0]. *)
Theorem computeDTW_empty (seq1 seq2 : list (list f32)) :
  Z.of_nat (length seq1) + Z.of_nat (length seq2) < 2 ^ 31 ->
  let total := F32.of_Z (Z.of_nat (length seq1) + Z.of_nat (length seq2)) in
  (F32.eqb total F32.zero = true <-> seq1 = [] /\ seq2 = []) /\
  ((seq1 = [] /\ seq2 <> []) \/ (seq1 <> [] /\ seq2 = []) ->
   at2 (dtw_table seq1 seq2) (length seq1) (length seq2) = F32.infinity /\
   computeDTW seq1 seq2 = S754_infinity true) /\
  (seq1 = [] /\ seq2 = [] -> computeDTW seq1 seq2 = S754_nan).
Proof.
  intros Hlen total. subst total.
  assert (Hnz : seq1 <> [] \/ seq2 <> [] ->
    exists m e, F32.of_Z (Z.of_nat (length seq1) + Z.of_nat (length seq2))
                = S754_finite false m e).
  { intros H. apply F32_of_Z_finite.
    destruct H as [H|H]; apply length_pos_Z in H; lia. }
  split; [split|split].
  - intros Hz. destruct seq1 as [|v1 seq1]; [destruct seq2 as [|v2 seq2]; [done|]|].
    + destruct Hnz as (m & e & Hof); [by right|]. by rewrite Hof in Hz.
    + destruct Hnz as (m & e & Hof); [by left|]. by rewrite Hof in Hz.
  - by intros [-> ->].
  - intros H.
    assert (Hb : dtw_rec seq1 seq2 (length seq1) (length seq2) = F32.infinity).
    { destruct H as [[-> H]|[H ->]]; simpl length.
      - rewrite dtw_rec_row0. destruct seq2; done.
      - rewrite dtw_rec_col0. destruct seq1; done. }
    destruct Hnz as (m & e & Hof); [tauto|].
    split; [by rewrite dtw_table_rec|].
    by rewrite computeDTW_table, Hb, Hof.
  - by intros [-> ->].
Qed.

Lemma computeDTW_empty_witness :
  let seq := [[F32.of_Z 1; F32.of_Z 2]; [F32.of_Z 3; F32.of_Z 4]] in
  Z.of_nat (@length (list f32) []) + Z.of_nat (length seq) < 2 ^ 31 /\
  at2 (dtw_table [] seq) 0 2 = F32.infinity /\
  computeDTW [] seq = S754_infinity true.
Proof.
  intros seq.
  assert (H : Z.of_nat (@length (list f32) []) + Z.of_nat (length seq) < 2 ^ 31)
    by (subst seq; simpl; lia).
  split; [exact H|].
  apply (proj1 (proj2 (computeDTW_empty [] seq H))).
  left. split; [reflexivity|subst seq; discriminate].
Defined.

(** ** C4 *)




(** ** C5 *)

(** C5 (as amended). For non-empty sequences whose step costs
    [1 - cosineSimilarity(seq1[i-1], seq2[j-1])] are all finite (neither
    NaN nor an infinity), [computeDTW(seq1, seq2) = computeDTW(seq2, seq1)]. *)
Theorem computeDTW_sym (seq1 seq2 : list (list f32)) :
  seq1 <> [] -> seq2 <> [] ->
  (forall i j, (1 <= i <= length seq1)%nat -> (1 <= j <= length seq2)%nat ->
     is_finite (dtw_cost seq1 seq2 i j) = true) ->
  computeDTW seq1 seq2 = computeDTW seq2 seq1.
Proof.
  intros _ _ Hcost. rewrite !computeDTW_table.
  rewrite (dtw_rec_transpose seq1 seq2 Hcost) by lia.
  by rewrite Z.add_comm.
Qed.

Lemma computeDTW_sym_witness :
  let seq1 := [[F32.of_Z 1; F32.of_Z 2]; [F32.of_Z 3; F32.of_Z (-1)]] in
  let seq2 := [[F32.of_Z 2; F32.of_Z 2]] in
  (seq1 <> [] /\ seq2 <> []) /\ computeDTW seq1 seq2 = computeDTW seq2 seq1.
Proof.
  intros seq1 seq2.
  assert (H1 : seq1 <> []) by (subst seq1; discriminate).
  assert (H2 : seq2 <> []) by (subst seq2; discriminate).
  split; [by split|].
  apply (computeDTW_sym seq1 seq2 H1 H2).
  intros i j Hi Hj. subst seq1 seq2. simpl in Hi, Hj.
  assert (i = 1 \/ i = 2)%nat as [-> | ->] by lia;
    assert (j = 1)%nat as -> by lia; vm_compute; reflexivity.
Defined.

(** C5 fails as stated: with [u = (2^64)] the squared norm overflows, the
    similarity of [u] with itself is NaN, and [std::min] keeps a NaN only
    when it comes first. *)
Lemma computeDTW_sym_counterexample :
  let u := [F32.of_Z (2 ^ 64)] in
  let v := [F32.one] in
  computeDTW [u; v] [u] = S754_nan /\
  computeDTW [u] [u; v] = S754_infinity true /\
  computeDTW [u; v] [u] <> computeDTW [u] [u; v].
Proof. vm_compute. repeat split; discriminate. Qed.

(** ** C6 *)

(** C6 (as amended). For non-empty sequences (of total length within
    [int]) whose step costs are all non-negative, [dp[len1][len2]] is
    non-negative and the score does not exceed 1.  The score can be
    negative. *)
Theorem computeDTW_at_most_one (seq1 seq2 : list (list f32)) :
  seq1 <> [] -> seq2 <> [] ->
  Z.of_nat (length seq1) + Z.of_nat (length seq2) < 2 ^ 31 ->
  (forall i j, (1 <= i <= length seq1)%nat -> (1 <= j <= length seq2)%nat ->
     nonneg (dtw_cost seq1 seq2 i j) = true) ->
  (nonneg (at2 (dtw_table seq1 seq2) (length seq1) (length seq2)) = true /\
   F32.leb (computeDTW seq1 seq2) F32.one = true) /\
  (exists s1 s2 : list (list f32),
     s1 <> [] /\ s2 <> [] /\
     (forall i j, (1 <= i <= length s1)%nat -> (1 <= j <= length s2)%nat ->
        nonneg (dtw_cost s1 s2 i j) = true) /\
     F32.ltb (computeDTW s1 s2) F32.zero = true).
Proof.
  intros Hne1 Hne2 Hlen Hcost. split.
  - assert (Hnn : nonneg (dtw_rec seq1 seq2 (length seq1) (length seq2)) = true)
      by (by apply dtw_rec_nonneg).
    split; [by rewrite dtw_table_rec|].
    rewrite computeDTW_table.
    pose proof (length_pos_Z seq1 Hne1).
    destruct (F32_of_Z_finite (Z.of_nat (length seq1) + Z.of_nat (length seq2))
                ltac:(lia)) as (m & e & ->).
    apply F32_sub_one_le. by apply F32_div_nonneg.
  - exists [[F32.one]], [[F32.of_Z (-1)]; [F32.of_Z (-1)]; [F32.of_Z (-1)]].
    split; [done|]. split; [done|]. split; [|vm_compute; reflexivity].
    intros i j Hi Hj. simpl in Hi, Hj.
    assert (i = 1)%nat as -> by lia.
    assert (j = 1 \/ j = 2 \/ j = 3)%nat as [-> |[-> | ->]] by lia;
      vm_compute; reflexivity.
Qed.

Lemma computeDTW_at_most_one_witness :
  let seq1 := [[F32.of_Z 1; F32.of_Z 2]; [F32.of_Z 3; F32.of_Z (-1)]] in
  let seq2 := [[F32.of_Z 2; F32.of_Z 2]] in
  (seq1 <> [] /\ seq2 <> [] /\
   Z.of_nat (length seq1) + Z.of_nat (length seq2) < 2 ^ 31) /\
  F32.leb (computeDTW seq1 seq2) F32.one = true.
Proof.
  intros seq1 seq2.
  assert (H1 : seq1 <> []) by (subst seq1; discriminate).
  assert (H2 : seq2 <> []) by (subst seq2; discriminate).
  assert (H3 : Z.of_nat (length seq1) + Z.of_nat (length seq2) < 2 ^ 31)
    by (subst seq1 seq2; simpl; lia).
  split; [by repeat split|].
  apply (computeDTW_at_most_one seq1 seq2 H1 H2 H3).
  intros i j Hi Hj. subst seq1 seq2. simpl in Hi, Hj.
  assert (i = 1 \/ i = 2)%nat as [-> | ->] by lia;
    assert (j = 1)%nat as -> by lia; vm_compute; reflexivity.
Defined.

(** C6 fails as stated.  For [a = (7.5, 3.2)] and [b = (75, 32)], which are
    parallel up to the rounding of 3.2, the computed similarity is
    [1 + 2^-22], the step cost is negative and the score is [1 + 2^-23].
    For [a = (1.5 * 2^-75)] and [b = (2^60)] the square of [a] underflows,
    the similarity is about 1.06 and the score about 1.03. *)
Lemma computeDTW_at_most_one_counterexample :
  (let a := [S754_finite false 15728640 (-21); S754_finite false 13421773 (-22)] in
   let b := [F32.of_Z 75; F32.of_Z 32] in
   cosineSimilarity a b = S754_finite false 8388610 (-23) /\
   nonneg (dtw_cost [a] [b] 1 1) = false /\
   computeDTW [a] [b] = S754_finite false 8388609 (-23) /\
   F32.leb (computeDTW [a] [b]) F32.one = false) /\
  (let a := [S754_finite false 12582912 (-98)] in
   let b := [S754_finite false 8388608 37] in
   computeDTW [a] [b] = S754_finite false 8643036 (-23) /\
   F32.leb (computeDTW [a] [b]) F32.one = false).
Proof. vm_compute. repeat split; reflexivity. Qed.

(** ** C7 *)

Lemma cos_loop_norm1_zero (vec1 vec2 : list f32) (a : cos_acc) :
  Forall (fun x => is_zero x = true) vec1 ->
  norm1 a = F32.zero -> norm1 (cos_loop vec1 vec2 a) = F32.zero.
Proof.
  intros Hz. revert vec2 a. induction Hz as [|x vec1 Hx _ IH]; intros [|y vec2] a Ha;
    simpl; try done.
  apply IH. simpl. rewrite Ha. by destruct x as [[]| | |].
Qed.

Lemma F32_sqrt_zero (x : f32) : is_zero x = true -> is_zero (F32.sqrt x) = true.
Proof. by destruct x. Qed.

Lemma F32_mul_zero_l (x y : f32) :
  is_zero x = true -> is_finite y = true -> is_zero (F32.mul x y) = true.
Proof. by destruct x, y. Qed.

Lemma F32_eqb_zero (x : f32) : is_zero x = true -> F32.eqb x F32.zero = true.
Proof. by destruct x. Qed.

(** C7 (as amended). [cosineSimilarity] returns exactly 0 when the two
    vectors differ in dimensionality.  For vectors of one dimensionality it
    returns exactly 0 when the computed denominator
    [sqrt(norm1) * sqrt(norm2)] compares equal to 0, and the quotient of the
    dot product by that denominator in all other cases.  The denominator is
    0 whenever one of the computed squared norms is zero, as for a vector of
    zeros, and the square root of the other one is finite. *)
Theorem cosineSimilarity_cases (vec1 vec2 : list f32) :
  (length vec1 <> length vec2 -> cosineSimilarity vec1 vec2 = F32.zero) /\
  (length vec1 = length vec2 ->
   let s := cos_sums vec1 vec2 in
   (F32.eqb (cos_denom vec1 vec2) F32.zero = true ->
    cosineSimilarity vec1 vec2 = F32.zero) /\
   (F32.eqb (cos_denom vec1 vec2) F32.zero = false ->
    cosineSimilarity vec1 vec2 = F32.div (dot s) (cos_denom vec1 vec2)) /\
   (is_zero (norm1 s) = true /\ is_finite (F32.sqrt (norm2 s)) = true \/
    is_zero (norm2 s) = true /\ is_finite (F32.sqrt (norm1 s)) = true ->
    F32.eqb (cos_denom vec1 vec2) F32.zero = true) /\
   (Forall (fun x => is_zero x = true) vec1 -> is_zero (norm1 s) = true)).
Proof.
  split.
  - intros Hne. unfold cosineSimilarity.
    by replace (length vec1 =? length vec2)%nat with false
      by (symmetry; by apply Nat.eqb_neq).
  - intros Heq s. subst s. unfold cosineSimilarity, cos_denom.
    rewrite Heq, Nat.eqb_refl. simpl.
    split; [by intros ->|]. split; [by intros ->|]. split.
    + intros [[H1 H2]|[H1 H2]]; apply F32_eqb_zero.
      * apply F32_mul_zero_l; [by apply F32_sqrt_zero|done].
      * rewrite F32_mul_comm.
        apply F32_mul_zero_l; [by apply F32_sqrt_zero|done].
    + intros Hz. unfold cos_sums. by rewrite cos_loop_norm1_zero.
Qed.

Lemma cosineSimilarity_cases_witness :
  let vec1 := [F32.zero; F32.zero] in
  let vec2 := [F32.of_Z 3; F32.of_Z 4] in
  length vec1 = length vec2 /\
  cosineSimilarity vec1 vec2 = F32.zero /\
  cosineSimilarity vec2 vec2 = F32.div (dot (cos_sums vec2 vec2)) (cos_denom vec2 vec2) /\
  cosineSimilarity vec1 [F32.one] = F32.zero.
Proof.
  intros vec1 vec2.
  assert (Hlen : length vec1 = length vec2) by reflexivity.
  split; [exact Hlen|].
  pose proof (proj2 (cosineSimilarity_cases vec1 vec2) Hlen) as (H0 & _ & Hz & Hv).
  split.
  { apply H0, Hz. left. split; [apply Hv|vm_compute; reflexivity].
    subst vec1. repeat constructor. }
  split.
  { apply (proj2 (cosineSimilarity_cases vec2 vec2) eq_refl). vm_compute. reflexivity. }
  apply (proj1 (cosineSimilarity_cases vec1 [F32.one])). subst vec1. simpl. lia.
Defined.

(** C7 fails as stated: the vector [(0)] has norm zero, but against
    [(2^64)], whose squared norm overflows to [+infinity], the denominator
    is [0 * infinity], a NaN that does not compare equal to 0, and the
    result is NaN. *)
Lemma cosineSimilarity_cases_counterexample :
  let vec1 := [F32.zero] in
  let vec2 := [F32.of_Z (2 ^ 64)] in
  norm1 (cos_sums vec1 vec2) = F32.zero /\
  cos_denom vec1 vec2 = S754_nan /\
  cosineSimilarity vec1 vec2 = S754_nan /\
  cosineSimilarity vec1 vec2 <> F32.zero.
Proof. vm_compute. repeat split; discriminate. Qed.

(** ** The MFCC pipeline: loops as maps *)

(** A loop that rewrites every element in place from its own old value. *)
Lemma for_range_inplace (g : nat -> spec_float -> spec_float) (l : list spec_float) :
  for_range 0 (length l) (fun i s => <[i := g i (nth_f s i)]> s) l = imap g l.
Proof.
  set (P := fun (k : nat) (s : list spec_float) =>
              length s = length l /\
              forall p, s !! p = if (p <? k)%nat then g p <$> l !! p else l !! p).
  assert (HP : P (0 + length l)%nat
                 (for_range 0 (length l) (fun i s => <[i := g i (nth_f s i)]> s) l)).
  { apply for_range_inv.
    - split; [done|]. intros p. done.
    - intros k s Hk [Hlen Hs]. split; [by rewrite length_insert|].
      intros p. destruct (decide (p = k)) as [->|Hne].
      + rewrite list_lookup_insert_eq by lia.
        replace (k <? S k)%nat with true by (symmetry; apply Nat.ltb_lt; lia).
        unfold nth_f. rewrite Hs, Nat.ltb_irrefl.
        destruct (lookup_lt_is_Some_2 l k) as [x Hx]; [lia|]. by rewrite Hx.
      + rewrite list_lookup_insert_ne by done. rewrite Hs.
        destruct (Nat.ltb_spec p k), (Nat.ltb_spec p (S k)); try done; lia. }
  destruct HP as [Hlen Hs]. apply list_eq. intros p.
  rewrite Hs, list_lookup_imap. simpl.
  destruct (Nat.ltb_spec p (length l)) as [|Hge]; [done|].
  by rewrite (lookup_ge_None_2 l p) by lia.
Qed.

(** A loop that fills a vector of zeros, one index after the other. *)
Lemma for_range_fill (n : nat) (h : nat -> spec_float -> spec_float) (z : spec_float) :
  for_range 0 n (fun i s => <[i := h i (nth_f s i)]> s) (replicate n z)
  = map (fun i => h i z) (seq 0 n).
Proof.
  pose proof (for_range_inplace h (replicate n z)) as H.
  rewrite length_replicate in H. rewrite H. apply list_eq. intros p.
  rewrite list_lookup_imap, list_lookup_fmap.
  destruct (decide (p < n)%nat) as [Hlt|Hge].
  - rewrite lookup_replicate_2, lookup_seq_lt by done. done.
  - rewrite (lookup_ge_None_2 (replicate n z)) by (rewrite length_replicate; lia).
    rewrite lookup_seq_ge by lia. done.
Qed.

Lemma pre_emphasis_correct (signal : list f32) :
  pre_emphasis signal = pre_emphasis_map signal.
Proof.
  unfold pre_emphasis. set (n := length signal).
  set (P := fun (k : nat) (s : list f32) =>
              length s = n /\
              forall p, s !! p = if (n - k <=? p)%nat
                                 then pre_emphasis_map signal !! p
                                 else signal !! p).
  assert (HP : P (0 + (n - 1))%nat
                 (for_range 0 (n - 1) (fun k s => pre_emphasis_step (n - 1 - k) s) signal)).
  { apply for_range_inv.
    - split; [done|]. intros p. rewrite Nat.sub_0_r.
      destruct (Nat.leb_spec n p) as [Hge|]; [|done].
      rewrite (lookup_ge_None_2 signal p) by (subst n; lia).
      symmetry. apply lookup_ge_None_2. unfold pre_emphasis_map.
      rewrite length_imap. subst n. lia.
    - intros k s Hk [Hlen Hs]. unfold pre_emphasis_step.
      split; [by rewrite length_insert|].
      intros p. destruct (decide (p = n - 1 - k)%nat) as [->|Hne].
      + rewrite list_lookup_insert_eq by lia.
        replace (n - S k <=? n - 1 - k)%nat with true by (symmetry; apply Nat.leb_le; lia).
        unfold nth_f. rewrite !Hs.
        replace (n - k <=? n - 1 - k)%nat with false by (symmetry; apply Nat.leb_gt; lia).
        replace (n - k <=? n - 1 - k - 1)%nat with false by (symmetry; apply Nat.leb_gt; lia).
        unfold pre_emphasis_map. rewrite list_lookup_imap.
        destruct (lookup_lt_is_Some_2 signal (n - 1 - k)) as [x Hx]; [subst n; lia|].
        rewrite Hx. simpl.
        destruct (n - 1 - k)%nat as [|i'] eqn:E; [lia|].
        simpl. by rewrite Nat.sub_0_r.
      + rewrite list_lookup_insert_ne by done. rewrite Hs.
        destruct (Nat.leb_spec (n - k) p), (Nat.leb_spec (n - S k) p); try done; lia. }
  destruct HP as [Hlen Hs]. apply list_eq. intros p. rewrite Hs.
  destruct (Nat.leb_spec (n - (0 + (n - 1))) p) as [|Hlt]; [done|].
  unfold pre_emphasis_map. rewrite list_lookup_imap.
  assert (p = 0%nat) as -> by lia. by destruct (signal !! 0%nat).
Qed.

(** ** The filling loops keep the shape of the filterbank *)

Lemma ramp_fold_None (ws : list ramp_write) :
  foldl (fun acc w => acc ≫= fun filters => ramp_store filters w) None ws = None.
Proof. by induction ws. Qed.

Lemma ramp_store_dims (rows cols : nat) (filters filters' : list (list f64))
    (w : ramp_write) :
  table_dims rows cols filters -> ramp_store filters w = Some filters' ->
  table_dims rows cols filters'.
Proof.
  intros Hd. unfold ramp_store.
  destruct (_ && _); [|done]. intros [= <-]. by apply table_dims_set2.
Qed.

Lemma ramp_fold_dims (rows cols : nat) (ws : list ramp_write)
    (filters filters' : list (list f64)) :
  table_dims rows cols filters ->
  foldl (fun acc w => acc ≫= fun filters => ramp_store filters w) (Some filters) ws
  = Some filters' ->
  table_dims rows cols filters'.
Proof.
  revert filters. induction ws as [|w ws IH]; intros filters Hd; simpl.
  - by intros [= <-].
  - destruct (ramp_store filters w) as [f1|] eqn:E.
    + apply IH. by eapply ramp_store_dims.
    + by rewrite ramp_fold_None.
Qed.

Lemma fill_filters_fold (num_filters fft_size : Z) (bin : list Z)
    (filters : list (list f64)) :
  fill_filters num_filters fft_size bin = Some filters ->
  0 <= num_filters /\ 0 <= filter_cols fft_size /\
  foldl (fun acc w => acc ≫= fun filters => ramp_store filters w)
    (Some (replicate (Z.to_nat num_filters)
             (replicate (Z.to_nat (filter_cols fft_size)) F64.zero)))
    (ramp_writes bin num_filters) = Some filters.
Proof.
  unfold fill_filters.
  destruct (Z.leb_spec 0 num_filters); [|done].
  destruct (Z.leb_spec 0 (filter_cols fft_size)); [|done]. done.
Qed.

Lemma fill_filters_dims (num_filters fft_size : Z) (bin : list Z)
    (filters : list (list f64)) :
  fill_filters num_filters fft_size bin = Some filters ->
  table_dims (Z.to_nat num_filters) (Z.to_nat (filter_cols fft_size)) filters.
Proof.
  intros Hfill. apply fill_filters_fold in Hfill as (_ & _ & Hfold).
  by eapply ramp_fold_dims; [apply table_dims_replicate|].
Qed.

(** On a size that is not negative the truncating and the flooring division
    agree. *)
Lemma filter_cols_floor (fft_size c : Z) :
  0 <= c <= fft_size / 2 -> filter_cols fft_size = fft_size / 2 + 1.
Proof.
  intros Hc. unfold filter_cols.
  destruct (Z.lt_ge_cases fft_size 0) as [Hneg|Hpos].
  - assert (fft_size / 2 < 0) by (apply Z.div_lt_upper_bound; lia). lia.
  - by rewrite Z.quot_div_nonneg by lia.
Qed.

Lemma filter_cols_bound (fft_size : Z) : fft_size < 2 ^ 31 -> filter_cols fft_size < 2 ^ 32.
Proof.
  intros H. unfold filter_cols. change (2 ^ 32) with (2 * 2 ^ 31).
  destruct (Z.lt_ge_cases fft_size 0) as [Hneg|Hpos].
  - assert (Z.quot fft_size 2 <= 0) by (apply Z.quot_le_upper_bound; lia). lia.
  - rewrite Z.quot_div_nonneg by lia.
    assert (fft_size / 2 < 2 ^ 31) by (apply Z.div_lt_upper_bound; lia). lia.
Qed.

Section MFCCProofs.

Variables cos_d sin_d acos_d log_d log10_d : f64 -> f64.
Variable pow_d : f64 -> f64 -> f64.

Lemma hamming_window_correct (frame : list f32) :
  hamming_window cos_d acos_d frame = hamming_map cos_d acos_d frame.
Proof.
  unfold hamming_window, hamming_map, hamming_step.
  apply (for_range_inplace
           (fun i x => F32.of_float
                         (F64.mul (F64.of_float x)
                            (hamming_coeff cos_d acos_d (Z.of_nat (length frame))
                               (Z.of_nat i))))).
Qed.

Lemma apply_mel_filters_correct (power : list f64) (filterbanks : list (list f64)) :
  apply_mel_filters log_d power filterbanks = mel_energies_map log_d power filterbanks.
Proof.
  unfold apply_mel_filters, mel_energies_map.
  rewrite (for_range_fill (length filterbanks)
             (fun m acc => log_energy log_d (mel_accumulate power (nth_v filterbanks m) acc))).
  apply list_eq. intros p. rewrite !list_lookup_fmap.
  destruct (decide (p < length filterbanks)%nat) as [Hlt|Hge].
  - rewrite lookup_seq_lt by done. simpl.
    destruct (lookup_lt_is_Some_2 filterbanks p Hlt) as [row Hrow].
    unfold nth_v. by rewrite Hrow.
  - rewrite lookup_seq_ge by lia. by rewrite (lookup_ge_None_2 filterbanks p) by lia.
Qed.

Lemma dct_correct (mel_energies : list f64) :
  dct cos_d acos_d mel_energies = dct_map cos_d acos_d mel_energies.
Proof.
  unfold dct, dct_map.
  apply (for_range_fill 13
           (fun k _ => F32.of_float (dct_sum cos_d acos_d mel_energies k))).
Qed.

End MFCCProofs.

(** ** C9 *)

Lemma elem_of_int_range (lo hi k : Z) : k ∈ int_range lo hi <-> lo <= k < hi.
Proof.
  unfold int_range. rewrite list_elem_of_fmap. split.
  - intros (d & -> & Hd). apply elem_of_seq in Hd. lia.
  - intros Hk. exists (Z.to_nat (k - lo)). split; [lia|].
    apply elem_of_seq. lia.
Qed.

Lemma int_range_empty (lo hi : Z) : hi <= lo -> int_range lo hi = [].
Proof. intros H. unfold int_range. by replace (Z.to_nat (hi - lo)) with 0%nat by lia. Qed.

Lemma F64_of_Z_nonzero (n : Z) : 0 < n -> is_zero (F64.of_Z n) = false.
Proof.
  intros Hn. destruct n as [|p|p]; try lia.
  unfold F64.of_Z. simpl binary_normalize.
  pose proof (binary_round_nonzero F64.prec F64.emax false p 0) as Hz.
  destruct (binary_round F64.prec F64.emax false p 0) as [s| | |]; try done.
  by destruct (Hz s).
Qed.

Lemma elem_of_up_ramp (bin : list Z) (m : Z) (w : ramp_write) :
  w ∈ up_ramp bin m ->
  rw_row w = m - 1 /\ nth_Z bin (m - 1) <= rw_col w < nth_Z bin m /\
  rw_num w = rw_col w - nth_Z bin (m - 1) /\
  rw_den w = nth_Z bin m - nth_Z bin (m - 1).
Proof.
  unfold up_ramp. rewrite list_elem_of_fmap. intros (k & -> & Hk).
  apply elem_of_int_range in Hk. done.
Qed.

Lemma elem_of_down_ramp (bin : list Z) (m : Z) (w : ramp_write) :
  w ∈ down_ramp bin m ->
  rw_row w = m - 1 /\ nth_Z bin m <= rw_col w < nth_Z bin (m + 1) /\
  rw_num w = nth_Z bin (m + 1) - rw_col w /\
  rw_den w = nth_Z bin (m + 1) - nth_Z bin m.
Proof.
  unfold down_ramp. rewrite list_elem_of_fmap. intros (k & -> & Hk).
  apply elem_of_int_range in Hk. done.
Qed.

Lemma elem_of_ramp_writes (bin : list Z) (num_filters : Z) (w : ramp_write) :
  w ∈ ramp_writes bin num_filters <->
  exists m, 1 <= m <= num_filters /\ (w ∈ up_ramp bin m \/ w ∈ down_ramp bin m).
Proof.
  unfold ramp_writes. rewrite list_elem_of_In, in_flat_map. split.
  - intros (m & Hm & Hw). exists m.
    apply list_elem_of_In, elem_of_int_range in Hm.
    apply list_elem_of_In, elem_of_app in Hw. split; [lia|done].
  - intros (m & Hm & Hw). exists m. split.
    + apply list_elem_of_In, elem_of_int_range. lia.
    + apply list_elem_of_In, elem_of_app. done.
Qed.

Section FilterbankSafety.

Variables log10_d : f64 -> f64.
Variable pow_d : f64 -> f64 -> f64.

(** C9. In [create_mel_filterbanks] every division by
    [bin[m] - bin[m-1]] or [bin[m+1] - bin[m]] is executed inside a loop
    that runs only while the span is positive: every executed division has
    a positive divisor (a non-zero [double]), and when two adjacent bin
    indices coincide the corresponding ramp loop runs zero times. *)
Theorem create_mel_filterbanks_divisions (num_filters fft_size sample_rate : Z)
    (bin : list Z) :
  mel_bins log10_d pow_d num_filters fft_size sample_rate = Some bin ->
  create_mel_filterbanks log10_d pow_d num_filters fft_size sample_rate
  = fill_filters num_filters fft_size bin /\
  (forall w, w ∈ ramp_writes bin num_filters ->
     0 < rw_den w /\ is_zero (F64.of_Z (rw_den w)) = false) /\
  (forall m, nth_Z bin m = nth_Z bin (m - 1) -> up_ramp bin m = []) /\
  (forall m, nth_Z bin (m + 1) = nth_Z bin m -> down_ramp bin m = []).
Proof.
  intros Hbin. split; [unfold create_mel_filterbanks; by rewrite Hbin|].
  split; [|split].
  - intros w Hw. apply elem_of_ramp_writes in Hw as (m & _ & [Hw|Hw]).
    + apply elem_of_up_ramp in Hw as (_ & Hk & _ & Hden).
      assert (0 < rw_den w) by lia. split; [done|]. by apply F64_of_Z_nonzero.
    + apply elem_of_down_ramp in Hw as (_ & Hk & _ & Hden).
      assert (0 < rw_den w) by lia. split; [done|]. by apply F64_of_Z_nonzero.
  - intros m Hm. unfold up_ramp. rewrite int_range_empty by lia. done.
  - intros m Hm. unfold down_ramp. rewrite int_range_empty by lia. done.
Qed.

End FilterbankSafety.

Lemma create_mel_filterbanks_divisions_witness :
  let id := fun x : f64 => x in
  let pow := fun _ y : f64 =>
    if F64.ltb y (F64.of_decimal 5 1) then F64.one else F64.of_Z 15 in
  mel_bins id pow 3 8 48000 = Some [0; 1; 1; 1; 1] /\
  (forall w, w ∈ ramp_writes [0; 1; 1; 1; 1] 3 ->
     0 < rw_den w /\ is_zero (F64.of_Z (rw_den w)) = false) /\
  up_ramp [0; 1; 1; 1; 1] 2 = [].
Proof.
  intros id pow.
  assert (H : mel_bins id pow 3 8 48000 = Some [0; 1; 1; 1; 1])
    by (vm_compute; reflexivity).
  split; [exact H|].
  pose proof (create_mel_filterbanks_divisions id pow 3 8 48000 _ H) as (_ & H1 & H2 & _).
  split; [exact H1|]. apply H2. reflexivity.
Defined.

(** * Mel filterbank weights on binary64 *)

(** ** Exact rounding *)

Lemma iter_pos_nat {A : Type} (f : A -> A) (p : positive) (x : A) :
  SpecFloat.iter_pos f p x = Nat.iter (Pos.to_nat p) f x.
Proof.
  revert x. induction p as [p IH|p IH|]; intros x; simpl SpecFloat.iter_pos.
  - rewrite !IH. rewrite Pos2Nat.inj_xI.
    replace (S (2 * Pos.to_nat p)) with (Pos.to_nat p + (Pos.to_nat p + 1))%nat by lia.
    rewrite !Nat.iter_add. simpl. done.
  - rewrite !IH. rewrite Pos2Nat.inj_xO.
    replace (2 * Pos.to_nat p)%nat with (Pos.to_nat p + Pos.to_nat p)%nat by lia.
    by rewrite Nat.iter_add.
  - done.
Qed.

Lemma shr_1_spec (m : Z) (r s : bool) :
  0 <= m ->
  shr_1 {| shr_m := m; shr_r := r; shr_s := s |}
  = {| shr_m := m / 2; shr_r := Z.odd m; shr_s := r || s |}.
Proof.
  intros Hm. pose proof (shr_1_m {| shr_m := m; shr_r := r; shr_s := s |} Hm) as H.
  simpl in H. destruct m as [|[p|p|]|p]; simpl in *; try lia; by rewrite <- H.
Qed.

(** The record after [n >= 1] exact shifts: quotient, round bit, sticky bit. *)
Lemma shr_iter_exact (n : nat) (m : Z) :
  0 <= m -> (1 <= n)%nat ->
  Nat.iter n shr_1 {| shr_m := m; shr_r := false; shr_s := false |}
  = {| shr_m := m / 2 ^ Z.of_nat n;
       shr_r := Z.testbit m (Z.of_nat n - 1);
       shr_s := negb (m mod 2 ^ (Z.of_nat n - 1) =? 0) |}.
Proof.
  intros Hm Hn. induction n as [|n IH]; [lia|].
  destruct (decide (n = 0%nat)) as [->|Hn0].
  - rewrite Nat.iter_succ. unfold Nat.iter at 1. simpl nat_rect.
    rewrite shr_1_spec by done. simpl.
    change (2 ^ 1) with 2. change (2 ^ 0) with 1.
    by rewrite Z.mod_1_r.
  - rewrite Nat.iter_succ. rewrite IH by lia.
    assert (0 <= m / 2 ^ Z.of_nat n) by (apply Z.div_pos; lia).
    rewrite shr_1_spec by done.
    replace (Z.of_nat (S n) - 1) with (Z.of_nat n) by lia.
    f_equal.
    + rewrite Z.div_div by lia. f_equal. rewrite Nat2Z.inj_succ, Z.pow_succ_r by lia. lia.
    + rewrite Z.testbit_odd, Z.shiftr_div_pow2 by lia. done.
    + (* sticky *)
      rewrite Z.testbit_odd, Z.shiftr_div_pow2 by lia.
      set (k := Z.of_nat n - 1). assert (Hk : 0 <= k) by lia.
      replace (Z.of_nat n) with (k + 1) by lia.
      rewrite Z.pow_add_r by lia. change (2 ^ 1) with 2.
      assert (Hp : 0 < 2 ^ k) by (apply Z.pow_pos_nonneg; lia).
      pose proof (Z.div_mod m (2 ^ k) ltac:(lia)) as Hdm.
      pose proof (Z.mod_pos_bound m (2 ^ k) Hp) as Hb.
      pose proof (Z.div_mod (m / 2 ^ k) 2 ltac:(lia)) as Hdm2.
      pose proof (Z.mod_pos_bound (m / 2 ^ k) 2 ltac:(lia)) as Hb2.
      rewrite Zodd_mod.
      assert (Hmod : m mod (2 ^ k * 2) = (m / 2 ^ k) mod 2 * 2 ^ k + m mod 2 ^ k).
      { symmetry. apply Z.mod_unique_pos with ((m / 2 ^ k) / 2); nia. }
      rewrite Hmod.
      set (x := (m / 2 ^ k) mod 2) in *. set (y := m mod 2 ^ k) in *.
      destruct (Z.eqb_spec x 1), (Z.eqb_spec y 0), (Z.eqb_spec (x * 2 ^ k + y) 0);
        simpl; try done; exfalso; nia.
Qed.

Lemma testbit_div_mod (m k : Z) :
  0 <= k -> Z.testbit m k = ((m / 2 ^ k) mod 2 =? 1).
Proof. intros Hk. by rewrite Z.testbit_odd, Z.shiftr_div_pow2, Zodd_mod by lia. Qed.

Lemma mod_pow2_split (m k : Z) :
  0 <= k ->
  m mod 2 ^ (k + 1) = (m / 2 ^ k) mod 2 * 2 ^ k + m mod 2 ^ k.
Proof.
  intros Hk. rewrite Z.pow_add_r by lia. change (2 ^ 1) with 2.
  assert (Hp : 0 < 2 ^ k) by (apply Z.pow_pos_nonneg; lia).
  pose proof (Z.div_mod m (2 ^ k) ltac:(lia)) as Hdm.
  pose proof (Z.mod_pos_bound m (2 ^ k) Hp) as Hb.
  pose proof (Z.div_mod (m / 2 ^ k) 2 ltac:(lia)) as Hdm2.
  pose proof (Z.mod_pos_bound (m / 2 ^ k) 2 ltac:(lia)) as Hb2.
  symmetry. apply Z.mod_unique_pos with ((m / 2 ^ k) / 2); nia.
Qed.

(** Rounding after [n >= 1] exact shifts is rounding to nearest, ties to
    even, of [m / 2^n]. *)
Lemma round_shr_exact (n : nat) (m : Z) :
  0 <= m -> (1 <= n)%nat ->
  let R := Nat.iter n shr_1 {| shr_m := m; shr_r := false; shr_s := false |} in
  round_nearest_even (shr_m R) (loc_of_shr_record R) = rne m (Z.of_nat n).
Proof.
  intros Hm Hn R. subst R. rewrite shr_iter_exact by done. simpl shr_m.
  unfold rne. set (k := Z.of_nat n - 1). assert (Hk : 0 <= k) by lia.
  replace (Z.of_nat n) with (k + 1) by lia.
  rewrite (mod_pow2_split m k Hk), (testbit_div_mod m k Hk).
  assert (Hp : 0 < 2 ^ k) by (apply Z.pow_pos_nonneg; lia).
  pose proof (Z.mod_pos_bound m (2 ^ k) Hp) as Hb.
  pose proof (Z.mod_pos_bound (m / 2 ^ k) 2 ltac:(lia)) as Hb2.
  set (x := (m / 2 ^ k) mod 2) in *. set (y := m mod 2 ^ k) in *.
  set (q := m / 2 ^ (k + 1)).
  destruct (Z.eqb_spec x 1) as [Hx|Hx], (Z.eqb_spec y 0) as [Hy|Hy]; simpl.
  - replace (x * 2 ^ k + y <? 2 ^ k) with false by (symmetry; apply Z.ltb_ge; nia).
    replace (2 ^ k <? x * 2 ^ k + y) with false by (symmetry; apply Z.ltb_ge; nia).
    done.
  - replace (x * 2 ^ k + y <? 2 ^ k) with false by (symmetry; apply Z.ltb_ge; nia).
    replace (2 ^ k <? x * 2 ^ k + y) with true by (symmetry; apply Z.ltb_lt; nia).
    done.
  - replace (x * 2 ^ k + y <? 2 ^ k) with true by (symmetry; apply Z.ltb_lt; nia).
    done.
  - replace (x * 2 ^ k + y <? 2 ^ k) with true by (symmetry; apply Z.ltb_lt; nia).
    done.
Qed.

Lemma loc_of_shr_record_of_loc (m : Z) (l : location) :
  loc_of_shr_record (shr_record_of_loc m l) = l.
Proof. by destruct l as [|[]]. Qed.

(** [binary_round_aux] on an exact input. *)
Lemma binary_round_aux_exact (prec emax : Z) (sx : bool) (mx ex : Z) :
  0 <= mx ->
  let e1 := Z.max ex (fexp prec emax (Zdigits2 mx + ex)) in
  let mr := if e1 - ex <=? 0 then mx else rne mx (e1 - ex) in
  let e2 := Z.max e1 (fexp prec emax (Zdigits2 mr + e1)) in
  0 <= mr /\
  binary_round_aux prec emax sx mx ex loc_Exact
  = match mr / 2 ^ (e2 - e1) with
    | Z0 => S754_zero sx
    | Zpos m => if e2 <=? emax - prec then S754_finite sx m e2 else S754_infinity sx
    | Zneg _ => S754_nan
    end.
Proof.
  intros Hmx e1 mr e2.
  assert (Hfirst : snd (shr_fexp prec emax mx ex loc_Exact) = e1 /\
            round_nearest_even (shr_m (fst (shr_fexp prec emax mx ex loc_Exact)))
              (loc_of_shr_record (fst (shr_fexp prec emax mx ex loc_Exact))) = mr).
  { subst mr e1. unfold shr_fexp, shr.
    destruct (fexp prec emax (Zdigits2 mx + ex) - ex) as [|p|p] eqn:E; cbn [fst snd].
    - rewrite Z.max_l by lia. rewrite Z.sub_diag. done.
    - rewrite Z.max_r by lia. split; [lia|].
      replace (fexp prec emax (Zdigits2 mx + ex) - ex <=? 0) with false
        by (symmetry; apply Z.leb_gt; lia).
      rewrite iter_pos_nat. cbn [shr_record_of_loc].
      rewrite (round_shr_exact (Pos.to_nat p) mx Hmx) by lia.
      f_equal. lia.
    - rewrite Z.max_l by lia. rewrite Z.sub_diag. done. }
  destruct Hfirst as [He1 Hmr].
  assert (Hmr0 : 0 <= mr).
  { rewrite <- Hmr.
    destruct (round_nearest_even_cases
                (shr_m (fst (shr_fexp prec emax mx ex loc_Exact)))
                (loc_of_shr_record (fst (shr_fexp prec emax mx ex loc_Exact)))) as [->| ->];
    pose proof (shr_fexp_spec prec emax mx ex loc_Exact Hmx) as [_ H]; rewrite H;
    pose proof (div_pow2_nonneg mx (Z.max ex (fexp prec emax (Zdigits2 mx + ex)) - ex) Hmx);
    lia. }
  split; [done|].
  unfold binary_round_aux.
  destruct (shr_fexp prec emax mx ex loc_Exact) as [mrs' e'] eqn:E1. simpl in He1, Hmr.
  rewrite Hmr. subst e'.
  pose proof (shr_fexp_spec prec emax mr e1 loc_Exact Hmr0) as [He2 Hm2].
  destruct (shr_fexp prec emax mr e1 loc_Exact) as [mrs'' e''] eqn:E2. simpl in He2, Hm2.
  fold e2 in He2, Hm2. by rewrite Hm2, He2.
Qed.

Lemma Zdigits2_unique (m k : Z) :
  0 < k -> 2 ^ (k - 1) <= m < 2 ^ k -> Zdigits2 m = k.
Proof.
  intros Hk [Hlo Hhi].
  assert (Hm : 0 < m) by (pose proof (Z.pow_pos_nonneg 2 (k - 1)); lia).
  apply Z.le_antisymm; [apply Zdigits2_le; lia|].
  destruct (Z.le_gt_cases k (Zdigits2 m)) as [|Hlt]; [done|exfalso].
  pose proof (Zdigits2_bounds m Hm) as [_ Hd].
  pose proof (Zdigits2_pos m Hm).
  assert (2 ^ Zdigits2 m <= 2 ^ (k - 1)) by (apply Z.pow_le_mono_r; lia). lia.
Qed.

Lemma rne_exact (m n : Z) : 0 <= m -> 0 < n -> rne (m * 2 ^ n) n = m.
Proof.
  intros Hm Hn. unfold rne.
  assert (0 < 2 ^ n) by (apply Z.pow_pos_nonneg; lia).
  assert (0 < 2 ^ (n - 1)) by (apply Z.pow_pos_nonneg; lia).
  rewrite Z.mod_mul, Z.div_mul by lia.
  by replace (0 <? 2 ^ (n - 1)) with true by (symmetry; apply Z.ltb_lt; lia).
Qed.

(** A canonical exact input is returned unchanged. *)
Lemma binary_round_aux_canonical (prec emax : Z) (sx : bool) (mx : positive) (ex : Z) :
  fexp prec emax (Zpos (digits2_pos mx) + ex) = ex -> ex <= emax - prec ->
  binary_round_aux prec emax sx (Zpos mx) ex loc_Exact = S754_finite sx mx ex.
Proof.
  intros Hc Hex.
  destruct (binary_round_aux_exact prec emax sx (Zpos mx) ex ltac:(lia)) as [_ ->].
  simpl Zdigits2. rewrite Hc, Z.max_id, Z.sub_diag. simpl (0 <=? 0).
  cbv iota. simpl Zdigits2. rewrite Hc, Z.max_id, Z.sub_diag.
  change (2 ^ 0) with 1. rewrite Z.div_1_r.
  by replace (ex <=? emax - prec) with true by (symmetry; apply Z.leb_le; lia).
Qed.

(** Conversion of a positive integer below [2^53] is exact. *)
Lemma F64_of_Z_exact (a : Z) :
  0 < a < 2 ^ 53 ->
  F64.of_Z a
  = S754_finite false (Z.to_pos (a * 2 ^ (53 - Zdigits2 a))) (Zdigits2 a - 53).
Proof.
  intros [Ha0 Ha]. destruct a as [|p|p]; try lia.
  unfold F64.of_Z. simpl binary_normalize. unfold binary_round.
  assert (Hd : 0 < Zpos (digits2_pos p) <= 53).
  { split; [lia|]. change (Zpos (digits2_pos p)) with (Zdigits2 (Zpos p)).
    apply Zdigits2_le; lia. }
  assert (Hf : fexp F64.prec F64.emax (Zpos (digits2_pos p) + 0) = Zpos (digits2_pos p) - 53).
  { unfold fexp, emin, F64.prec, F64.emax. lia. }
  pose proof (shl_align_spec p 0 (fexp F64.prec F64.emax (Zpos (digits2_pos p) + 0)))
    as (He & Hm & Hdig).
  destruct (shl_align p 0 (fexp F64.prec F64.emax (Zpos (digits2_pos p) + 0))) as [mz ez].
  simpl in He, Hm, Hdig. rewrite Hf in He, Hm, Hdig.
  rewrite Z.min_r in He, Hm, Hdig by lia. subst ez.
  rewrite binary_round_aux_canonical.
  - simpl Zdigits2. f_equal.
    replace (53 - Zpos (digits2_pos p)) with (0 - (Zpos (digits2_pos p) - 53)) by lia.
    rewrite <- Hm. done.
  - unfold fexp, emin, F64.prec, F64.emax. lia.
  - unfold F64.prec, F64.emax. lia.
Qed.

Lemma F64_mul_one (s : bool) (m : positive) (e : Z) :
  Zpos (digits2_pos m) = 53 -> -1074 <= e <= 971 ->
  F64.mul (S754_finite s m e) F64.one = S754_finite s m e.
Proof.
  intros Hd He. unfold F64.mul, F64.one. simpl SFmul.
  rewrite xorb_false_r.
  destruct (binary_round_aux_exact F64.prec F64.emax s
              (Zpos (m * 4503599627370496)) (e + -52) ltac:(lia)) as [_ ->].
  assert (Hdig : Zdigits2 (Zpos (m * 4503599627370496)) = 105).
  { apply Zdigits2_unique; [lia|].
    pose proof (digits2_pos_bounds m) as Hb. rewrite Hd in Hb.
    rewrite Pos2Z.inj_mul. change (Zpos 4503599627370496) with (2 ^ 52).
    change (105 - 1) with (52 + 52). change 105 with (53 + 52).
    rewrite !Z.pow_add_r by lia. change (53 - 1) with 52 in Hb.
    assert (0 < 2 ^ 52) by done. nia. }
  rewrite Hdig.
  assert (He1 : Z.max (e + -52) (fexp F64.prec F64.emax (105 + (e + -52))) = e)
    by (unfold fexp, emin, F64.prec, F64.emax; lia).
  rewrite He1.
  replace (e - (e + -52) <=? 0) with false by (symmetry; apply Z.leb_gt; lia).
  replace (e - (e + -52)) with 52 by lia.
  rewrite Pos2Z.inj_mul. change (Zpos 4503599627370496) with (2 ^ 52).
  rewrite rne_exact by lia.
  simpl Zdigits2. rewrite Hd.
  assert (He2 : Z.max e (fexp F64.prec F64.emax (53 + e)) = e)
    by (unfold fexp, emin, F64.prec, F64.emax; lia).
  rewrite He2, Z.sub_diag. change (2 ^ 0) with 1. rewrite Z.div_1_r.
  by replace (e <=? F64.emax - F64.prec) with true
    by (symmetry; apply Z.leb_le; unfold F64.emax, F64.prec; lia).
Qed.

(** *** Division of canonical doubles *)

Lemma new_location_spec (d r : Z) :
  0 < d -> 0 <= r < d ->
  new_location d r = if r =? 0 then loc_Exact else loc_Inexact (2 * r ?= d).
Proof.
  intros Hd Hr. unfold new_location, new_location_even, new_location_odd.
  destruct (Z.even d) eqn:Hev; [done|].
  destruct (Z.eqb_spec r 0); [done|]. f_equal.
  assert (Hodd : Z.odd d = true) by (rewrite <- Z.negb_even, Hev; done).
  apply Z.odd_spec in Hodd as [k Hk].
  destruct (Z.compare_spec (2 * r + 1) d), (Z.compare_spec (2 * r) d); try done; lia.
Qed.

(** The second stage of [binary_round_aux]: renormalisation after a carry. *)
Lemma round_finish (mr er : Z) :
  2 ^ 52 <= mr <= 2 ^ 53 -> -1074 <= er <= 970 ->
  let e2 := Z.max er (fexp F64.prec F64.emax (Zdigits2 mr + er)) in
  match mr / 2 ^ (e2 - er) with
  | Z0 => S754_zero false
  | Zpos m => if e2 <=? F64.emax - F64.prec then S754_finite false m e2
              else S754_infinity false
  | Zneg _ => S754_nan
  end = canon53 mr er.
Proof.
  intros Hmr Her e2. unfold canon53.
  destruct (Z.ltb_spec mr (2 ^ 53)) as [Hlt|Hge].
  - assert (Hd : Zdigits2 mr = 53) by (apply Zdigits2_unique; [lia|]; simpl (53 - 1); lia).
    assert (He2 : e2 = er) by (subst e2; rewrite Hd; unfold fexp, emin, F64.prec, F64.emax; lia).
    rewrite He2, Z.sub_diag. change (2 ^ 0) with 1. rewrite Z.div_1_r.
    replace (er <=? F64.emax - F64.prec) with true
      by (symmetry; apply Z.leb_le; unfold F64.emax, F64.prec; lia).
    destruct mr; try lia. done.
  - assert (Heq : mr = 2 ^ 53) by lia.
    assert (Hd : Zdigits2 mr = 54).
    { rewrite Heq. apply Zdigits2_unique; [lia|]. simpl (54 - 1).
      split; [lia|]. apply Z.pow_lt_mono_r; lia. }
    assert (He2 : e2 = er + 1)
      by (subst e2; rewrite Hd; unfold fexp, emin, F64.prec, F64.emax; lia).
    rewrite He2. replace (er + 1 - er) with 1 by lia. rewrite Heq.
    change (2 ^ 53 / 2 ^ 1) with 4503599627370496.
    by replace (er + 1 <=? F64.emax - F64.prec) with true
      by (symmetry; apply Z.leb_le; unfold F64.emax, F64.prec; lia).
Qed.

(** Rounding of a quotient of 53 digits. *)
Lemma binary_round_aux_q53 (q e : Z) (l : location) :
  2 ^ 52 <= q < 2 ^ 53 -> -1074 <= e <= 970 ->
  binary_round_aux F64.prec F64.emax false q e l
  = canon53 (round_nearest_even q l) e.
Proof.
  intros Hq He.
  assert (Hd : Zdigits2 q = 53) by (apply Zdigits2_unique; [lia|]; simpl (53 - 1); lia).
  unfold binary_round_aux, shr_fexp at 1. rewrite Hd.
  replace (fexp F64.prec F64.emax (53 + e) - e) with 0
    by (unfold fexp, emin, F64.prec, F64.emax; lia).
  cbn [shr]. rewrite loc_of_shr_record_of_loc, shr_record_of_loc_m.
  set (mr := round_nearest_even q l).
  assert (Hmr : 2 ^ 52 <= mr <= 2 ^ 53)
    by (subst mr; destruct (round_nearest_even_cases q l) as [->| ->]; lia).
  pose proof (shr_fexp_spec F64.prec F64.emax mr e loc_Exact ltac:(lia)) as [He2 Hm2].
  destruct (shr_fexp F64.prec F64.emax mr e loc_Exact) as [mrs'' e''].
  simpl in He2, Hm2. rewrite Hm2, He2. by apply round_finish.
Qed.

(** Rounding of a quotient of 54 digits: one shift, which keeps the
    inexactness of the quotient as the sticky bit. *)
Lemma binary_round_aux_q54 (q e : Z) (l : location) :
  2 ^ 53 <= q < 2 ^ 54 -> -1074 <= e <= 969 ->
  binary_round_aux F64.prec F64.emax false q e l
  = canon53
      (round_nearest_even (q / 2)
         (loc_of_shr_record
            {| shr_m := q / 2; shr_r := Z.odd q;
               shr_s := match l with loc_Exact => false | _ => true end |}))
      (e + 1).
Proof.
  intros Hq He.
  assert (Hd : Zdigits2 q = 54) by (apply Zdigits2_unique; [lia|]; simpl (54 - 1); lia).
  unfold binary_round_aux, shr_fexp at 1. rewrite Hd.
  replace (fexp F64.prec F64.emax (54 + e) - e) with 1
    by (unfold fexp, emin, F64.prec, F64.emax; lia).
  cbn [shr SpecFloat.iter_pos].
  assert (Hrec : shr_1 (shr_record_of_loc q l)
                 = {| shr_m := q / 2; shr_r := Z.odd q;
                      shr_s := match l with loc_Exact => false | _ => true end |}).
  { destruct l as [|[]]; simpl shr_record_of_loc; rewrite shr_1_spec by lia; done. }
  rewrite Hrec. cbn [shr_m].
  set (mr := round_nearest_even _ _).
  assert (Hq2 : 2 ^ 52 <= q / 2 < 2 ^ 53).
  { change (2 ^ 53) with (2 * 2 ^ 52) in Hq. change (2 ^ 54) with (2 * 2 ^ 53) in Hq.
    split; [apply Z.div_le_lower_bound; lia|apply Z.div_lt_upper_bound; lia]. }
  assert (Hmr : 2 ^ 52 <= mr <= 2 ^ 53).
  { subst mr. match goal with |- context [round_nearest_even ?m ?l] =>
      destruct (round_nearest_even_cases m l) as [->| ->] end; lia. }
  pose proof (shr_fexp_spec F64.prec F64.emax mr (e + 1) loc_Exact ltac:(lia)) as [He2 Hm2].
  destruct (shr_fexp F64.prec F64.emax mr (e + 1) loc_Exact) as [mrs'' e''].
  simpl in He2, Hm2. rewrite Hm2, He2. apply round_finish; lia.
Qed.

(** The rounded quotient is within half a unit of the exact one. *)
Lemma round_quotient_53 (N D : Z) :
  0 < D -> 0 <= N ->
  let mr := round_nearest_even (N / D) (new_location D (N mod D)) in
  - D <= 2 * D * mr - 2 * N <= D.
Proof.
  intros HD HN mr. subst mr.
  pose proof (Z.div_mod N D ltac:(lia)) as Hdm.
  pose proof (Z.mod_pos_bound N D HD) as Hr.
  rewrite new_location_spec by done.
  set (q := N / D) in *. set (r := N mod D) in *.
  destruct (Z.eqb_spec r 0) as [Hr0|Hr0]; simpl; [nia|].
  destruct (Z.compare_spec (2 * r) D); simpl; try nia.
  destruct (Z.even q); nia.
Qed.

Lemma round_quotient_54 (N D : Z) :
  0 < D -> 0 <= N ->
  let q := N / D in
  let mr :=
    round_nearest_even (q / 2)
      (loc_of_shr_record
         {| shr_m := q / 2; shr_r := Z.odd q;
            shr_s := match new_location D (N mod D) with
                     | loc_Exact => false
                     | _ => true
                     end |}) in
  - (2 * D) <= 4 * D * mr - 2 * N <= 2 * D.
Proof.
  intros HD HN q mr. subst mr q.
  pose proof (Z.div_mod N D ltac:(lia)) as Hdm.
  pose proof (Z.mod_pos_bound N D HD) as Hr.
  rewrite new_location_spec by done.
  set (q := N / D) in *. set (r := N mod D) in *.
  pose proof (Z.div_mod q 2 ltac:(lia)) as Hq2.
  pose proof (Z.mod_pos_bound q 2 ltac:(lia)) as Hb2.
  rewrite Zodd_mod.
  set (h := q / 2) in *. set (b := q mod 2) in *.
  destruct (Z.eqb_spec b 1) as [Hb|Hb]; destruct (Z.eqb_spec r 0) as [Hr0|Hr0]; simpl.
  - destruct (Z.even h); nia.
  - destruct (2 * r ?= D); simpl; nia.
  - nia.
  - destruct (2 * r ?= D); simpl; nia.
Qed.

Lemma div_eucl_div_mod (a b : Z) : Z.div_eucl a b = (a / b, a mod b).
Proof. unfold Z.div, Z.modulo. by destruct (Z.div_eucl a b). Qed.

(** Division of two canonical positive doubles goes through the quotient of
    the mantissas scaled by [2^53]. *)
Lemma F64_div_canonical (ma mn : positive) (ea en : Z) :
  Zpos (digits2_pos ma) = 53 -> Zpos (digits2_pos mn) = 53 ->
  -500 <= ea <= 500 -> -500 <= en <= 500 ->
  F64.div (S754_finite false ma ea) (S754_finite false mn en)
  = binary_round_aux F64.prec F64.emax false
      (Zpos ma * 2 ^ 53 / Zpos mn) (ea - en - 53)
      (new_location (Zpos mn) ((Zpos ma * 2 ^ 53) mod Zpos mn)).
Proof.
  intros Hda Hdn Hea Hen. unfold F64.div. cbn [SFdiv xorb].
  unfold SFdiv_core_binary. cbn [Zdigits2]. rewrite Hda, Hdn.
  replace (Z.min (fexp F64.prec F64.emax (53 + ea - (53 + en))) (ea - en))
    with (ea - en - 53) by (unfold fexp, emin, F64.prec, F64.emax; lia).
  replace (ea - en - (ea - en - 53)) with 53 by lia.
  cbv iota. rewrite Z.shiftl_mul_pow2 by lia.
  rewrite div_eucl_div_mod. done.
Qed.

Lemma Zdigits2_mono (a n : Z) : 0 < a <= n -> Zdigits2 a <= Zdigits2 n.
Proof.
  intros [Ha Han]. apply Zdigits2_le.
  - apply Zdigits2_nonneg. lia.
  - pose proof (Zdigits2_bounds n ltac:(lia)). lia.
Qed.

(** The canonical mantissa of a positive integer of [d] digits. *)
Lemma of_Z_mantissa (a : Z) :
  0 < a < 2 ^ 53 ->
  let d := Zdigits2 a in
  2 ^ 52 <= a * 2 ^ (53 - d) < 2 ^ 53 /\ 0 < d <= 53.
Proof.
  intros [Ha0 Ha] d. subst d.
  pose proof (Zdigits2_bounds a Ha0) as [Hlo Hhi].
  pose proof (Zdigits2_pos a Ha0) as Hd.
  assert (Hd53 : Zdigits2 a <= 53) by (apply Zdigits2_le; lia).
  split; [|lia].
  set (d := Zdigits2 a) in *.
  assert (H52 : 2 ^ 52 = 2 ^ (d - 1) * 2 ^ (53 - d))
    by (rewrite <- Z.pow_add_r by lia; f_equal; lia).
  assert (H53 : 2 ^ 53 = 2 ^ d * 2 ^ (53 - d))
    by (rewrite <- Z.pow_add_r by lia; f_equal; lia).
  assert (0 < 2 ^ (53 - d)) by (apply Z.pow_pos_nonneg; lia).
  rewrite H52, H53. nia.
Qed.

Lemma quot53_char (a n : Z) :
  0 < a <= n -> n < 2 ^ 32 ->
  exists mr er,
    quot53 a n = canon53 mr er /\
    2 ^ 52 <= mr <= 2 ^ 53 /\
    -100 <= er <= -52 /\
    - n <= 2 * n * mr - a * 2 ^ (1 - er) <= n /\
    n * 2 ^ 52 <= a * 2 ^ (- er) < n * 2 ^ 53.
Proof.
  intros [Ha Han] Hn.
  assert (Hn53 : 2 ^ 32 < 2 ^ 53) by (apply Z.pow_lt_mono_r; lia).
  pose proof (of_Z_mantissa a ltac:(lia)) as [Hma Hda].
  pose proof (of_Z_mantissa n ltac:(lia)) as [Hmn Hdn].
  pose proof (Zdigits2_mono a n ltac:(lia)) as Hdd.
  assert (Hdn32 : Zdigits2 n <= 32) by (apply Zdigits2_le; lia).
  unfold quot53. rewrite (F64_of_Z_exact a), (F64_of_Z_exact n) by lia.
  set (da := Zdigits2 a) in *. set (dn := Zdigits2 n) in *.
  set (ma := a * 2 ^ (53 - da)) in *. set (mn := n * 2 ^ (53 - dn)) in *.
  assert (Hdma : Zpos (digits2_pos (Z.to_pos ma)) = 53).
  { change (Zpos (digits2_pos (Z.to_pos ma))) with (Zdigits2 (Zpos (Z.to_pos ma))).
    rewrite Z2Pos.id by lia. apply Zdigits2_unique; [lia|]. simpl (53 - 1). lia. }
  assert (Hdmn : Zpos (digits2_pos (Z.to_pos mn)) = 53).
  { change (Zpos (digits2_pos (Z.to_pos mn))) with (Zdigits2 (Zpos (Z.to_pos mn))).
    rewrite Z2Pos.id by lia. apply Zdigits2_unique; [lia|]. simpl (53 - 1). lia. }
  rewrite F64_mul_one by (try done; lia).
  rewrite F64_div_canonical by (try done; lia).
  rewrite !Z2Pos.id by lia.
  set (N := ma * 2 ^ 53). set (e' := da - 53 - (dn - 53) - 53).
  assert (HN : 0 <= N) by (subst N; lia).
  (* the scale factors *)
  set (c := 2 ^ (53 - dn)). set (t := 2 ^ (53 + dn - da)).
  assert (Hc : 0 < c) by (apply Z.pow_pos_nonneg; lia).
  assert (Ht : 0 < t) by (apply Z.pow_pos_nonneg; lia).
  assert (HNt : N = a * c * t).
  { subst N ma c t. rewrite <- Z.mul_assoc, <- !Z.pow_add_r by lia.
    rewrite <- Z.mul_assoc, <- Z.pow_add_r by lia. do 2 f_equal. lia. }
  assert (HD : mn = n * c) by done.
  pose proof (Z.div_mod N mn ltac:(lia)) as Hdm.
  pose proof (Z.mod_pos_bound N mn ltac:(lia)) as Hr.
  assert (Hq : 2 ^ 52 <= N / mn < 2 ^ 54).
  { split.
    - apply Z.div_le_lower_bound; [lia|]. subst N. nia.
    - apply Z.div_lt_upper_bound; [lia|]. subst N.
      change (2 ^ 54) with (2 * 2 ^ 53). nia. }
  destruct (Z.lt_ge_cases (N / mn) (2 ^ 53)) as [Hq53|Hq54].
  - rewrite binary_round_aux_q53 by (subst e'; lia).
    pose proof (round_quotient_53 N mn ltac:(lia) HN) as Hb. cbv zeta in Hb.
    set (mr := round_nearest_even (N / mn) (new_location mn (N mod mn))) in *.
    exists mr, e'. split; [done|].
    assert (Hmr : 2 ^ 52 <= mr <= 2 ^ 53).
    { subst mr. destruct (round_nearest_even_cases (N / mn) (new_location mn (N mod mn)))
        as [->| ->]; lia. }
    split; [done|]. split; [subst e'; lia|].
    replace (1 - e') with (1 + (53 + dn - da)) by (subst e'; lia).
    replace (- e') with (53 + dn - da) by (subst e'; lia).
    rewrite Z.pow_add_r by lia. change (2 ^ 1) with 2. fold t.
    split; nia.
  - rewrite binary_round_aux_q54 by (subst e'; lia).
    pose proof (round_quotient_54 N mn ltac:(lia) HN) as Hb. cbv zeta in Hb.
    set (mr := round_nearest_even _ _) in *.
    exists mr, (e' + 1). split; [done|].
    assert (Hq2 : 2 ^ 52 <= N / mn / 2 < 2 ^ 53).
    { change (2 ^ 53) with (2 * 2 ^ 52) in Hq54. change (2 ^ 54) with (2 * 2 ^ 53) in Hq.
      split; [apply Z.div_le_lower_bound; lia|apply Z.div_lt_upper_bound; lia]. }
    assert (Hmr : 2 ^ 52 <= mr <= 2 ^ 53).
    { subst mr. match goal with |- context [round_nearest_even ?m ?l] =>
        destruct (round_nearest_even_cases m l) as [->| ->] end; lia. }
    split; [done|]. split; [subst e'; lia|].
    replace (1 - (e' + 1)) with (53 + dn - da) by (subst e'; lia).
    replace (- (e' + 1)) with (53 + dn - da - 1) by (subst e'; lia).
    fold t.
    assert (Ht2 : t = 2 * 2 ^ (53 + dn - da - 1)).
    { subst t. rewrite <- Z.pow_succ_r by lia. f_equal. lia. }
    change (2 ^ 53) with (2 * 2 ^ 52) in Hq54. change (2 ^ 54) with (2 * 2 ^ 53) in Hq.
    split; nia.
Qed.

(** *** A sum within half a unit of 1 rounds to 1 *)

Lemma rne_unique (m n q rho : Z) :
  0 < n -> m = q * 2 ^ n + rho -> 0 <= rho < 2 ^ n ->
  rne m n = if rho <? 2 ^ (n - 1) then q
            else if 2 ^ (n - 1) <? rho then q + 1
            else if Z.even q then q else q + 1.
Proof.
  intros Hn Hm Hrho. unfold rne.
  assert (Hp : 0 < 2 ^ n) by (apply Z.pow_pos_nonneg; lia).
  assert (Hq : m / 2 ^ n = q) by (symmetry; apply Z.div_unique with rho; lia).
  assert (Hr : m mod 2 ^ n = rho) by (symmetry; apply Z.mod_unique with q; lia).
  by rewrite Hq, Hr.
Qed.

Lemma binary_normalize_one (M ez : Z) :
  -200 <= ez <= -53 ->
  2 ^ 54 * (2 ^ (- ez) - M) <= 2 ^ (- ez) ->
  2 ^ 53 * (M - 2 ^ (- ez)) <= 2 ^ (- ez) ->
  binary_normalize F64.prec F64.emax M ez false = F64.one.
Proof.
  intros Hez Hlo Hhi. set (K := - ez) in *.
  assert (HK : 53 <= K <= 200) by (subst K; lia).
  assert (HpK : 0 < 2 ^ K) by (apply Z.pow_pos_nonneg; lia).
  assert (HK1 : 2 ^ K = 2 * 2 ^ (K - 1))
    by (rewrite <- Z.pow_succ_r by lia; f_equal; lia).
  assert (HK2 : 2 ^ (K + 1) = 2 * 2 ^ K)
    by (rewrite Z.pow_add_r by lia; change (2 ^ 1) with 2; lia).
  assert (H54 : 2 ^ 54 = 2 * 2 ^ 53) by done.
  assert (H53 : 0 < 2 ^ 53) by done.
  assert (HM : 2 ^ (K - 1) <= M < 2 ^ (K + 1)) by nia.
  assert (HM0 : 0 < M) by (pose proof (Z.pow_pos_nonneg 2 (K - 1)); lia).
  destruct M as [|p|p]; try lia. simpl binary_normalize. unfold binary_round.
  destruct (Z.lt_ge_cases (Zpos p) (2 ^ K)) as [HltK|HgeK].
  - (* below 1: the mantissa is rounded up to 2^53 *)
    assert (Hd : Zpos (digits2_pos p) = K).
    { change (Zpos (digits2_pos p)) with (Zdigits2 (Zpos p)).
      apply Zdigits2_unique; lia. }
    rewrite Hd.
    assert (Hf : fexp F64.prec F64.emax (K + ez) = -53)
      by (unfold fexp, emin, F64.prec, F64.emax; subst K; lia).
    rewrite Hf.
    pose proof (shl_align_spec p ez (-53)) as (He & Hm & _).
    destruct (shl_align p ez (-53)) as [mz ez'] eqn:Esh. simpl in He, Hm.
    rewrite Z.min_l in He, Hm by lia. subst ez'.
    rewrite Z.sub_diag in Hm. change (2 ^ 0) with 1 in Hm.
    assert (mz = p) as -> by lia.
    destruct (binary_round_aux_exact F64.prec F64.emax false (Zpos p) ez ltac:(lia))
      as [_ ->].
    simpl Zdigits2. rewrite Hd, Hf.
    assert (Hn : 0 < K - 53).
    { destruct (Z.eq_dec K 53) as [HK53|]; [|lia]. exfalso.
      rewrite HK53 in *. change (2 ^ 54) with (2 * 2 ^ 53) in Hlo. lia. }
    rewrite Z.max_r by lia.
    replace (-53 - ez <=? 0) with false by (symmetry; apply Z.leb_gt; subst K; lia).
    replace (-53 - ez) with (K - 53) by (subst K; lia).
    set (n := K - 53) in *.
    assert (HKn : 2 ^ K = 2 ^ 53 * 2 ^ n)
      by (rewrite <- Z.pow_add_r by lia; f_equal; subst n; lia).
    assert (Hpn : 2 ^ n = 2 * 2 ^ (n - 1))
      by (rewrite <- Z.pow_succ_r by lia; f_equal; lia).
    assert (Hph : 0 < 2 ^ (n - 1)) by (apply Z.pow_pos_nonneg; lia).
    assert (Hrne : rne (Zpos p) n = 2 ^ 53).
    { rewrite (rne_unique (Zpos p) n (2 ^ 53 - 1) (Zpos p - (2 ^ 53 - 1) * 2 ^ n))
        by (try lia; nia).
      destruct (Z.ltb_spec (Zpos p - (2 ^ 53 - 1) * 2 ^ n) (2 ^ (n - 1))); [nia|].
      destruct (Z.ltb_spec (2 ^ (n - 1)) (Zpos p - (2 ^ 53 - 1) * 2 ^ n)); [lia|].
      done. }
    rewrite Hrne.
    change (Zdigits2 (2 ^ 53)) with 54.
    replace (Z.max (-53) (fexp F64.prec F64.emax (54 + -53))) with (-52)
      by (unfold fexp, emin, F64.prec, F64.emax; lia).
    done.
  - (* at least 1: the mantissa is rounded down to 2^52 *)
    assert (Hd : Zpos (digits2_pos p) = K + 1).
    { change (Zpos (digits2_pos p)) with (Zdigits2 (Zpos p)).
      apply Zdigits2_unique; [lia|]. replace (K + 1 - 1) with K by lia. lia. }
    rewrite Hd.
    assert (Hf : fexp F64.prec F64.emax (K + 1 + ez) = -52)
      by (unfold fexp, emin, F64.prec, F64.emax; subst K; lia).
    rewrite Hf.
    pose proof (shl_align_spec p ez (-52)) as (He & Hm & _).
    destruct (shl_align p ez (-52)) as [mz ez'] eqn:Esh. simpl in He, Hm.
    rewrite Z.min_l in He, Hm by lia. subst ez'.
    rewrite Z.sub_diag in Hm. change (2 ^ 0) with 1 in Hm.
    assert (mz = p) as -> by lia.
    destruct (binary_round_aux_exact F64.prec F64.emax false (Zpos p) ez ltac:(lia))
      as [_ ->].
    simpl Zdigits2. rewrite Hd, Hf.
    rewrite Z.max_r by lia.
    replace (-52 - ez <=? 0) with false by (symmetry; apply Z.leb_gt; subst K; lia).
    replace (-52 - ez) with (K - 52) by (subst K; lia).
    set (n := K - 52) in *.
    assert (HKn : 2 ^ K = 2 ^ 52 * 2 ^ n)
      by (rewrite <- Z.pow_add_r by lia; f_equal; subst n; lia).
    assert (Hpn : 2 ^ n = 2 * 2 ^ (n - 1))
      by (rewrite <- Z.pow_succ_r by lia; f_equal; lia).
    assert (Hph : 0 < 2 ^ (n - 1)) by (apply Z.pow_pos_nonneg; lia).
    assert (H5352 : 2 ^ 53 = 2 * 2 ^ 52) by done.
    assert (Hrne : rne (Zpos p) n = 2 ^ 52).
    { rewrite (rne_unique (Zpos p) n (2 ^ 52) (Zpos p - 2 ^ 52 * 2 ^ n))
        by (try lia; nia).
      destruct (Z.ltb_spec (Zpos p - 2 ^ 52 * 2 ^ n) (2 ^ (n - 1))); [done|].
      destruct (Z.ltb_spec (2 ^ (n - 1)) (Zpos p - 2 ^ 52 * 2 ^ n)); [nia|].
      done. }
    rewrite Hrne.
    change (Zdigits2 (2 ^ 52)) with 53.
    replace (Z.max (-52) (fexp F64.prec F64.emax (53 + -52))) with (-52)
      by (unfold fexp, emin, F64.prec, F64.emax; lia).
    done.
Qed.

(** *** Adding two ramp weights *)

Lemma canon53_value (mr er : Z) :
  2 ^ 52 <= mr <= 2 ^ 53 ->
  exists (p : positive) (f : Z),
    canon53 mr er = S754_finite false p f /\
    Zpos p * 2 ^ (f - er) = mr /\
    (f = er \/ f = er + 1 /\ mr = 2 ^ 53 /\ p = 4503599627370496%positive).
Proof.
  intros Hmr. unfold canon53. destruct (Z.ltb_spec mr (2 ^ 53)) as [Hlt|Hge].
  - exists (Z.to_pos mr), er. split; [done|]. rewrite Z.sub_diag.
    change (2 ^ 0) with 1. split; [|by left].
    assert (0 < mr) by (change (2 ^ 52) with 4503599627370496 in Hmr; lia). lia.
  - exists 4503599627370496%positive, (er + 1). split; [done|].
    replace (er + 1 - er) with 1 by lia. split; [|right].
    + change (2 ^ 53) with 9007199254740992 in *. change (2 ^ 1) with 2. lia.
    + split; [done|]. split; [lia|done].
Qed.

Lemma F64_add_pos (m1 m2 : positive) (e1 e2 : Z) :
  F64.add (S754_finite false m1 e1) (S754_finite false m2 e2)
  = binary_normalize F64.prec F64.emax
      (Zpos m1 * 2 ^ (e1 - Z.min e1 e2) + Zpos m2 * 2 ^ (e2 - Z.min e1 e2))
      (Z.min e1 e2) false.
Proof.
  unfold F64.add, SFadd. cbv zeta. cbn [cond_Zopp].
  pose proof (shl_align_spec m1 e1 (Z.min e1 e2)) as (_ & H1 & _).
  pose proof (shl_align_spec m2 e2 (Z.min e1 e2)) as (_ & H2 & _).
  change IntDef.Z.min with Z.min.
  rewrite H1, H2.
  replace (Z.min e1 (Z.min e1 e2)) with (Z.min e1 e2) by lia.
  replace (Z.min e2 (Z.min e1 e2)) with (Z.min e1 e2) by lia.
  done.
Qed.

Lemma SFadd_comm (prec emax : Z) (x y : spec_float) :
  SFadd prec emax x y = SFadd prec emax y x.
Proof.
  destruct x as [sx|sx| |sx mx ex], y as [sy|sy| |sy my ey]; simpl; try done.
  - by destruct sx, sy.
  - by destruct sx, sy.
  - change IntDef.Z.min with Z.min. rewrite (Z.min_comm ey ex). f_equal. lia.
Qed.

Lemma quot53_self (n : Z) : 0 < n < 2 ^ 32 -> quot53 n n = F64.one.
Proof.
  intros Hn.
  destruct (quot53_char n n ltac:(lia) ltac:(lia))
    as (mr & er & -> & Hmr & Her & Herr & Hbin).
  assert (Hp : 0 < 2 ^ (- er)) by (apply Z.pow_pos_nonneg; lia).
  assert (2 ^ 52 <= 2 ^ (- er) < 2 ^ 53) as [Hlo Hhi] by nia.
  assert (er = -52) as ->.
  { destruct (Z.le_gt_cases 53 (- er)) as [Hge|Hlt]; [|lia].
    pose proof (Z.pow_le_mono_r 2 53 (- er) ltac:(lia) Hge). lia. }
  change (2 ^ (1 - -52)) with (2 * 2 ^ 52) in Herr.
  assert (mr = 2 ^ 52) as -> by nia.
  done.
Qed.


Lemma pow2_split (x y : Z) : 0 <= x -> 0 <= y -> 2 ^ (x + y) = 2 ^ x * 2 ^ y.
Proof. intros. by rewrite Z.pow_add_r. Qed.

Lemma quot53_binade_53 (a n er : Z) :
  0 < a < n -> n <= 2 * a -> -100 <= er <= -52 ->
  n * 2 ^ 52 <= a * 2 ^ (- er) < n * 2 ^ 53 -> er = -53.
Proof.
  intros Ha Hn Her [Hlo Hhi].
  destruct (Z.le_gt_cases (- er) 52) as [H52|H52].
  - pose proof (Z.pow_le_mono_r 2 (- er) 52 ltac:(lia) H52).
    assert (0 < 2 ^ (- er)) by (apply Z.pow_pos_nonneg; lia). nia.
  - destruct (Z.le_gt_cases 54 (- er)) as [H54|H54]; [|lia].
    pose proof (Z.pow_le_mono_r 2 54 (- er) ltac:(lia) H54).
    change (2 ^ 54) with (2 * 2 ^ 53) in *. nia.
Qed.

Lemma quot53_half (a : Z) :
  0 < a -> 2 * a < 2 ^ 32 ->
  quot53 a (2 * a) = S754_finite false 4503599627370496 (-53).
Proof.
  intros Ha Hn.
  destruct (quot53_char a (2 * a) ltac:(lia) ltac:(lia))
    as (mr & er & -> & Hmr & Her & Herr & Hbin).
  assert (er = -53) as -> by (apply (quot53_binade_53 a (2 * a)); lia).
  change (2 ^ (1 - -53)) with (4 * 2 ^ 52) in Herr.
  assert (mr = 2 ^ 52) as -> by nia.
  done.
Qed.

Lemma quot53_sum_gt (a b n : Z) :
  0 < b < a -> a + b = n -> n < 2 ^ 32 ->
  F64.add (quot53 a n) (quot53 b n) = F64.one.
Proof.
  intros Hab Hsum Hn.
  destruct (quot53_char a n ltac:(lia) ltac:(lia))
    as (m1 & e1 & -> & Hm1 & He1 & Herr1 & Hbin1).
  destruct (quot53_char b n ltac:(lia) ltac:(lia))
    as (m2 & e2 & -> & Hm2 & He2 & Herr2 & Hbin2).
  assert (e1 = -53) as -> by (apply (quot53_binade_53 a n); lia).
  (* the smaller quotient lies in a strictly lower binade *)
  assert (He2' : e2 <= -54).
  { destruct (Z.le_gt_cases (- e2) 53) as [H53|H53]; [|lia]. exfalso.
    pose proof (Z.pow_le_mono_r 2 (- e2) 53 ltac:(lia) H53).
    assert (0 < 2 ^ (- e2)) by (apply Z.pow_pos_nonneg; lia).
    destruct Hbin2 as [Hlo _]. change (2 ^ 53) with (2 * 2 ^ 52) in *. nia. }
  set (j := -53 - e2) in *.
  assert (Hj : 1 <= j <= 47) by (subst j; lia).
  assert (HJ : 2 ^ j = 2 * 2 ^ (j - 1))
    by (rewrite <- Z.pow_succ_r by lia; f_equal; lia).
  assert (Hh : 0 < 2 ^ (j - 1)) by (apply Z.pow_pos_nonneg; lia).
  set (h := 2 ^ (j - 1)) in *.
  assert (Hp2 : 2 ^ (1 - e2) = 2 ^ 54 * 2 ^ j)
    by (rewrite <- pow2_split by lia; f_equal; subst j; lia).
  change (2 ^ (1 - -53)) with (2 ^ 54) in Herr1.
  rewrite Hp2, HJ in Herr2.
  destruct (canon53_value m1 (-53) Hm1) as (p1 & f1 & -> & Hv1 & Hf1).
  destruct (canon53_value m2 e2 Hm2) as (p2 & f2 & -> & Hv2 & Hf2).
  rewrite F64_add_pos.
  set (fz := Z.min f1 f2).
  assert (Hfz : e2 <= fz <= -53) by (subst fz; lia).
  assert (Hs : 0 < 2 ^ (fz - e2)) by (apply Z.pow_pos_nonneg; lia).
  assert (HA1 : 2 ^ (f1 - fz) * 2 ^ (fz - e2) = 2 ^ (f1 - -53) * (2 * h)).
  { rewrite <- HJ, <- !pow2_split by (subst fz j; lia). f_equal. subst j. lia. }
  assert (HA2 : 2 ^ (f2 - fz) * 2 ^ (fz - e2) = 2 ^ (f2 - e2)).
  { rewrite <- !pow2_split by (subst fz; lia). f_equal. lia. }
  assert (HX : 2 ^ (- fz) * 2 ^ (fz - e2) = 2 ^ 53 * (2 * h)).
  { rewrite <- HJ, <- !pow2_split by (subst j; lia). f_equal. subst j. lia. }
  set (A1 := 2 ^ (f1 - fz)) in *. set (A2 := 2 ^ (f2 - fz)) in *.
  set (s := 2 ^ (fz - e2)) in *. set (X := 2 ^ (- fz)) in *.
  set (B1 := 2 ^ (f1 - -53)) in *. set (B2 := 2 ^ (f2 - e2)) in *.
  set (M := Zpos p1 * A1 + Zpos p2 * A2).
  assert (HMs : M * s = m1 * (2 * h) + m2).
  { unfold M. rewrite Z.mul_add_distr_r, <- !Z.mul_assoc, HA1, HA2.
    rewrite <- Hv1, <- Hv2. ring. }
  assert (Hbound : - h <= M * s - X * s <= h).
  { rewrite HMs, HX. change (2 ^ 54) with (2 * 2 ^ 53) in *.
    assert (Hn0 : 0 < n) by lia.
    set (E1 := 2 * n * m1 - a * (2 * 2 ^ 53)) in *.
    set (E2 := 2 * n * m2 - b * (2 * 2 ^ 53 * (2 * h))) in *.
    assert (Hsplit : n * (2 * ((m1 * (2 * h) + m2) - 2 ^ 53 * (2 * h)))
                     = E1 * (2 * h) + E2).
    { unfold E1, E2. rewrite <- Hsum. ring. }
    assert (HE1 : - (n * (2 * h)) <= E1 * (2 * h) <= n * (2 * h)).
    { clear -Herr1 Hh. nia. }
    set (D := (m1 * (2 * h) + m2) - 2 ^ 53 * (2 * h)) in *.
    assert (HD : - (n * (2 * h + 1)) <= n * (2 * D) <= n * (2 * h + 1)) by lia.
    destruct HD as [HDl HDu].
    apply (Z.mul_le_mono_pos_l _ _ n Hn0) in HDu.
    rewrite <- Z.mul_opp_r in HDl.
    apply (Z.mul_le_mono_pos_l _ _ n Hn0) in HDl.
    fold D. lia. }
  apply binary_normalize_one; fold X; fold M.
  - lia.
  - apply (Z.mul_le_mono_pos_r _ _ s Hs).
    replace (2 ^ 54 * (X - M) * s) with (2 ^ 54 * (X * s - M * s)) by ring.
    clear -Hbound HX. revert Hbound HX.
    generalize (M * s) (X * s). intros Ms Xs Hbound ->.
    change (2 ^ 54) with 18014398509481984.
    change (2 ^ 53) with 9007199254740992. lia.
  - apply (Z.mul_le_mono_pos_r _ _ s Hs).
    replace (2 ^ 53 * (M - X) * s) with (2 ^ 53 * (M * s - X * s)) by ring.
    clear -Hbound HX Hh. revert Hbound HX.
    generalize (M * s) (X * s). intros Ms Xs Hbound ->.
    change (2 ^ 53) with 9007199254740992. lia.
Qed.

Lemma F64_of_Z_pos_finite (n : Z) :
  0 < n < 2 ^ 53 -> exists m e, F64.of_Z n = S754_finite false m e.
Proof. intros Hn. rewrite F64_of_Z_exact by done. eauto. Qed.

Lemma quot53_zero (n : Z) : 0 < n < 2 ^ 32 -> quot53 0 n = S754_zero false.
Proof.
  intros Hn.
  assert (Hn53 : 2 ^ 32 < 2 ^ 53) by done.
  destruct (F64_of_Z_pos_finite n ltac:(lia)) as (m & e & E).
  unfold quot53. by rewrite E.
Qed.

Lemma quot53_sum (a b n : Z) :
  0 <= a -> 0 <= b -> a + b = n -> 0 < n < 2 ^ 32 ->
  F64.add (quot53 a n) (quot53 b n) = F64.one.
Proof.
  intros Ha Hb Hsum Hn.
  destruct (Z.eq_dec a 0) as [->|Ha0].
  { replace b with n by lia. by rewrite quot53_zero, quot53_self. }
  destruct (Z.eq_dec b 0) as [->|Hb0].
  { replace a with n by lia. by rewrite quot53_zero, quot53_self. }
  destruct (Z.lt_trichotomy a b) as [Hlt|[->|Hgt]].
  - unfold F64.add. rewrite SFadd_comm. apply (quot53_sum_gt b a n); lia.
  - replace n with (2 * b) by lia. by rewrite quot53_half by lia.
  - apply (quot53_sum_gt a b n); lia.
Qed.

Lemma quot53_range (a n : Z) :
  0 <= a <= n -> 0 < n < 2 ^ 32 ->
  F64.leb F64.zero (quot53 a n) = true /\ F64.leb (quot53 a n) F64.one = true.
Proof.
  intros Ha Hn.
  destruct (Z.eq_dec a 0) as [->|Ha0]; [by rewrite quot53_zero|].
  destruct (quot53_char a n ltac:(lia) ltac:(lia))
    as (mr & er & -> & Hmr & Her & Herr & Hbin).
  destruct (canon53_value mr er Hmr) as (p & f & -> & Hv & Hf).
  split; [done|].
  unfold F64.leb, SFleb, F64.one, SFcompare.
  destruct (Z.eq_dec er (-52)) as [->|Her52].
  - (* only [a = n] reaches the binade of 1 *)
    change (2 ^ (- -52)) with (2 ^ 52) in Hbin.
    change (2 ^ (1 - -52)) with (2 * 2 ^ 52) in Herr.
    assert (a = n) as -> by nia.
    assert (mr = 2 ^ 52) as -> by nia.
    destruct Hf as [->|(_ & Hc & _)]; [|done].
    rewrite Z.sub_diag in Hv. change (2 ^ 0) with 1 in Hv.
    assert (p = 4503599627370496%positive) as -> by
      (change (2 ^ 52) with 4503599627370496 in Hv; lia).
    done.
  - destruct Hf as [->|(-> & _ & ->)].
    + by replace (er ?= -52) with Lt by (symmetry; apply Z.compare_lt_iff; lia).
    + destruct (Z.eq_dec er (-53)) as [->|]; [done|].
      by replace (er + 1 ?= -52) with Lt by (symmetry; apply Z.compare_lt_iff; lia).
Qed.

(** ** The filterbank table *)

Lemma ramp_store_inv (rows cols : nat) (filters filters' : list (list f64))
    (w : ramp_write) :
  table_dims rows cols filters -> ramp_store filters w = Some filters' ->
  0 <= rw_row w < Z.of_nat rows /\ 0 <= rw_col w < Z.of_nat cols /\
  filters' = set2 filters (Z.to_nat (rw_row w)) (Z.to_nat (rw_col w)) (ramp_weight w).
Proof.
  intros Hd. pose proof Hd as [Hlen _]. unfold ramp_store.
  destruct (Z.leb_spec 0 (rw_row w)) as [Hr0|]; [|done].
  destruct (Z.ltb_spec (rw_row w) (Z.of_nat (length filters))) as [Hr1|]; [|done].
  destruct (Z.leb_spec 0 (rw_col w)) as [Hc0|]; [|done].
  rewrite (table_dims_row rows cols) by (done || lia).
  destruct (Z.ltb_spec (rw_col w) (Z.of_nat cols)) as [Hc1|]; [|done].
  simpl. intros [= <-]. repeat split; lia.
Qed.

Lemma ramp_fold_in_range (rows cols : nat) (ws : list ramp_write)
    (filters filters' : list (list f64)) (w : ramp_write) :
  table_dims rows cols filters ->
  foldl (fun acc w => acc ≫= fun filters => ramp_store filters w) (Some filters) ws
  = Some filters' ->
  w ∈ ws ->
  0 <= rw_row w < Z.of_nat rows /\ 0 <= rw_col w < Z.of_nat cols.
Proof.
  revert filters. induction ws as [|w0 ws IH]; intros filters Hd; simpl.
  - intros _ Hw. by apply elem_of_nil in Hw.
  - destruct (ramp_store filters w0) as [f1|] eqn:E;
      [|by rewrite ramp_fold_None].
    intros Hfold Hw. apply elem_of_cons in Hw as [->|Hw].
    + by destruct (ramp_store_inv rows cols _ _ _ Hd E) as (? & ? & _).
    + apply (IH f1); [by eapply ramp_store_dims|done|done].
Qed.

Lemma ramp_fold_value (rows cols : nat) (ws : list ramp_write)
    (filters filters' : list (list f64)) (r c : Z) (v : f64) :
  table_dims rows cols filters ->
  foldl (fun acc w => acc ≫= fun filters => ramp_store filters w) (Some filters) ws
  = Some filters' ->
  0 <= r -> 0 <= c ->
  (forall w, w ∈ ws -> rw_row w = r -> rw_col w = c -> ramp_weight w = v) ->
  at2 filters (Z.to_nat r) (Z.to_nat c) = v \/
    (exists w, w ∈ ws /\ rw_row w = r /\ rw_col w = c) ->
  at2 filters' (Z.to_nat r) (Z.to_nat c) = v.
Proof.
  intros Hd Hfold Hr Hc. revert filters Hd Hfold.
  induction ws as [|w0 ws IH]; intros filters Hd; simpl.
  - intros [= <-] _ [H|(w & Hw & _)]; [done|]. by apply elem_of_nil in Hw.
  - destruct (ramp_store filters w0) as [f1|] eqn:E;
      [|by rewrite ramp_fold_None].
    intros Hfold Hv Hcase.
    destruct (ramp_store_inv rows cols _ _ _ Hd E) as (Hr0 & Hc0 & ->).
    apply (IH (set2 filters (Z.to_nat (rw_row w0)) (Z.to_nat (rw_col w0))
                 (ramp_weight w0))).
    + by apply table_dims_set2.
    + done.
    + intros w Hw. apply Hv. by apply elem_of_cons; right.
    + rewrite (at2_set2 rows cols) by (done || lia).
      destruct (Nat.eqb_spec (Z.to_nat r) (Z.to_nat (rw_row w0))) as [Er|Er];
        destruct (Nat.eqb_spec (Z.to_nat c) (Z.to_nat (rw_col w0))) as [Ec|Ec];
        simpl.
      * left. apply Hv; [by apply elem_of_cons; left|lia|lia].
      * destruct Hcase as [H|(w & Hw & Hwr & Hwc)]; [by left|right].
        apply elem_of_cons in Hw as [->|Hw]; [lia|]. by exists w.
      * destruct Hcase as [H|(w & Hw & Hwr & Hwc)]; [by left|right].
        apply elem_of_cons in Hw as [->|Hw]; [lia|]. by exists w.
      * destruct Hcase as [H|(w & Hw & Hwr & Hwc)]; [by left|right].
        apply elem_of_cons in Hw as [->|Hw]; [lia|]. by exists w.
Qed.

Lemma at2_replicate (rows cols : nat) (x : spec_float) (i j : nat) :
  (i < rows)%nat -> (j < cols)%nat ->
  at2 (replicate rows (replicate cols x)) i j = x.
Proof.
  intros Hi Hj. unfold at2, nth_v, nth_f.
  rewrite lookup_replicate_2 by done. simpl. by rewrite lookup_replicate_2.
Qed.

Lemma up_ramp_elem (bin : list Z) (m k : Z) :
  nth_Z bin (m - 1) <= k < nth_Z bin m ->
  {| rw_row := m - 1; rw_col := k; rw_num := k - nth_Z bin (m - 1);
     rw_den := nth_Z bin m - nth_Z bin (m - 1) |} ∈ up_ramp bin m.
Proof.
  intros Hk. unfold up_ramp. apply list_elem_of_fmap. exists k.
  split; [done|]. by apply elem_of_int_range.
Qed.

Lemma down_ramp_elem (bin : list Z) (m k : Z) :
  nth_Z bin m <= k < nth_Z bin (m + 1) ->
  {| rw_row := m - 1; rw_col := k; rw_num := nth_Z bin (m + 1) - k;
     rw_den := nth_Z bin (m + 1) - nth_Z bin m |} ∈ down_ramp bin m.
Proof.
  intros Hk. unfold down_ramp. apply list_elem_of_fmap. exists k.
  split; [done|]. by apply elem_of_int_range.
Qed.

(** A cell is assigned by at most one loop iteration: the two ramps of a
    filter cover disjoint columns. *)
Lemma ramp_writes_key (bin : list Z) (num_filters : Z) (w w' : ramp_write) :
  w ∈ ramp_writes bin num_filters -> w' ∈ ramp_writes bin num_filters ->
  rw_row w' = rw_row w -> rw_col w' = rw_col w -> w' = w.
Proof.
  intros Hw Hw' Hr Hc.
  apply elem_of_ramp_writes in Hw as (m & _ & Hw).
  apply elem_of_ramp_writes in Hw' as (m' & _ & Hw').
  destruct w as [r c a n], w' as [r' c' a' n']. simpl in Hr, Hc. subst r' c'.
  destruct Hw as [Hw|Hw], Hw' as [Hw'|Hw'];
    (apply elem_of_up_ramp in Hw || apply elem_of_down_ramp in Hw);
    (apply elem_of_up_ramp in Hw' || apply elem_of_down_ramp in Hw');
    simpl in Hw, Hw';
    destruct Hw as (Hm & Hk & -> & ->), Hw' as (Hm' & Hk' & -> & ->);
    assert (m' = m) as -> by lia; (done || lia).
Qed.

Lemma fill_filters_in_range (num_filters fft_size : Z) (bin : list Z)
    (filters : list (list f64)) (w : ramp_write) :
  fill_filters num_filters fft_size bin = Some filters ->
  w ∈ ramp_writes bin num_filters ->
  0 <= rw_row w < num_filters /\ 0 <= rw_col w < filter_cols fft_size.
Proof.
  intros Hfill Hw. apply fill_filters_fold in Hfill as (_ & _ & Hfold).
  pose proof (ramp_fold_in_range _ _ _ _ _ w (table_dims_replicate _ _ _) Hfold Hw).
  lia.
Qed.

Lemma fill_filters_written (num_filters fft_size : Z) (bin : list Z)
    (filters : list (list f64)) (w : ramp_write) :
  fill_filters num_filters fft_size bin = Some filters ->
  w ∈ ramp_writes bin num_filters ->
  at2 filters (Z.to_nat (rw_row w)) (Z.to_nat (rw_col w)) = ramp_weight w.
Proof.
  intros Hfill Hw.
  destruct (fill_filters_in_range _ _ _ _ _ Hfill Hw) as [Hr Hc].
  apply fill_filters_fold in Hfill as (_ & _ & Hfold).
  eapply ramp_fold_value;
    [apply table_dims_replicate|exact Hfold|lia|lia| |right; by exists w].
  intros w' Hw' Er Ec. by rewrite (ramp_writes_key bin num_filters w w').
Qed.

Lemma fill_filters_blank (num_filters fft_size : Z) (bin : list Z)
    (filters : list (list f64)) (r c : Z) :
  fill_filters num_filters fft_size bin = Some filters ->
  0 <= r < num_filters -> 0 <= c < filter_cols fft_size ->
  (forall w, w ∈ ramp_writes bin num_filters -> rw_row w = r -> rw_col w <> c) ->
  at2 filters (Z.to_nat r) (Z.to_nat c) = F64.zero.
Proof.
  intros Hfill Hr Hc Hnone. apply fill_filters_fold in Hfill as (_ & _ & Hfold).
  eapply ramp_fold_value;
    [apply table_dims_replicate|exact Hfold|lia|lia| |left].
  - intros w Hw Er Ec. by destruct (Hnone w Hw Er).
  - apply at2_replicate; lia.
Qed.

(** The spans divided by are at most the row length. *)
Lemma fill_filters_span (num_filters fft_size : Z) (bin : list Z)
    (filters : list (list f64)) (w : ramp_write) :
  fill_filters num_filters fft_size bin = Some filters ->
  w ∈ ramp_writes bin num_filters ->
  0 <= rw_num w <= rw_den w /\ 0 < rw_den w <= filter_cols fft_size.
Proof.
  intros Hfill Hw. pose proof Hw as Hw0.
  apply elem_of_ramp_writes in Hw as (m & Hm & [Hw|Hw]).
  - apply elem_of_up_ramp in Hw as (Hrow & Hk & -> & ->).
    assert (Hfirst : {| rw_row := m - 1; rw_col := nth_Z bin (m - 1);
                        rw_num := nth_Z bin (m - 1) - nth_Z bin (m - 1);
                        rw_den := nth_Z bin m - nth_Z bin (m - 1) |}
                     ∈ ramp_writes bin num_filters).
    { apply elem_of_ramp_writes. exists m. split; [done|left].
      apply up_ramp_elem. lia. }
    assert (Hlast : {| rw_row := m - 1; rw_col := nth_Z bin m - 1;
                       rw_num := nth_Z bin m - 1 - nth_Z bin (m - 1);
                       rw_den := nth_Z bin m - nth_Z bin (m - 1) |}
                    ∈ ramp_writes bin num_filters).
    { apply elem_of_ramp_writes. exists m. split; [done|left].
      apply up_ramp_elem. lia. }
    apply (fill_filters_in_range _ _ _ _ _ Hfill) in Hfirst as [_ Hf].
    apply (fill_filters_in_range _ _ _ _ _ Hfill) in Hlast as [_ Hl].
    simpl in Hf, Hl. lia.
  - apply elem_of_down_ramp in Hw as (Hrow & Hk & -> & ->).
    assert (Hfirst : {| rw_row := m - 1; rw_col := nth_Z bin m;
                        rw_num := nth_Z bin (m + 1) - nth_Z bin m;
                        rw_den := nth_Z bin (m + 1) - nth_Z bin m |}
                     ∈ ramp_writes bin num_filters).
    { apply elem_of_ramp_writes. exists m. split; [done|right].
      apply down_ramp_elem. lia. }
    assert (Hlast : {| rw_row := m - 1; rw_col := nth_Z bin (m + 1) - 1;
                       rw_num := nth_Z bin (m + 1) - (nth_Z bin (m + 1) - 1);
                       rw_den := nth_Z bin (m + 1) - nth_Z bin m |}
                    ∈ ramp_writes bin num_filters).
    { apply elem_of_ramp_writes. exists m. split; [done|right].
      apply down_ramp_elem. lia. }
    apply (fill_filters_in_range _ _ _ _ _ Hfill) in Hfirst as [_ Hf].
    apply (fill_filters_in_range _ _ _ _ _ Hfill) in Hlast as [_ Hl].
    simpl in Hf, Hl. lia.
Qed.

(** Every cell of row [r] (filter [r + 1]) is a rising weight, a falling
    weight or the initial [0.0]. *)
Lemma fill_filters_cell (num_filters fft_size : Z) (bin : list Z)
    (filters : list (list f64)) (r c : Z) :
  fill_filters num_filters fft_size bin = Some filters ->
  0 <= r < num_filters -> 0 <= c < filter_cols fft_size ->
  (nth_Z bin r <= c < nth_Z bin (r + 1) /\
   nth_Z bin (r + 1) - nth_Z bin r <= filter_cols fft_size /\
   at2 filters (Z.to_nat r) (Z.to_nat c)
   = quot53 (c - nth_Z bin r) (nth_Z bin (r + 1) - nth_Z bin r)) \/
  (nth_Z bin (r + 1) <= c < nth_Z bin (r + 2) /\
   nth_Z bin (r + 2) - nth_Z bin (r + 1) <= filter_cols fft_size /\
   at2 filters (Z.to_nat r) (Z.to_nat c)
   = quot53 (nth_Z bin (r + 2) - c) (nth_Z bin (r + 2) - nth_Z bin (r + 1))) \/
  (~ nth_Z bin r <= c < nth_Z bin (r + 1) /\
   ~ nth_Z bin (r + 1) <= c < nth_Z bin (r + 2) /\
   at2 filters (Z.to_nat r) (Z.to_nat c) = F64.zero).
Proof.
  intros Hfill Hr Hc.
  destruct (decide (nth_Z bin r <= c < nth_Z bin (r + 1))) as [Hup|Hnup].
  { left. split; [done|].
    pose proof (up_ramp_elem bin (r + 1) c) as Hw.
    replace (r + 1 - 1) with r in Hw by lia. specialize (Hw Hup).
    assert (Hin : {| rw_row := r; rw_col := c; rw_num := c - nth_Z bin r;
                     rw_den := nth_Z bin (r + 1) - nth_Z bin r |}
                  ∈ ramp_writes bin num_filters).
    { apply elem_of_ramp_writes. exists (r + 1). split; [lia|by left]. }
    split; [apply (fill_filters_span _ _ _ _ _ Hfill Hin)|].
    apply (fill_filters_written _ _ _ _ _ Hfill Hin). }
  destruct (decide (nth_Z bin (r + 1) <= c < nth_Z bin (r + 2))) as [Hdn|Hndn].
  { right; left. split; [done|].
    pose proof (down_ramp_elem bin (r + 1) c) as Hw.
    replace (r + 1 - 1) with r in Hw by lia.
    replace (r + 1 + 1) with (r + 2) in Hw by lia. specialize (Hw Hdn).
    assert (Hin : {| rw_row := r; rw_col := c; rw_num := nth_Z bin (r + 2) - c;
                     rw_den := nth_Z bin (r + 2) - nth_Z bin (r + 1) |}
                  ∈ ramp_writes bin num_filters).
    { apply elem_of_ramp_writes. exists (r + 1). split; [lia|by right]. }
    split; [apply (fill_filters_span _ _ _ _ _ Hfill Hin)|].
    apply (fill_filters_written _ _ _ _ _ Hfill Hin). }
  right; right. split; [done|]. split; [done|].
  apply (fill_filters_blank num_filters fft_size bin); [done..|].
  intros w Hw Er Ec. apply elem_of_ramp_writes in Hw as (m & _ & [Hw|Hw]).
  - apply elem_of_up_ramp in Hw as (Hrow & Hk & _).
    assert (m = r + 1) as -> by lia.
    replace (r + 1 - 1) with r in Hk by lia. lia.
  - apply elem_of_down_ramp in Hw as (Hrow & Hk & _).
    assert (m = r + 1) as -> by lia.
    replace (r + 1 + 1) with (r + 2) in Hk by lia. lia.
Qed.

Lemma nth_Z_monotone (bin : list Z) (n : Z) :
  (forall i, 0 <= i < n -> nth_Z bin i <= nth_Z bin (i + 1)) ->
  forall i j, 0 <= i <= j -> j <= n -> nth_Z bin i <= nth_Z bin j.
Proof.
  intros Hstep i j Hij Hj.
  replace j with (i + Z.of_nat (Z.to_nat (j - i))) in * by lia.
  induction (Z.to_nat (j - i)) as [|d IH].
  - replace (i + Z.of_nat 0) with i by lia. lia.
  - etrans; [apply IH; lia|].
    replace (i + Z.of_nat (S d)) with (i + Z.of_nat d + 1) by lia.
    apply Hstep. lia.
Qed.

Section FilterbankWeights.

Variables log10_d : f64 -> f64.
Variable pow_d : f64 -> f64 -> f64.

(** C8. Whenever create_mel_filterbanks returns a table (an FFT size that
    fits an int, bin indices computed by log10 and pow that do not
    decrease), every weight filters[r][c] lies in [0, 1] as a double; two
    filters with a non-zero weight at the same power-spectrum bin are
    adjacent, so a bin has non-zero weight in at most two filters; and on
    every overlap region bin[m] <= k < bin[m+1] the falling weight of
    filter m plus the rising weight of filter m+1 at k is exactly 1.0
    under double addition. *)
Theorem create_mel_filterbanks_weights (num_filters fft_size sample_rate : Z)
    (bin : list Z) (filters : list (list f64)) :
  fft_size < 2 ^ 31 ->
  mel_bins log10_d pow_d num_filters fft_size sample_rate = Some bin ->
  (forall i, 0 <= i < num_filters + 1 -> nth_Z bin i <= nth_Z bin (i + 1)) ->
  create_mel_filterbanks log10_d pow_d num_filters fft_size sample_rate
  = Some filters ->
  (forall r c, 0 <= r < num_filters -> 0 <= c <= fft_size / 2 ->
     F64.leb F64.zero (at2 filters (Z.to_nat r) (Z.to_nat c)) = true /\
     F64.leb (at2 filters (Z.to_nat r) (Z.to_nat c)) F64.one = true) /\
  (forall r r' c, 0 <= r < r' -> r' < num_filters -> 0 <= c <= fft_size / 2 ->
     is_zero (at2 filters (Z.to_nat r) (Z.to_nat c)) = false ->
     is_zero (at2 filters (Z.to_nat r') (Z.to_nat c)) = false ->
     r' = r + 1) /\
  (forall m k, 1 <= m < num_filters -> nth_Z bin m <= k < nth_Z bin (m + 1) ->
     F64.add (at2 filters (Z.to_nat (m - 1)) (Z.to_nat k))
             (at2 filters (Z.to_nat m) (Z.to_nat k)) = F64.one).
Proof.
  intros Hfft Hbin Hsorted Hcreate.
  unfold create_mel_filterbanks in Hcreate. rewrite Hbin in Hcreate.
  simpl in Hcreate.
  pose proof (filter_cols_bound fft_size Hfft) as Hspan.
  pose proof (nth_Z_monotone bin (num_filters + 1) Hsorted) as Hmono.
  split; [|split].
  - intros r c Hr Hc. pose proof (filter_cols_floor fft_size c Hc) as Hq.
    destruct (fill_filters_cell _ _ _ _ r c Hcreate Hr ltac:(lia))
      as [(Hk & Hd & ->)|[(Hk & Hd & ->)|(_ & _ & ->)]].
    + apply quot53_range; lia.
    + apply quot53_range; lia.
    + done.
  - intros r r' c Hr Hr' Hc Hnz Hnz'.
    pose proof (filter_cols_floor fft_size c Hc) as Hq.
    assert (Hlt : c < nth_Z bin (r + 2)).
    { destruct (fill_filters_cell _ _ _ _ r c Hcreate ltac:(lia) ltac:(lia))
        as [(Hk & _)|[(Hk & _)|(_ & _ & Hz)]].
      - pose proof (Hsorted (r + 1) ltac:(lia)) as Hs.
        replace (r + 1 + 1) with (r + 2) in Hs by lia. lia.
      - lia.
      - by rewrite Hz in Hnz. }
    assert (Hge : nth_Z bin r' <= c).
    { destruct (fill_filters_cell _ _ _ _ r' c Hcreate ltac:(lia) ltac:(lia))
        as [(Hk & _)|[(Hk & _)|(_ & _ & Hz)]].
      - lia.
      - pose proof (Hsorted r' ltac:(lia)). lia.
      - by rewrite Hz in Hnz'. }
    destruct (Z.le_gt_cases (r + 2) r') as [Hfar|]; [|lia].
    pose proof (Hmono (r + 2) r' ltac:(lia) ltac:(lia)). lia.
  - intros m k Hm Hk.
    assert (Hdown : {| rw_row := m - 1; rw_col := k;
                       rw_num := nth_Z bin (m + 1) - k;
                       rw_den := nth_Z bin (m + 1) - nth_Z bin m |}
                    ∈ ramp_writes bin num_filters).
    { apply elem_of_ramp_writes. exists m. split; [lia|right].
      by apply down_ramp_elem. }
    assert (Hup : {| rw_row := m; rw_col := k;
                     rw_num := k - nth_Z bin m;
                     rw_den := nth_Z bin (m + 1) - nth_Z bin m |}
                  ∈ ramp_writes bin num_filters).
    { apply elem_of_ramp_writes. exists (m + 1). split; [lia|left].
      pose proof (up_ramp_elem bin (m + 1) k) as Hw.
      replace (m + 1 - 1) with m in Hw by lia. by apply Hw. }
    pose proof (fill_filters_span _ _ _ _ _ Hcreate Hdown) as [_ Hden].
    pose proof (fill_filters_written _ _ _ _ _ Hcreate Hdown) as Ed.
    pose proof (fill_filters_written _ _ _ _ _ Hcreate Hup) as Eu.
    unfold ramp_weight in Ed, Eu.
    cbn [rw_row rw_col rw_num rw_den] in Hden, Ed, Eu. rewrite Ed, Eu.
    apply (quot53_sum (nth_Z bin (m + 1) - k) (k - nth_Z bin m)); lia.
Qed.

End FilterbankWeights.

Lemma create_mel_filterbanks_weights_witness :
  let lg := fun x : f64 => x in
  let pw := fun _ y : f64 => F64.add y F64.one in
  exists filters,
    create_mel_filterbanks lg pw 4 32 48000 = Some filters /\
    mel_bins lg pw 4 32 48000 = Some [0; 3; 6; 10; 13; 16] /\
    at2 filters 0 4 = S754_finite false 6004799503160661 (-53) /\
    at2 filters 1 4 = S754_finite false 6004799503160661 (-54) /\
    F64.leb (at2 filters 0 4) F64.one = true /\
    F64.add (at2 filters 0 4) (at2 filters 1 4) = F64.one.
Proof.
  intros lg pw.
  destruct (create_mel_filterbanks lg pw 4 32 48000) as [filters|] eqn:E;
    [|by vm_compute in E].
  exists filters.
  assert (Hbin : mel_bins lg pw 4 32 48000 = Some [0; 3; 6; 10; 13; 16])
    by (vm_compute; reflexivity).
  assert (Hsorted : forall i, 0 <= i < 4 + 1 ->
            nth_Z [0; 3; 6; 10; 13; 16] i <= nth_Z [0; 3; 6; 10; 13; 16] (i + 1)).
  { intros i Hi.
    assert (i = 0 \/ i = 1 \/ i = 2 \/ i = 3 \/ i = 4) as Hcases by lia.
    destruct Hcases as [->|[->|[->|[->| ->]]]]; vm_compute; discriminate. }
  destruct (create_mel_filterbanks_weights lg pw 4 32 48000 _ filters
              ltac:(reflexivity) Hbin Hsorted E) as (Hrange & _ & Hsum).
  split; [done|]. split; [done|].
  assert (Hle : F64.leb (at2 filters 0 4) F64.one = true).
  { apply (Hrange 0 4); [lia|]. change (32 / 2) with 16. lia. }
  assert (Hone : F64.add (at2 filters 0 4) (at2 filters 1 4) = F64.one).
  { apply (Hsum 1 4); [lia|]. unfold nth_Z. simpl. lia. }
  split; [|split; [|split; [exact Hle|exact Hone]]].
  - clear -E. vm_compute in E. injection E as <-. reflexivity.
  - clear -E. vm_compute in E. injection E as <-. reflexivity.
Defined.

(** * Further properties of the code *)

(** ** Sizes chosen by the transform *)

Lemma for_range_length {A : Type} (lo count : nat) (body : nat -> list A -> list A)
    (s : list A) :
  (forall k t, length (body k t) = length t) ->
  length (for_range lo count body s) = length s.
Proof.
  intros Hbody. revert lo s. induction count as [|c IH]; intros lo s; simpl; [done|].
  by rewrite IH, Hbody.
Qed.

(** [while (x < n) x <<= 1] from a power of two, with enough iterations:
    the least power of two reached from [x] that is at least [n]. *)
Lemma double_until_spec (fuel : nat) (j n : Z) :
  0 <= j -> n <= 2 ^ (j + Z.of_nat fuel) ->
  exists k, j <= k /\ double_until fuel (2 ^ j) n = 2 ^ k /\ n <= 2 ^ k /\
            (k = j \/ 2 ^ (k - 1) < n).
Proof.
  revert j. induction fuel as [|f IH]; intros j Hj Hn; simpl.
  - exists j. replace (j + Z.of_nat 0) with j in Hn by lia. split; [lia|]. auto.
  - destruct (Z.ltb_spec (2 ^ j) n) as [Hlt|Hge].
    + replace (2 * 2 ^ j) with (2 ^ (j + 1))
        by (rewrite Z.pow_add_r by lia; change (2 ^ 1) with 2; lia).
      destruct (IH (j + 1) ltac:(lia)) as (k & Hk & -> & Hle & Hmin).
      { by replace (j + 1 + Z.of_nat f) with (j + Z.of_nat (S f)) by lia. }
      exists k. split; [lia|]. split; [done|]. split; [done|].
      right. destruct Hmin as [->|Hmin]; [|done].
      by replace (j + 1 - 1) with j by lia.
    + exists j. split; [lia|]. auto.
Qed.

Lemma pow2_gt_lin (n : nat) : Z.of_nat n <= 2 ^ Z.of_nat n.
Proof. pose proof (Z.pow_gt_lin_r 2 (Z.of_nat n)). lia. Qed.

Lemma fft_size_spec (n : nat) :
  exists k, 0 <= k /\ double_until n 1 (Z.of_nat n) = 2 ^ k /\
            Z.of_nat n <= 2 ^ k /\ (k = 0 \/ 2 ^ (k - 1) < Z.of_nat n).
Proof.
  change 1 with (2 ^ 0) at 1.
  apply (double_until_spec n 0 (Z.of_nat n)); [lia|]. apply pow2_gt_lin.
Qed.

Section Sizes.

Variables cos_d sin_d acos_d : f64 -> f64.

Lemma length_swap_cd (a : list cd) (i j : nat) : length (swap_cd a i j) = length a.
Proof. unfold swap_cd. by rewrite !length_insert. Qed.

Lemma length_fft_permute (lg_n : nat) (a : list cd) :
  length (fft_permute lg_n a) = length a.
Proof.
  unfold fft_permute. apply for_range_length. intros k t.
  destruct (_ <? _); [apply length_swap_cd|done].
Qed.

Lemma length_fft_block (wlen : cd) (len i : nat) (a : list cd) :
  length (fft_block wlen len i a) = length a.
Proof.
  unfold fft_block.
  pose proof (for_range_inv (fun _ (st : list cd * cd) => length (fst st) = length a)
                0 (len / 2) (fft_butterfly wlen i (len / 2)) (a, cd_of_real F64.one)) as H.
  apply H; [done|]. intros k [t w] _ Ht. simpl in *. by rewrite !length_insert.
Qed.

Lemma length_fft_pass (invert : bool) (len : nat) (a : list cd) :
  length (fft_pass cos_d sin_d acos_d invert len a) = length a.
Proof. unfold fft_pass. apply for_range_length. intros k t. apply length_fft_block. Qed.

Lemma length_fft_passes (fuel : nat) (invert : bool) (len : nat) (a : list cd) :
  length (fft_passes cos_d sin_d acos_d fuel invert len a) = length a.
Proof.
  revert len a. induction fuel as [|f IH]; intros len a; simpl; [done|].
  destruct (_ <=? _)%nat; [|done]. by rewrite IH, length_fft_pass.
Qed.

Lemma length_power_spectrum (frame : list f32) :
  length (power_spectrum cos_d sin_d acos_d frame)
  = (Z.to_nat (double_until (length frame) 1 (Z.of_nat (length frame))) / 2 + 1)%nat.
Proof.
  unfold power_spectrum. rewrite for_range_length, length_replicate; [done|].
  intros i t. apply length_insert.
Qed.

(** X1. For a frame of [n] samples ([n] at most [2^29], so that neither the
    [int] [fft_size] nor the loop variable [len] of [fft] overflows),
    [power_spectrum] pads to the least power of two [2^k] that is at least
    [n] (1 for an empty frame) and returns [2^k / 2 + 1] values. *)
Theorem power_spectrum_length (frame : list f32) :
  Z.of_nat (length frame) <= 2 ^ 29 ->
  exists k, 0 <= k <= 29 /\
    Z.of_nat (length frame) <= 2 ^ k /\
    (forall j, 0 <= j -> Z.of_nat (length frame) <= 2 ^ j -> k <= j) /\
    double_until (length frame) 1 (Z.of_nat (length frame)) = 2 ^ k /\
    Z.of_nat (length (power_spectrum cos_d sin_d acos_d frame)) = 2 ^ k / 2 + 1.
Proof.
  intros Hn. destruct (fft_size_spec (length frame)) as (k & Hk & E & Hle & Hmin).
  assert (Hleast : forall j, 0 <= j -> Z.of_nat (length frame) <= 2 ^ j -> k <= j).
  { intros j Hj Hlej. destruct Hmin as [->|Hmin]; [done|].
    destruct (Z.le_gt_cases k j) as [|Hgt]; [done|]. exfalso.
    pose proof (Z.pow_le_mono_r 2 j (k - 1) ltac:(lia) ltac:(lia)). lia. }
  exists k. split; [split; [done|by apply Hleast]|].
  split; [done|]. split; [done|]. split; [done|].
  rewrite length_power_spectrum, E.
  rewrite Nat2Z.inj_add, Nat2Z.inj_div, Z2Nat.id by lia. done.
Qed.

End Sizes.

Lemma power_spectrum_length_witness :
  let id := fun x : f64 => x in
  let frame := [F32.one; F32.zero; F32.one] in
  Z.of_nat (length frame) <= 2 ^ 29 /\
  exists k, 0 <= k <= 29 /\
    Z.of_nat (length frame) <= 2 ^ k /\
    (forall j, 0 <= j -> Z.of_nat (length frame) <= 2 ^ j -> k <= j) /\
    double_until (length frame) 1 (Z.of_nat (length frame)) = 2 ^ k /\
    Z.of_nat (length (power_spectrum id id id frame)) = 2 ^ k / 2 + 1.
Proof.
  intros id frame.
  assert (H : Z.of_nat (length frame) <= 2 ^ 29) by (vm_compute; discriminate).
  split; [exact H|]. exact (power_spectrum_length id id id frame H).
Defined.

(** ** Bit reversal *)

(** The bits set by the first [t] iterations of the reversal loop. *)
Lemma bit_reverse_loop_bits (lg_n t : nat) (i b : Z) :
  (t <= lg_n)%nat -> 0 <= b ->
  Z.testbit
    (for_range 0 t
       (fun j rev =>
          if Z.testbit i (Z.of_nat j)
          then Z.lor rev (Z.shiftl 1 (Z.of_nat lg_n - 1 - Z.of_nat j))
          else rev) 0) b
  = (Z.of_nat lg_n - 1 - b <? Z.of_nat t) && (b <? Z.of_nat lg_n)
    && Z.testbit i (Z.of_nat lg_n - 1 - b).
Proof.
  intros Ht Hb. induction t as [|t IH].
  - simpl for_range. rewrite Z.bits_0.
    destruct (Z.ltb_spec (Z.of_nat lg_n - 1 - b) (Z.of_nat 0)); [|done].
    destruct (Z.ltb_spec b (Z.of_nat lg_n)); [lia|done].
  - rewrite for_range_snoc. cbv beta. rewrite Nat.add_0_l.
    pose proof (IH ltac:(lia)) as IHb. clear IH.
    set (rev := for_range 0 t _ 0) in *.
    assert (Hbit : Z.testbit (Z.shiftl 1 (Z.of_nat lg_n - 1 - Z.of_nat t)) b
                   = (Z.of_nat lg_n - 1 - Z.of_nat t =? b)).
    { rewrite Z.shiftl_1_l. apply Z.pow2_bits_eqb. lia. }
    destruct (Z.eqb_spec (Z.of_nat lg_n - 1 - Z.of_nat t) b) as [Eb|Hne].
    + replace (Z.of_nat lg_n - 1 - b) with (Z.of_nat t) in * by lia.
      destruct (Z.ltb_spec (Z.of_nat t) (Z.of_nat (S t))); [|lia].
      destruct (Z.ltb_spec (Z.of_nat t) (Z.of_nat t)); [lia|].
      destruct (Z.ltb_spec b (Z.of_nat lg_n)); [|lia].
      simpl in IHb. simpl.
      destruct (Z.testbit i (Z.of_nat t)); [|done].
      by rewrite Z.lor_spec, Hbit, orb_true_r.
    + assert (Hsame : (Z.of_nat lg_n - 1 - b <? Z.of_nat (S t))
                      = (Z.of_nat lg_n - 1 - b <? Z.of_nat t)).
      { destruct (Z.ltb_spec (Z.of_nat lg_n - 1 - b) (Z.of_nat (S t))),
          (Z.ltb_spec (Z.of_nat lg_n - 1 - b) (Z.of_nat t)); try done; lia. }
      rewrite Hsame, <- IHb.
      destruct (Z.testbit i (Z.of_nat t)); [|done].
      by rewrite Z.lor_spec, Hbit, orb_false_r.
Qed.

Lemma bit_reverse_bits (lg_n : nat) (i b : Z) :
  0 <= b ->
  Z.testbit (bit_reverse lg_n i) b
  = (b <? Z.of_nat lg_n) && Z.testbit i (Z.of_nat lg_n - 1 - b).
Proof.
  intros Hb. unfold bit_reverse. rewrite bit_reverse_loop_bits by (done || lia).
  destruct (Z.ltb_spec b (Z.of_nat lg_n)) as [Hlt|Hge].
  - by destruct (Z.ltb_spec (Z.of_nat lg_n - 1 - b) (Z.of_nat lg_n)); [|lia].
  - by rewrite andb_false_r.
Qed.

Lemma bit_reverse_nonneg (lg_n : nat) (i : Z) : 0 <= bit_reverse lg_n i.
Proof.
  unfold bit_reverse.
  pose proof (for_range_inv (fun _ (rev : Z) => 0 <= rev) 0 lg_n
    (fun j rev =>
       if Z.testbit i (Z.of_nat j)
       then Z.lor rev (Z.shiftl 1 (Z.of_nat lg_n - 1 - Z.of_nat j))
       else rev) 0) as H.
  apply H; [done|]. intros k t Hk Ht. destruct (Z.testbit i (Z.of_nat k)); [|done].
  apply Z.lor_nonneg. split; [done|]. apply Z.shiftl_nonneg. lia.
Qed.

Lemma bits_below_pow2 (r n : Z) :
  0 <= n -> 0 <= r -> (forall b, n <= b -> Z.testbit r b = false) -> r < 2 ^ n.
Proof.
  intros Hn Hr Hbits.
  assert (r mod 2 ^ n = r) as <-.
  { apply Z.bits_inj'. intros b Hb. destruct (Z.lt_ge_cases b n).
    - by rewrite Z.mod_pow2_bits_low.
    - rewrite Z.mod_pow2_bits_high by lia. symmetry. by apply Hbits. }
  apply Z.mod_pos_bound. by apply Z.pow_pos_nonneg.
Qed.

Lemma bits_above_pow2 (i n b : Z) :
  0 <= n -> 0 <= i < 2 ^ n -> n <= b -> Z.testbit i b = false.
Proof.
  intros Hn Hi Hb. rewrite <- (Z.mod_small i (2 ^ n)) by done.
  apply Z.mod_pow2_bits_high. lia.
Qed.

Lemma bit_reverse_lt (lg_n : nat) (i : Z) :
  0 <= bit_reverse lg_n i < 2 ^ Z.of_nat lg_n.
Proof.
  split; [apply bit_reverse_nonneg|].
  apply bits_below_pow2; [lia|apply bit_reverse_nonneg|].
  intros b Hb. rewrite bit_reverse_bits by lia.
  by destruct (Z.ltb_spec b (Z.of_nat lg_n)); [lia|].
Qed.

Lemma bit_reverse_twice (lg_n : nat) (i : Z) :
  0 <= i < 2 ^ Z.of_nat lg_n -> bit_reverse lg_n (bit_reverse lg_n i) = i.
Proof.
  intros Hi. apply Z.bits_inj'. intros b Hb. rewrite bit_reverse_bits by done.
  destruct (Z.ltb_spec b (Z.of_nat lg_n)) as [Hlt|Hge]; simpl.
  - rewrite bit_reverse_bits by lia.
    destruct (Z.ltb_spec (Z.of_nat lg_n - 1 - b) (Z.of_nat lg_n)); [|lia].
    simpl. f_equal. lia.
  - symmetry. apply (bits_above_pow2 i (Z.of_nat lg_n)); lia.
Qed.

(** X3. The index computed by the reversal loop of [fft] for an index below
    [2^lg_n] is again below [2^lg_n] (the swap stays inside an array of
    [2^lg_n] elements), its bit [b] is bit [lg_n - 1 - b] of the index, and
    reversing twice gives the index back. *)
Theorem bit_reverse_involutive (lg_n : nat) (i : Z) :
  0 <= i < 2 ^ Z.of_nat lg_n ->
  0 <= bit_reverse lg_n i < 2 ^ Z.of_nat lg_n /\
  (forall b, 0 <= b < Z.of_nat lg_n ->
     Z.testbit (bit_reverse lg_n i) b = Z.testbit i (Z.of_nat lg_n - 1 - b)) /\
  bit_reverse lg_n (bit_reverse lg_n i) = i.
Proof.
  intros Hi. split; [apply bit_reverse_lt|]. split; [|by apply bit_reverse_twice].
  intros b Hb. rewrite bit_reverse_bits by lia.
  by destruct (Z.ltb_spec b (Z.of_nat lg_n)); [|lia].
Qed.

Lemma bit_reverse_involutive_witness :
  0 <= 3 < 2 ^ Z.of_nat 4 /\
  bit_reverse 4 3 = 12 /\
  0 <= bit_reverse 4 3 < 2 ^ Z.of_nat 4 /\
  bit_reverse 4 (bit_reverse 4 3) = 3.
Proof.
  assert (H : 0 <= 3 < 2 ^ Z.of_nat 4) by (simpl; lia).
  destruct (bit_reverse_involutive 4 3 H) as (Hr & _ & Hinv).
  split; [exact H|]. split; [reflexivity|]. split; [exact Hr|exact Hinv].
Defined.

(** ** The permutation loop of [fft] *)

(** [while ((1 << lg_n) < n) lg_n++] with enough iterations: the least
    exponent from [lg_n] on whose power of two is at least [n]. *)
Lemma log2_until_spec (fuel lg_n : nat) (n : Z) :
  n <= 2 ^ (Z.of_nat lg_n + Z.of_nat fuel) ->
  let r := log2_until fuel lg_n n in
  (lg_n <= r)%nat /\ n <= 2 ^ Z.of_nat r /\
  (r = lg_n \/ 2 ^ (Z.of_nat r - 1) < n).
Proof.
  revert lg_n. induction fuel as [|f IH]; intros lg_n Hn; simpl.
  - replace (Z.of_nat lg_n + Z.of_nat 0) with (Z.of_nat lg_n) in Hn by lia. auto.
  - rewrite Z.shiftl_1_l.
    destruct (Z.ltb_spec (2 ^ Z.of_nat lg_n) n) as [Hlt|Hge]; [|auto].
    destruct (IH (S lg_n)) as (Hr & Hle & Hmin).
    { by replace (Z.of_nat (S lg_n) + Z.of_nat f)
        with (Z.of_nat lg_n + Z.of_nat (S f)) by lia. }
    split; [lia|]. split; [done|]. right.
    destruct Hmin as [->|Hmin]; [|done].
    by replace (Z.of_nat (S lg_n) - 1) with (Z.of_nat lg_n) by lia.
Qed.

Lemma log2_until_pow2 (k : nat) (n : nat) :
  Z.of_nat n = 2 ^ Z.of_nat k -> log2_until n 0 (Z.of_nat n) = k.
Proof.
  intros Hn.
  destruct (log2_until_spec n 0 (Z.of_nat n)) as (_ & Hle & Hmin).
  { simpl. apply pow2_gt_lin. }
  set (r := log2_until n 0 (Z.of_nat n)) in *. rewrite Hn in Hle, Hmin.
  apply Z.pow_le_mono_r_iff in Hle; [|lia|lia].
  destruct Hmin as [->|Hmin]; [lia|].
  apply Z.pow_lt_mono_r_iff in Hmin; lia.
Qed.

Lemma nth_cd_insert (l : list cd) (i j : nat) (x : cd) :
  (i < length l)%nat ->
  nth_cd (<[i := x]> l) j = if decide (j = i) then x else nth_cd l j.
Proof.
  intros Hi. unfold nth_cd. destruct (decide (j = i)) as [->|Hne].
  - by rewrite list_lookup_insert_eq.
  - by rewrite list_lookup_insert_ne.
Qed.

Lemma nth_cd_swap (l : list cd) (i j k : nat) :
  (i < length l)%nat -> (j < length l)%nat ->
  nth_cd (swap_cd l i j) k
  = if decide (k = j) then nth_cd l i
    else if decide (k = i) then nth_cd l j else nth_cd l k.
Proof.
  intros Hi Hj. unfold swap_cd.
  rewrite nth_cd_insert by by rewrite length_insert.
  destruct (decide (k = j)); [done|]. by rewrite nth_cd_insert.
Qed.

(** A loop that exchanges [i] and [rev i] when [i < rev i], for an
    involution [rev] of the indices: every pair is exchanged once. *)
Lemma permute_loop (rev : nat -> nat) (a : list cd) :
  (forall j, (j < length a)%nat -> (rev j < length a)%nat /\ rev (rev j) = j) ->
  let r := for_range 0 (length a)
             (fun i cur => if (i <? rev i)%nat then swap_cd cur i (rev i) else cur) a in
  length r = length a /\
  forall i, (i < length a)%nat -> nth_cd r i = nth_cd a (rev i).
Proof.
  intros HR. set (n := length a) in *.
  pose proof (for_range_inv
    (fun i (cur : list cd) =>
       length cur = n /\
       forall j, (j < n)%nat ->
         nth_cd cur j = nth_cd a (if (Nat.min j (rev j) <? i)%nat then rev j else j))
    0 n
    (fun i cur => if (i <? rev i)%nat then swap_cd cur i (rev i) else cur) a) as Hinv.
  destruct Hinv as [Hl Hfinal].
  - split; [done|]. intros j Hj.
    by destruct (Nat.ltb_spec (Nat.min j (rev j)) 0); [lia|].
  - intros i t Hi [Hlt Ht].
    destruct (HR i ltac:(lia)) as [HRi HRRi].
    destruct (Nat.ltb_spec i (rev i)) as [Hsw|Hno].
    + split; [by rewrite length_swap_cd|]. intros j Hj.
      destruct (HR j Hj) as [HRj HRRj].
      rewrite nth_cd_swap by lia.
      destruct (decide (j = rev i)) as [->|Hne1].
      { rewrite Ht by lia. rewrite HRRi.
        destruct (Nat.ltb_spec (Nat.min i (rev i)) i); [lia|].
        by destruct (Nat.ltb_spec (Nat.min (rev i) i) (S i)); [|lia]. }
      destruct (decide (j = i)) as [->|Hne2].
      { rewrite Ht by lia. rewrite HRRi.
        destruct (Nat.ltb_spec (Nat.min (rev i) i) i); [lia|].
        by destruct (Nat.ltb_spec (Nat.min i (rev i)) (S i)); [|lia]. }
      rewrite Ht by done.
      assert (rev j <> i) by (intros E; rewrite <- E, HRRj in Hne1; done).
      destruct (Nat.ltb_spec (Nat.min j (rev j)) i),
        (Nat.ltb_spec (Nat.min j (rev j)) (S i)); try done; lia.
    + split; [done|]. intros j Hj.
      destruct (HR j Hj) as [HRj HRRj]. rewrite Ht by done.
      destruct (Nat.ltb_spec (Nat.min j (rev j)) i),
        (Nat.ltb_spec (Nat.min j (rev j)) (S i)); try done; try lia.
      assert (j = i) as ->.
      { destruct (decide (j = i)) as [|Hne]; [done|].
        assert (rev j = i) as E by lia. rewrite <- E, HRRj in Hno. lia. }
      f_equal. lia.
  - split; [exact Hl|]. intros i Hi.
    etrans; [exact (Hfinal i Hi)|]. destruct (HR i Hi) as [HRi _].
    by destruct (Nat.ltb_spec (Nat.min i (rev i)) (0 + n)); [|lia].
Qed.

Lemma for_range_ext {S : Type} (lo count : nat) (f g : nat -> S -> S) (s : S) :
  (forall i t, f i t = g i t) -> for_range lo count f s = for_range lo count g s.
Proof.
  intros Hfg. revert lo s. induction count as [|c IH]; intros lo s; simpl; [done|].
  by rewrite Hfg, IH.
Qed.

(** The permutation loop written on natural numbers. *)
Lemma fft_permute_nat (k : nat) (a : list cd) :
  fft_permute k a
  = for_range 0 (length a)
      (fun i cur =>
         let r := Z.to_nat (bit_reverse k (Z.of_nat i)) in
         if (i <? r)%nat then swap_cd cur i r else cur) a.
Proof.
  unfold fft_permute. apply for_range_ext. intros i t. cbv zeta.
  pose proof (bit_reverse_nonneg k (Z.of_nat i)).
  destruct (Z.ltb_spec (Z.of_nat i) (bit_reverse k (Z.of_nat i))),
    (Nat.ltb_spec i (Z.to_nat (bit_reverse k (Z.of_nat i)))); try done; lia.
Qed.


(** X4. On an array of [2^k] elements, the first loop of [fft] computes
    [lg_n = k] and leaves at every position [i] the element that was at the
    bit-reversed position: each pair is exchanged exactly once. *)
Theorem fft_permute_bit_reversal (k : nat) (a : list cd) :
  Z.of_nat (length a) = 2 ^ Z.of_nat k ->
  log2_until (length a) 0 (Z.of_nat (length a)) = k /\
  length (fft_permute k a) = length a /\
  forall i, (i < length a)%nat ->
    nth_cd (fft_permute k a) i
    = nth_cd a (Z.to_nat (bit_reverse k (Z.of_nat i))).
Proof.
  intros Hlen. split; [by apply log2_until_pow2|].
  rewrite fft_permute_nat.
  apply (permute_loop (fun j => Z.to_nat (bit_reverse k (Z.of_nat j))) a).
  intros j Hj.
  pose proof (bit_reverse_lt k (Z.of_nat j)) as Hr.
  pose proof (bit_reverse_twice k (Z.of_nat j) ltac:(lia)) as Hinv.
  split; [lia|]. rewrite Z2Nat.id by lia. rewrite Hinv. lia.
Qed.

Lemma fft_permute_bit_reversal_witness :
  let c := fun z : Z => cd_of_real (F64.of_Z z) in
  let a := [c 10; c 11; c 12; c 13; c 14; c 15; c 16; c 17] in
  Z.of_nat (length a) = 2 ^ Z.of_nat 3 /\
  fft_permute 3 a = [c 10; c 14; c 12; c 16; c 11; c 15; c 13; c 17] /\
  log2_until (length a) 0 (Z.of_nat (length a)) = 3%nat /\
  nth_cd (fft_permute 3 a) 1 = nth_cd a (Z.to_nat (bit_reverse 3 (Z.of_nat 1))).
Proof.
  intros c a.
  assert (H : Z.of_nat (length a) = 2 ^ Z.of_nat 3) by reflexivity.
  destruct (fft_permute_bit_reversal 3 a H) as (Hlg & _ & Hnth).
  split; [exact H|]. split; [reflexivity|]. split; [exact Hlg|].
  apply Hnth. simpl. lia.
Defined.

(** ** Windowing of a one-sample frame *)

Section Window.

Variables cos_d acos_d : f64 -> f64.

Lemma F64_mul_zero_div_zero (y : f64) :
  F64.div (F64.mul y (F64.of_Z 0)) (F64.of_Z 0) = S754_nan.
Proof. by destruct y as [[]|[]| |[] m e]. Qed.

(** X5. On a frame of one sample the window coefficient divides by
    [n - 1 = 0]: the argument of the cosine is [0/0 = NaN] whatever value
    [acos(-1.0)] has, and the sample is multiplied by
    [0.54 - 0.46 * cos(NaN)]. *)
Theorem hamming_window_single (x : f32) :
  hamming_window cos_d acos_d [x]
  = [F32.of_float
       (F64.mul (F64.of_float x)
          (F64.sub (F64.of_decimal 54 2)
             (F64.mul (F64.of_decimal 46 2) (cos_d S754_nan))))].
Proof.
  unfold hamming_window. simpl for_range. unfold hamming_step, hamming_coeff.
  change (Z.of_nat 0) with 0. change (Z.of_nat (length [x]) - 1) with 0.
  by rewrite F64_mul_zero_div_zero.
Qed.

End Window.

(** ** Cosine similarity *)

(** X6. [cosineSimilarity] does not depend on the order of its arguments. *)
Theorem cosineSimilarity_comm (vec1 vec2 : list f32) :
  cosineSimilarity vec1 vec2 = cosineSimilarity vec2 vec1.
Proof.
  unfold cosineSimilarity. rewrite (Nat.eqb_sym (length vec2)).
  destruct (Nat.eqb (length vec1) (length vec2)); simpl; [|done].
  pose proof (cos_loop_swap vec1 vec2
                {| dot := F32.zero; norm1 := F32.zero; norm2 := F32.zero |}) as Hs.
  unfold cos_sums. change (cos_swap _) with
    {| dot := F32.zero; norm1 := F32.zero; norm2 := F32.zero |} in Hs at 1.
  rewrite Hs. destruct (cos_loop vec1 vec2 _) as [d n1 n2]. simpl.
  by rewrite (F32_mul_comm (F32.sqrt n2)).
Qed.

Lemma F32_add_nan_l (y : f32) : F32.add S754_nan y = S754_nan.
Proof. done. Qed.

Lemma F32_add_nan_r (x : f32) : F32.add x S754_nan = S754_nan.
Proof. by destruct x. Qed.

Lemma F32_mul_nan_r (x : f32) : F32.mul x S754_nan = S754_nan.
Proof. by destruct x. Qed.

Lemma cos_loop_norm1_nan (vec1 vec2 : list f32) (a : cos_acc) :
  norm1 a = S754_nan -> norm1 (cos_loop vec1 vec2 a) = S754_nan.
Proof.
  revert vec2 a. induction vec1 as [|x vec1 IH]; intros [|y vec2] a Ha; simpl;
    try done.
  apply IH. simpl. by rewrite Ha.
Qed.

Lemma cos_loop_nan (vec1 vec2 : list f32) (a : cos_acc) :
  length vec1 = length vec2 -> S754_nan ∈ vec1 ->
  norm1 (cos_loop vec1 vec2 a) = S754_nan.
Proof.
  revert vec2 a. induction vec1 as [|x vec1 IH]; intros [|y vec2] a Hlen Hin;
    simpl in *; try done.
  - by apply elem_of_nil in Hin.
  - apply elem_of_cons in Hin as [<-|Hin].
    + apply cos_loop_norm1_nan. simpl. apply F32_add_nan_r.
    + apply IH; [lia|done].
Qed.

Lemma cosineSimilarity_nan_l (vec1 vec2 : list f32) :
  length vec1 = length vec2 -> S754_nan ∈ vec1 ->
  cosineSimilarity vec1 vec2 = S754_nan.
Proof.
  intros Hlen Hin. unfold cosineSimilarity. rewrite Hlen, Nat.eqb_refl. simpl.
  unfold cos_sums. rewrite (cos_loop_nan vec1 vec2) by done.
  destruct (cos_loop vec1 vec2 _) as [d n1 n2]. simpl.
  by destruct d.
Qed.

(** X7. A NaN component is never hidden: for vectors of one size, if a
    component of either vector is NaN the similarity is NaN (the guard
    [denom == 0.0f] is false on NaN). *)
Theorem cosineSimilarity_nan (vec1 vec2 : list f32) :
  length vec1 = length vec2 -> S754_nan ∈ vec1 \/ S754_nan ∈ vec2 ->
  cosineSimilarity vec1 vec2 = S754_nan.
Proof.
  intros Hlen [Hin|Hin].
  - by apply cosineSimilarity_nan_l.
  - rewrite cosineSimilarity_sym. by apply cosineSimilarity_nan_l.
Qed.

Lemma cosineSimilarity_nan_witness :
  let vec1 := [F32.one; F32.one] in
  let vec2 := [F32.one; S754_nan] in
  (length vec1 = length vec2 /\ (S754_nan ∈ vec1 \/ S754_nan ∈ vec2)) /\
  cosineSimilarity vec1 vec2 = S754_nan.
Proof.
  intros vec1 vec2.
  assert (H1 : length vec1 = length vec2) by reflexivity.
  assert (H2 : S754_nan ∈ vec1 \/ S754_nan ∈ vec2).
  { right. apply elem_of_cons; right. apply elem_of_cons; by left. }
  split; [by split|]. exact (cosineSimilarity_nan vec1 vec2 H1 H2).
Defined.

(** ** Dynamic time warping *)

Lemma F32_add_zero_r (x : f32) : x <> S754_zero true -> F32.add x F32.zero = x.
Proof. by destruct x as [[]|[]| |[] m e]. Qed.

Lemma dtw_cost_not_negzero (seq1 seq2 : list (list f32)) (i j : nat) :
  dtw_cost seq1 seq2 i j <> S754_zero true.
Proof.
  intros E. pose proof (dtw_cost_proper seq1 seq2 i j) as Hp.
  rewrite E in Hp. by specialize (Hp eq_refl).
Qed.

(** X8. For two sequences of one vector each the table has the single inner
    cell [dp[1][1] = 1 - cosineSimilarity(u, v)] (the minimum taken is
    [dp[0][0] = 0]) and the score is [1 - (1 - cosineSimilarity(u, v)) / 2];
    for two vectors of different sizes that is exactly [0.5]. *)
Theorem computeDTW_single (u v : list f32) :
  at2 (dtw_table [u] [v]) 1 1 = F32.sub F32.one (cosineSimilarity u v) /\
  computeDTW [u] [v]
  = F32.sub F32.one
      (F32.div (F32.sub F32.one (cosineSimilarity u v)) (F32.of_Z 2)) /\
  (length u <> length v -> computeDTW [u] [v] = F32_half).
Proof.
  assert (E : dtw_rec [u] [v] 1 1 = F32.sub F32.one (cosineSimilarity u v)).
  { change (dtw_rec [u] [v] 1 1) with (F32.add (dtw_cost [u] [v] 1 1) F32.zero).
    rewrite F32_add_zero_r by apply dtw_cost_not_negzero. done. }
  assert (Escore : computeDTW [u] [v]
    = F32.sub F32.one
        (F32.div (F32.sub F32.one (cosineSimilarity u v)) (F32.of_Z 2))).
  { rewrite computeDTW_table. simpl length. by rewrite E. }
  split; [|split; [done|]].
  - rewrite dtw_table_rec by (simpl; lia). done.
  - intros Hne. rewrite Escore. unfold cosineSimilarity.
    destruct (Nat.eqb_spec (length u) (length v)) as [|_]; [done|]. reflexivity.
Qed.

Lemma dtw_cost_app (seq1 seq2 ext1 ext2 : list (list f32)) (i j : nat) :
  (1 <= i <= length seq1)%nat -> (1 <= j <= length seq2)%nat ->
  dtw_cost (seq1 ++ ext1) (seq2 ++ ext2) i j = dtw_cost seq1 seq2 i j.
Proof.
  intros Hi Hj. unfold dtw_cost, nth_v.
  by rewrite !lookup_app_l by lia.
Qed.

Lemma dtw_rec_app (seq1 seq2 ext1 ext2 : list (list f32)) (i j : nat) :
  (i <= length seq1)%nat -> (j <= length seq2)%nat ->
  dtw_rec (seq1 ++ ext1) (seq2 ++ ext2) i j = dtw_rec seq1 seq2 i j.
Proof.
  revert j. induction i as [|i IHi]; intros j Hi Hj.
  - by rewrite !dtw_rec_row0.
  - induction j as [|j IHj].
    + by rewrite !dtw_rec_col0.
    + rewrite !(dtw_rec_step _ _ (S i) (S j)) by lia.
      replace (S i - 1)%nat with i by lia. replace (S j - 1)%nat with j by lia.
      rewrite dtw_cost_app by lia.
      rewrite IHj by lia. by rewrite !IHi by lia.
Qed.

(** X9. The cell [dp[i][j]] depends only on the first [i] vectors of the
    first sequence and the first [j] vectors of the second: appending
    vectors to either sequence leaves the cells computed for the shorter
    sequences unchanged. *)
Theorem dtw_table_prefix (seq1 seq2 ext1 ext2 : list (list f32)) (i j : nat) :
  (i <= length seq1)%nat -> (j <= length seq2)%nat ->
  at2 (dtw_table (seq1 ++ ext1) (seq2 ++ ext2)) i j
  = at2 (dtw_table seq1 seq2) i j.
Proof.
  intros Hi Hj.
  rewrite !dtw_table_rec by (rewrite ?length_app; lia).
  by apply dtw_rec_app.
Qed.

Lemma dtw_table_prefix_witness :
  let seq1 := [[F32.of_Z 1; F32.of_Z 2]; [F32.of_Z 3; F32.of_Z (-1)]] in
  let seq2 := [[F32.of_Z 2; F32.of_Z 2]] in
  let ext := [[F32.of_Z 5; F32.of_Z 7]] in
  ((2 <= length seq1)%nat /\ (1 <= length seq2)%nat) /\
  at2 (dtw_table (seq1 ++ ext) (seq2 ++ ext)) 2 1 = at2 (dtw_table seq1 seq2) 2 1.
Proof.
  intros seq1 seq2 ext.
  assert (H1 : (2 <= length seq1)%nat) by (simpl; lia).
  assert (H2 : (1 <= length seq2)%nat) by (simpl; lia).
  split; [by split|]. exact (dtw_table_prefix seq1 seq2 ext ext 2 1 H1 H2).
Defined.

Lemma F32_div_not_nan (x : f32) (my : positive) (ey : Z) :
  x <> S754_nan -> F32.div x (S754_finite false my ey) <> S754_nan.
Proof.
  destruct x as [sx|sx| |sx mx ex]; try done. intros _ E.
  pose proof (F32_div_rounded sx false mx my ex ey) as Hr. by rewrite E in Hr.
Qed.

Lemma F32_sub_one_not_nan (z : f32) : z <> S754_nan -> F32.sub F32.one z <> S754_nan.
Proof.
  destruct z as [s|s| |s m e]; try done. intros _ E.
  unfold F32.sub, F32.one, SFsub in E. cbv zeta in E.
  pose proof (binary_normalize_cases F32.prec F32.emax
    (cond_Zopp false (Zpos (fst (shl_align 8388608 (-23) (Z.min (-23) e)))) -
     cond_Zopp s (Zpos (fst (shl_align m e (Z.min (-23) e)))))
    (Z.min (-23) e) F32_prec_pos) as Hc.
  change IntDef.Z.min with Z.min in E. by rewrite E in Hc.
Qed.

Lemma proper_not_nan (x : f32) : proper x -> x <> S754_nan.
Proof. by destruct x. Qed.

(** X10. NaN enters only through a cost: when every step cost
    [1 - cosineSimilarity] is finite, no cell of the table is NaN, and for
    sequences that are not both empty the returned score is not NaN (it can
    still be infinite). *)
Theorem computeDTW_not_nan (seq1 seq2 : list (list f32)) :
  0 < Z.of_nat (length seq1) + Z.of_nat (length seq2) < 2 ^ 31 ->
  (forall i j, (1 <= i <= length seq1)%nat -> (1 <= j <= length seq2)%nat ->
     is_finite (dtw_cost seq1 seq2 i j) = true) ->
  (forall i j, (i <= length seq1)%nat -> (j <= length seq2)%nat ->
     at2 (dtw_table seq1 seq2) i j <> S754_nan) /\
  computeDTW seq1 seq2 <> S754_nan.
Proof.
  intros Hlen Hcost.
  pose proof (dtw_rec_proper seq1 seq2 Hcost) as Hp. split.
  - intros i j Hi Hj. rewrite dtw_table_rec by done.
    apply proper_not_nan. by apply Hp.
  - rewrite computeDTW_table.
    destruct (F32_of_Z_finite _ Hlen) as (m & e & ->).
    apply F32_sub_one_not_nan, F32_div_not_nan, proper_not_nan.
    by apply Hp.
Qed.

Lemma computeDTW_not_nan_witness :
  let seq1 := [[F32.of_Z 1; F32.of_Z 2]; [F32.of_Z 3; F32.of_Z (-1)]] in
  let seq2 := [[F32.of_Z 2; F32.of_Z 2]] in
  0 < Z.of_nat (length seq1) + Z.of_nat (length seq2) < 2 ^ 31 /\
  computeDTW seq1 seq2 <> S754_nan.
Proof.
  intros seq1 seq2.
  assert (H : 0 < Z.of_nat (length seq1) + Z.of_nat (length seq2) < 2 ^ 31)
    by (vm_compute; split; reflexivity).
  split; [exact H|].
  apply (computeDTW_not_nan seq1 seq2 H).
  intros i j Hi Hj. subst seq1 seq2. simpl in Hi, Hj.
  assert (i = 1 \/ i = 2)%nat as [-> | ->] by lia;
    assert (j = 1)%nat as -> by lia; vm_compute; reflexivity.
Defined.

(** ** Shape of the mel filters *)

Lemma F64_ltb_finite (p1 p2 : positive) (f1 f2 : Z) :
  f1 < f2 \/ (f1 = f2 /\ (p1 < p2)%positive) ->
  F64.ltb (S754_finite false p1 f1) (S754_finite false p2 f2) = true.
Proof.
  unfold F64.ltb, SFltb, SFcompare. intros [Hlt|[-> Hlt]].
  - by replace (f1 ?= f2) with Lt by (symmetry; by apply Z.compare_lt_iff).
  - rewrite Z.compare_refl.
    change (PosDef.Pos.compare_cont Eq p1 p2) with (p1 ?= p2)%positive.
    by rewrite Hlt.
Qed.

(** The rounded quotients [a * 1.0 / n] increase strictly with [a]: two
    neighbouring quotients are much further apart than a rounding error. *)
Lemma quot53_lt (a b n : Z) :
  0 <= a < b -> b <= n -> n < 2 ^ 32 ->
  F64.ltb (quot53 a n) (quot53 b n) = true.
Proof.
  intros Hab Hbn Hn.
  destruct (quot53_char b n ltac:(lia) ltac:(lia))
    as (m2 & e2 & -> & Hm2 & He2 & Herr2 & Hbin2).
  destruct (canon53_value m2 e2 Hm2) as (p2 & f2 & -> & Hv2 & Hf2).
  destruct (Z.eq_dec a 0) as [->|Ha0]; [by rewrite quot53_zero by lia|].
  destruct (quot53_char a n ltac:(lia) ltac:(lia))
    as (m1 & e1 & -> & Hm1 & He1 & Herr1 & Hbin1).
  destruct (canon53_value m1 e1 Hm1) as (p1 & f1 & -> & Hv1 & Hf1).
  assert (Hp1 : 0 < 2 ^ (- e1)) by (apply Z.pow_pos_nonneg; lia).
  assert (Hp2 : 0 < 2 ^ (- e2)) by (apply Z.pow_pos_nonneg; lia).
  assert (H5253 : 2 ^ 53 = 2 * 2 ^ 52) by done.
  assert (H52 : 0 < 2 ^ 52) by done.
  assert (H32 : 2 ^ 32 * 4 <= 2 ^ 52) by done.
  (* the exponents are ordered *)
  assert (He : e1 <= e2).
  { destruct (Z.le_gt_cases e1 e2) as [|Hgt]; [done|]. exfalso.
    assert (2 * 2 ^ (- e1) <= 2 ^ (- e2)).
    { replace (2 * 2 ^ (- e1)) with (2 ^ (- e1 + 1))
        by (rewrite Z.pow_add_r by lia; change (2 ^ 1) with 2; lia).
      apply Z.pow_le_mono_r; lia. }
    nia. }
  assert (Hq1 : 2 ^ (1 - e1) = 2 * 2 ^ (- e1)).
  { replace (1 - e1) with (- e1 + 1) by lia.
    rewrite Z.pow_add_r by lia. change (2 ^ 1) with 2. lia. }
  assert (Hq2 : 2 ^ (1 - e2) = 2 * 2 ^ (- e2)).
  { replace (1 - e2) with (- e2 + 1) by lia.
    rewrite Z.pow_add_r by lia. change (2 ^ 1) with 2. lia. }
  assert (Hbig1 : 2 ^ 52 <= 2 ^ (- e1)) by (apply Z.pow_le_mono_r; lia).
  rewrite Hq1 in Herr1. rewrite Hq2 in Herr2.
  apply F64_ltb_finite.
  destruct (Z.eq_dec e1 e2) as [<-|Hne].
  - (* one binade: the mantissas are ordered *)
    assert (Hm : m1 < m2).
    { assert (2 * n * m1 + 2 * 2 ^ (- e1) - 2 * n <= 2 * n * m2) by nia.
      assert (2 * n * m1 < 2 * n * m2) by lia. nia. }
    destruct Hf1 as [->|(-> & -> & _)]; [|lia].
    rewrite Z.sub_diag in Hv1. change (2 ^ 0) with 1 in Hv1.
    destruct Hf2 as [->|(-> & _ & _)]; [|left; lia].
    rewrite Z.sub_diag in Hv2. change (2 ^ 0) with 1 in Hv2.
    right. split; [done|]. lia.
  - destruct Hf1 as [->|(-> & Hm1' & ->)].
    + left. lia.
    + destruct (Z.eq_dec (e1 + 1) e2) as [E|]; [|left; lia].
      destruct Hf2 as [->|(-> & _ & _)]; [|left; lia].
      rewrite Z.sub_diag in Hv2. change (2 ^ 0) with 1 in Hv2.
      right. split; [done|].
      assert (2 ^ 52 < m2); [|lia].
      destruct (Z.le_gt_cases m2 (2 ^ 52)) as [Hle|]; [|done]. exfalso.
      assert (m2 = 2 ^ 52) as -> by lia.
      assert (Hpe : 2 ^ (- e1) = 2 * 2 ^ (- e2)).
      { subst e2. replace (- e1) with (- (e1 + 1) + 1) by lia.
        rewrite Z.pow_add_r by lia. change (2 ^ 1) with 2. lia. }
      rewrite Hm1', Hpe in Herr1. rewrite Hpe in Hbig1.
      assert (b * (2 * 2 ^ (- e2)) <= n * (2 * 2 ^ 52 + 1)) by lia.
      assert (n * (2 * 2 ^ 53 - 1) <= a * (4 * 2 ^ (- e2))) by lia.
      assert ((a + 1) * (2 * 2 ^ (- e2)) <= b * (2 * 2 ^ (- e2))) by nia.
      lia.
Qed.

Lemma up_write_in (bin : list Z) (num_filters m k : Z) :
  1 <= m <= num_filters -> nth_Z bin (m - 1) <= k < nth_Z bin m ->
  {| rw_row := m - 1; rw_col := k; rw_num := k - nth_Z bin (m - 1);
     rw_den := nth_Z bin m - nth_Z bin (m - 1) |} ∈ ramp_writes bin num_filters.
Proof.
  intros Hm Hk. apply elem_of_ramp_writes. exists m. split; [done|left].
  by apply up_ramp_elem.
Qed.

Lemma down_write_in (bin : list Z) (num_filters m k : Z) :
  1 <= m <= num_filters -> nth_Z bin m <= k < nth_Z bin (m + 1) ->
  {| rw_row := m - 1; rw_col := k; rw_num := nth_Z bin (m + 1) - k;
     rw_den := nth_Z bin (m + 1) - nth_Z bin m |} ∈ ramp_writes bin num_filters.
Proof.
  intros Hm Hk. apply elem_of_ramp_writes. exists m. split; [done|right].
  by apply down_ramp_elem.
Qed.

(** The weight of filter [m] on its rising ramp. *)
Lemma fill_filters_up (num_filters fft_size : Z) (bin : list Z)
    (filters : list (list f64)) (m k : Z) :
  fill_filters num_filters fft_size bin = Some filters ->
  1 <= m <= num_filters -> nth_Z bin (m - 1) <= k < nth_Z bin m ->
  at2 filters (Z.to_nat (m - 1)) (Z.to_nat k)
  = quot53 (k - nth_Z bin (m - 1)) (nth_Z bin m - nth_Z bin (m - 1)) /\
  nth_Z bin m - nth_Z bin (m - 1) <= filter_cols fft_size.
Proof.
  intros Hfill Hm Hk. pose proof (up_write_in bin num_filters m k Hm Hk) as Hin.
  split.
  - apply (fill_filters_written _ _ _ _ _ Hfill Hin).
  - apply (fill_filters_span _ _ _ _ _ Hfill Hin).
Qed.

(** The weight of filter [m] on its falling ramp. *)
Lemma fill_filters_down (num_filters fft_size : Z) (bin : list Z)
    (filters : list (list f64)) (m k : Z) :
  fill_filters num_filters fft_size bin = Some filters ->
  1 <= m <= num_filters -> nth_Z bin m <= k < nth_Z bin (m + 1) ->
  at2 filters (Z.to_nat (m - 1)) (Z.to_nat k)
  = quot53 (nth_Z bin (m + 1) - k) (nth_Z bin (m + 1) - nth_Z bin m) /\
  nth_Z bin (m + 1) - nth_Z bin m <= filter_cols fft_size.
Proof.
  intros Hfill Hm Hk. pose proof (down_write_in bin num_filters m k Hm Hk) as Hin.
  split.
  - apply (fill_filters_written _ _ _ _ _ Hfill Hin).
  - apply (fill_filters_span _ _ _ _ _ Hfill Hin).
Qed.

Section FilterShape.

Variables log10_d : f64 -> f64.
Variable pow_d : f64 -> f64 -> f64.

(** X12. Each filter is a triangle: filter [m] has weight exactly [1.0] at
    its centre bin [bin[m]] when the falling ramp is not empty, weight
    [+0.0] at its first bin [bin[m-1]] when the rising ramp is not empty,
    and weight [+0.0] at every bin outside its two ramps. *)
Theorem create_mel_filterbanks_triangle (num_filters fft_size sample_rate : Z)
    (bin : list Z) (filters : list (list f64)) (m : Z) :
  fft_size < 2 ^ 31 ->
  mel_bins log10_d pow_d num_filters fft_size sample_rate = Some bin ->
  create_mel_filterbanks log10_d pow_d num_filters fft_size sample_rate
  = Some filters ->
  1 <= m <= num_filters ->
  (nth_Z bin m < nth_Z bin (m + 1) ->
     at2 filters (Z.to_nat (m - 1)) (Z.to_nat (nth_Z bin m)) = F64.one) /\
  (nth_Z bin (m - 1) < nth_Z bin m ->
     at2 filters (Z.to_nat (m - 1)) (Z.to_nat (nth_Z bin (m - 1))) = F64.zero) /\
  (forall k, 0 <= k <= fft_size / 2 ->
     ~ nth_Z bin (m - 1) <= k < nth_Z bin m ->
     ~ nth_Z bin m <= k < nth_Z bin (m + 1) ->
     at2 filters (Z.to_nat (m - 1)) (Z.to_nat k) = F64.zero).
Proof.
  intros Hfft Hbin Hcreate Hm.
  unfold create_mel_filterbanks in Hcreate. rewrite Hbin in Hcreate.
  simpl in Hcreate. pose proof (filter_cols_bound fft_size Hfft) as Hspan.
  split; [|split].
  - intros Hne.
    destruct (fill_filters_down _ _ _ _ m (nth_Z bin m) Hcreate Hm ltac:(lia))
      as [-> Hden].
    apply quot53_self. lia.
  - intros Hne.
    destruct (fill_filters_up _ _ _ _ m (nth_Z bin (m - 1)) Hcreate Hm ltac:(lia))
      as [-> Hden].
    rewrite Z.sub_diag. apply quot53_zero. lia.
  - intros k Hk Hup Hdown. pose proof (filter_cols_floor fft_size k Hk) as Hq.
    destruct (fill_filters_cell _ _ _ _ (m - 1) k Hcreate ltac:(lia) ltac:(lia))
      as [(Hk' & _)|[(Hk' & _)|(_ & _ & E)]].
    + by replace (m - 1 + 1) with m in Hk' by lia.
    + replace (m - 1 + 1) with m in Hk' by lia.
      by replace (m - 1 + 2) with (m + 1) in Hk' by lia.
    + done.
Qed.

(** X13. The ramps are strictly monotone in [double]: along the rising ramp of
    filter [m] the stored weights increase strictly with the bin, along the
    falling ramp they decrease strictly. *)
Theorem create_mel_filterbanks_ramps (num_filters fft_size sample_rate : Z)
    (bin : list Z) (filters : list (list f64)) (m k k' : Z) :
  fft_size < 2 ^ 31 ->
  mel_bins log10_d pow_d num_filters fft_size sample_rate = Some bin ->
  create_mel_filterbanks log10_d pow_d num_filters fft_size sample_rate
  = Some filters ->
  1 <= m <= num_filters -> k < k' ->
  (nth_Z bin (m - 1) <= k -> k' < nth_Z bin m ->
     F64.ltb (at2 filters (Z.to_nat (m - 1)) (Z.to_nat k))
             (at2 filters (Z.to_nat (m - 1)) (Z.to_nat k')) = true) /\
  (nth_Z bin m <= k -> k' < nth_Z bin (m + 1) ->
     F64.ltb (at2 filters (Z.to_nat (m - 1)) (Z.to_nat k'))
             (at2 filters (Z.to_nat (m - 1)) (Z.to_nat k)) = true).
Proof.
  intros Hfft Hbin Hcreate Hm Hkk.
  unfold create_mel_filterbanks in Hcreate. rewrite Hbin in Hcreate.
  simpl in Hcreate. pose proof (filter_cols_bound fft_size Hfft) as Hspan.
  split.
  - intros Hlo Hhi.
    destruct (fill_filters_up _ _ _ _ m k Hcreate Hm ltac:(lia)) as [-> Hden].
    destruct (fill_filters_up _ _ _ _ m k' Hcreate Hm ltac:(lia)) as [-> _].
    apply quot53_lt; lia.
  - intros Hlo Hhi.
    destruct (fill_filters_down _ _ _ _ m k Hcreate Hm ltac:(lia)) as [-> Hden].
    destruct (fill_filters_down _ _ _ _ m k' Hcreate Hm ltac:(lia)) as [-> _].
    apply quot53_lt; lia.
Qed.

End FilterShape.

Lemma create_mel_filterbanks_triangle_witness :
  let lg := fun x : f64 => x in
  let pw := fun _ y : f64 => F64.add y F64.one in
  exists filters,
    mel_bins lg pw 4 32 48000 = Some [0; 3; 6; 10; 13; 16] /\
    create_mel_filterbanks lg pw 4 32 48000 = Some filters /\
    at2 filters 1 6 = F64.one /\ at2 filters 1 3 = F64.zero /\
    at2 filters 1 12 = F64.zero.
Proof.
  intros lg pw.
  destruct (create_mel_filterbanks lg pw 4 32 48000) as [filters|] eqn:E;
    [|by vm_compute in E].
  exists filters.
  assert (Hbin : mel_bins lg pw 4 32 48000 = Some [0; 3; 6; 10; 13; 16])
    by (vm_compute; reflexivity).
  destruct (create_mel_filterbanks_triangle lg pw 4 32 48000 _ filters 2
              ltac:(reflexivity) Hbin E ltac:(lia)) as (Hpeak & Hfoot & Hout).
  split; [exact Hbin|]. split; [reflexivity|]. split; [|split].
  - apply Hpeak. unfold nth_Z. simpl. lia.
  - apply Hfoot. unfold nth_Z. simpl. lia.
  - apply (Hout 12).
    + change (32 / 2) with 16. lia.
    + unfold nth_Z. simpl. lia.
    + unfold nth_Z. simpl. lia.
Defined.

Lemma create_mel_filterbanks_ramps_witness :
  let lg := fun x : f64 => x in
  let pw := fun _ y : f64 => F64.add y F64.one in
  exists filters,
    mel_bins lg pw 4 32 48000 = Some [0; 3; 6; 10; 13; 16] /\
    create_mel_filterbanks lg pw 4 32 48000 = Some filters /\
    F64.ltb (at2 filters 1 4) (at2 filters 1 5) = true /\
    F64.ltb (at2 filters 1 9) (at2 filters 1 7) = true.
Proof.
  intros lg pw.
  destruct (create_mel_filterbanks lg pw 4 32 48000) as [filters|] eqn:E;
    [|by vm_compute in E].
  exists filters.
  assert (Hbin : mel_bins lg pw 4 32 48000 = Some [0; 3; 6; 10; 13; 16])
    by (vm_compute; reflexivity).
  split; [exact Hbin|]. split; [reflexivity|]. split.
  - apply (create_mel_filterbanks_ramps lg pw 4 32 48000 _ filters 2 4 5
             ltac:(reflexivity) Hbin E ltac:(lia) ltac:(lia));
      unfold nth_Z; simpl; lia.
  - apply (create_mel_filterbanks_ramps lg pw 4 32 48000 _ filters 2 7 9
             ltac:(reflexivity) Hbin E ltac:(lia) ltac:(lia));
      unfold nth_Z; simpl; lia.
Defined.

(** ** Signs in binary64 *)

Lemma rounded_nonneg (prec emax : Z) (x : spec_float) :
  rounded prec emax false x -> nonneg x = true.
Proof. destruct x as [[]|[]| |[] m e]; simpl; try done; by intros []. Qed.

Lemma F64_mul_self_nonneg (x : f64) :
  nonneg (F64.mul x x) = true \/ F64.mul x x = S754_nan.
Proof.
  destruct x as [s|s| |s m e]; simpl.
  - left. by destruct s.
  - left. by destruct s.
  - by right.
  - left. unfold F64.mul, SFmul. rewrite xorb_nilpotent.
    apply (rounded_nonneg F64.prec F64.emax). by apply binary_round_aux_rounded.
Qed.

Lemma F64_add_nonneg (x y : f64) :
  nonneg x = true -> nonneg y = true -> nonneg (F64.add x y) = true.
Proof.
  destruct x as [[]|[]| |[] mx ex], y as [[]|[]| |[] my ey]; simpl; try done.
  intros _ _. apply (rounded_nonneg F64.prec F64.emax), binary_round_rounded.
Qed.

Lemma F64_div_nonneg (x : f64) (my : positive) (ey : Z) :
  nonneg x = true -> nonneg (F64.div x (S754_finite false my ey)) = true.
Proof.
  destruct x as [[]|[]| |[] mx ex]; try done. intros _.
  unfold F64.div. simpl.
  pose proof (SFdiv_core_binary_nonneg F64.prec F64.emax mx ex my ey) as Hq.
  destruct (SFdiv_core_binary F64.prec F64.emax (Zpos mx) ex (Zpos my) ey) as [[q e] l].
  apply (rounded_nonneg F64.prec F64.emax). by apply binary_round_aux_rounded.
Qed.

Lemma cd_norm_nonneg (x : cd) : nonneg (cd_norm x) = true \/ cd_norm x = S754_nan.
Proof.
  unfold cd_norm.
  destruct (F64_mul_self_nonneg (re x)) as [Hr| ->]; [|by right].
  destruct (F64_mul_self_nonneg (im x)) as [Hi| ->].
  - left. by apply F64_add_nonneg.
  - right. by destruct (F64.mul (re x) (re x)).
Qed.

Section Spectrum.

Variables cos_d sin_d acos_d : f64 -> f64.

Lemma for_range_fill_const (n : nat) (h : nat -> spec_float) (z : spec_float) :
  for_range 0 n (fun i s => <[i := h i]> s) (replicate n z) = map h (seq 0 n).
Proof. apply (for_range_fill n (fun i _ => h i) z). Qed.

(** X14. No value of the power spectrum is negative: every entry is NaN or has
    its sign bit clear ([+0], a positive number or [+inf]), whatever the
    transform produced. *)
Theorem power_spectrum_nonneg (frame : list f32) (x : f64) :
  Z.of_nat (length frame) <= 2 ^ 29 ->
  x ∈ power_spectrum cos_d sin_d acos_d frame ->
  (nonneg x = true \/ x = S754_nan) /\ F64.ltb x F64.zero = false.
Proof.
  intros Hn Hx.
  assert (Hsign : nonneg x = true \/ x = S754_nan).
  { destruct (fft_size_spec (length frame)) as (k & Hk & E & Hle & Hmin).
    assert (Hk30 : k <= 29).
    { destruct Hmin as [->|Hmin]; [lia|].
      destruct (Z.le_gt_cases k 29) as [|Hgt]; [done|]. exfalso.
      pose proof (Z.pow_le_mono_r 2 29 (k - 1) ltac:(lia) ltac:(lia)). lia. }
    unfold power_spectrum in Hx. rewrite for_range_fill_const in Hx.
    apply list_elem_of_fmap in Hx as (i & -> & _). rewrite E.
    assert (Hpos : 0 < 2 ^ k < 2 ^ 53).
    { split; [by apply Z.pow_pos_nonneg|]. apply Z.pow_lt_mono_r; lia. }
    rewrite Z2Nat.id by lia.
    destruct (F64_of_Z_pos_finite (2 ^ k) Hpos) as (m & e & ->).
    destruct (cd_norm_nonneg (nth_cd (fft cos_d sin_d acos_d
      (for_range 0 (length frame)
         (fun i a => <[i := cd_of_real (F64.of_float (nth_f frame i))]> a)
         (replicate (Z.to_nat (2 ^ k)) (cd_of_real F64.zero))) false) i))
      as [Hnn| ->]; [|by right].
    left. by apply F64_div_nonneg. }
  split; [done|]. destruct Hsign as [H| ->]; [|done].
  by destruct x as [[]|[]| |[] m e].
Qed.

End Spectrum.

(** ** Filter energies *)

Section Energies.

Variable log_d : f64 -> f64.

Lemma mel_accumulate_zero_row (power row : list f64) :
  (forall k, (k < length power)%nat -> nth_f row k = F64.zero) ->
  mel_accumulate power row F64.zero = F64.zero \/
  mel_accumulate power row F64.zero = S754_nan.
Proof.
  intros Hrow. unfold mel_accumulate.
  pose proof (for_range_inv (fun _ (acc : f64) => acc = F64.zero \/ acc = S754_nan)
    0 (length power)
    (fun k acc => F64.add acc (F64.mul (nth_f power k) (nth_f row k))) F64.zero) as H.
  apply H; [by left|]. intros k acc Hk Hacc. rewrite Hrow by lia.
  destruct Hacc as [-> | ->]; [|by right].
  destruct (nth_f power k) as [[]|[]| |[] m e]; simpl; auto.
Qed.

(** X15. A filter row that is zero on all bins of the power spectrum gives
    the floor value [log(1e-10)], whatever the spectrum holds (also NaN or
    infinite power): the sum is [+0] or NaN, and neither is [> 0]. *)
Theorem apply_mel_filters_zero_row (power : list f64) (filterbanks : list (list f64))
    (m : nat) (row : list f64) :
  filterbanks !! m = Some row ->
  (forall k, (k < length power)%nat -> nth_f row k = F64.zero) ->
  nth_f (apply_mel_filters log_d power filterbanks) m = log_d log_floor.
Proof.
  intros Hm Hrow. rewrite apply_mel_filters_correct. unfold mel_energies_map, nth_f.
  rewrite list_lookup_fmap, Hm. simpl. unfold log_energy.
  by destruct (mel_accumulate_zero_row power row Hrow) as [-> | ->].
Qed.

End Energies.

Lemma power_spectrum_nonneg_witness :
  let id := fun x : f64 => x in
  let frame := [F32.one; F32.of_Z (-3); F32.one] in
  let x := S754_finite false 5066549580791808 (-52) in
  (Z.of_nat (length frame) <= 2 ^ 29 /\ x ∈ power_spectrum id id id frame) /\
  (nonneg x = true \/ x = S754_nan) /\ F64.ltb x F64.zero = false.
Proof.
  intros id frame x.
  assert (H1 : Z.of_nat (length frame) <= 2 ^ 29) by (vm_compute; discriminate).
  assert (H2 : x ∈ power_spectrum id id id frame).
  { vm_compute. apply elem_of_cons; right. apply elem_of_cons; by left. }
  split; [by split|]. exact (power_spectrum_nonneg id id id frame x H1 H2).
Defined.

Lemma apply_mel_filters_zero_row_witness :
  let id := fun x : f64 => x in
  let power := [F64.one; S754_infinity false; F64.of_Z 3] in
  let filterbanks := [[F64.one; F64.zero; F64.one]; [F64.zero; F64.zero; F64.zero]] in
  filterbanks !! 1%nat = Some [F64.zero; F64.zero; F64.zero] /\
  nth_f (apply_mel_filters id power filterbanks) 1 = log_floor.
Proof.
  intros id power filterbanks. split; [reflexivity|].
  apply (apply_mel_filters_zero_row id power filterbanks 1
           [F64.zero; F64.zero; F64.zero] eq_refl).
  intros k Hk. simpl in Hk.
  assert (k = 0 \/ k = 1 \/ k = 2)%nat as [->|[->| ->]] by lia; reflexivity.
Defined.

(** ** Composition inside [extractMFCC] *)

Section Pipeline.

Variables cos_d sin_d acos_d log_d log10_d : f64 -> f64.
Variable pow_d : f64 -> f64 -> f64.

Lemma length_pre_emphasis (signal : list f32) :
  length (pre_emphasis signal) = length signal.
Proof. rewrite pre_emphasis_correct. apply length_imap. Qed.

Lemma length_hamming_window (frame : list f32) :
  length (hamming_window cos_d acos_d frame) = length frame.
Proof. rewrite hamming_window_correct. apply length_imap. Qed.

(** X17. In [extractMFCC] the FFT size handed to [create_mel_filterbanks],
    [power.size() * 2 - 2], gives rows of exactly [power.size()] weights:
    every read [filterbanks[m][k]] of [apply_mel_filters] ([k] below
    [power.size()]) is inside its row, for each of the 40 filters. *)
Theorem extractMFCC_filter_rows (audioData : list f32)
    (filterbanks : list (list f64)) :
  (1 <= length audioData)%nat -> Z.of_nat (length audioData) <= 2 ^ 29 ->
  create_mel_filterbanks log10_d pow_d 40
    (Z.of_nat (length (power_spectrum cos_d sin_d acos_d
                         (hamming_window cos_d acos_d (pre_emphasis audioData))))
     * 2 - 2) SAMPLE_RATE = Some filterbanks ->
  length filterbanks = 40%nat /\
  forall row, row ∈ filterbanks ->
    length row
    = length (power_spectrum cos_d sin_d acos_d
                (hamming_window cos_d acos_d (pre_emphasis audioData))).
Proof.
  intros _ Hn Hcreate.
  set (frame := hamming_window cos_d acos_d (pre_emphasis audioData)) in *.
  assert (Hlen : length frame = length audioData).
  { unfold frame. by rewrite length_hamming_window, length_pre_emphasis. }
  destruct (fft_size_spec (length frame)) as (k & Hk & E & _ & _).
  assert (Hpow : Z.of_nat (length (power_spectrum cos_d sin_d acos_d frame))
                 = 2 ^ k / 2 + 1).
  { rewrite length_power_spectrum, E.
    rewrite Nat2Z.inj_add, Nat2Z.inj_div, Z2Nat.id by lia. done. }
  set (power := power_spectrum cos_d sin_d acos_d frame) in *.
  unfold create_mel_filterbanks in Hcreate.
  destruct (mel_bins _ _ _ _ _) as [bin|]; [|done]. simpl in Hcreate.
  destruct (fill_filters_dims _ _ _ _ Hcreate) as [Hrows Hcols].
  split; [done|]. intros row Hrow.
  apply list_elem_of_lookup_1 in Hrow as [i Hi]. rewrite (Hcols i row Hi).
  rewrite Hpow.
  replace ((2 ^ k / 2 + 1) * 2 - 2) with (2 ^ k / 2 * 2) by lia.
  unfold filter_cols. rewrite Z.quot_mul by lia.
  rewrite <- Hpow. lia.
Qed.

(** X16. A filter whose falling ramp is empty and whose rising ramp has at
    most one bin (as for the lowest filters of a short transform, where
    neighbouring bin indices coincide) keeps a row of zeros, and
    [apply_mel_filters] returns [log(1e-10)] for it whatever the power
    spectrum is. *)
Theorem empty_filter_energy (num_filters fft_size sample_rate : Z)
    (bin : list Z) (filters : list (list f64)) (power : list f64) (m : Z) :
  mel_bins log10_d pow_d num_filters fft_size sample_rate = Some bin ->
  create_mel_filterbanks log10_d pow_d num_filters fft_size sample_rate
  = Some filters ->
  Z.of_nat (length power) = fft_size / 2 + 1 ->
  1 <= m <= num_filters ->
  nth_Z bin m <= nth_Z bin (m - 1) + 1 -> nth_Z bin (m + 1) <= nth_Z bin m ->
  nth_f (apply_mel_filters log_d power filters) (Z.to_nat (m - 1))
  = log_d log_floor.
Proof.
  intros Hbin Hcreate Hpow Hm Hup Hdown.
  unfold create_mel_filterbanks in Hcreate. rewrite Hbin in Hcreate.
  simpl in Hcreate.
  destruct (fill_filters_dims _ _ _ _ Hcreate) as [Hrows _].
  destruct (lookup_lt_is_Some_2 filters (Z.to_nat (m - 1)) ltac:(lia)) as [row Hrow].
  rewrite apply_mel_filters_correct. unfold mel_energies_map, nth_f.
  rewrite list_lookup_fmap, Hrow. simpl. unfold log_energy.
  assert (Hzero : forall k, (k < length power)%nat -> nth_f row k = F64.zero);
    [|by destruct (mel_accumulate_zero_row power row Hzero) as [-> | ->]].
  intros k Hk.
  pose proof (filter_cols_floor fft_size (Z.of_nat k) ltac:(lia)) as Hq.
  assert (E : at2 filters (Z.to_nat (m - 1)) (Z.to_nat (Z.of_nat k)) = F64.zero).
  { destruct (fill_filters_cell _ _ _ _ (m - 1) (Z.of_nat k) Hcreate
                ltac:(lia) ltac:(lia)) as [(Hk' & _ & E)|[(Hk' & _)|(_ & _ & E)]].
    - replace (m - 1 + 1) with m in * by lia. rewrite E.
      replace (Z.of_nat k - nth_Z bin (m - 1)) with 0 by lia.
      replace (nth_Z bin m - nth_Z bin (m - 1)) with 1 by lia.
      reflexivity.
    - replace (m - 1 + 1) with m in Hk' by lia.
      replace (m - 1 + 2) with (m + 1) in Hk' by lia. lia.
    - done. }
  rewrite Nat2Z.id in E. unfold at2, nth_v in E. by rewrite Hrow in E.
Qed.

End Pipeline.

Lemma empty_filter_energy_witness :
  let lg := fun x : f64 => x in
  let pw := fun _ y : f64 => F64.add y F64.one in
  let power := [F64.one; S754_nan; F64.of_Z 3] in
  exists filters,
    mel_bins lg pw 6 4 48000 = Some [0; 0; 0; 1; 1; 1; 2; 2] /\
    create_mel_filterbanks lg pw 6 4 48000 = Some filters /\
    nth_f (apply_mel_filters lg power filters) 0 = log_floor /\
    nth_f (apply_mel_filters lg power filters) 2 = log_floor.
Proof.
  intros lg pw power.
  destruct (create_mel_filterbanks lg pw 6 4 48000) as [filters|] eqn:E;
    [|by vm_compute in E].
  exists filters.
  assert (Hbin : mel_bins lg pw 6 4 48000 = Some [0; 0; 0; 1; 1; 1; 2; 2])
    by (vm_compute; reflexivity).
  split; [exact Hbin|]. split; [reflexivity|]. split.
  - apply (empty_filter_energy lg lg pw 6 4 48000 _ filters power 1 Hbin E);
      [reflexivity|lia|unfold nth_Z; simpl; lia..].
  - apply (empty_filter_energy lg lg pw 6 4 48000 _ filters power 3 Hbin E);
      [reflexivity|lia|unfold nth_Z; simpl; lia..].
Defined.

Lemma extractMFCC_filter_rows_witness :
  let id := fun x : f64 => x in
  let pw := fun _ y : f64 => F64.add y F64.one in
  let audioData := [F32.one; F32.of_Z 2; F32.of_Z (-1)] in
  exists filterbanks,
    ((1 <= length audioData)%nat /\ Z.of_nat (length audioData) <= 2 ^ 29) /\
    create_mel_filterbanks id pw 40
      (Z.of_nat (length (power_spectrum id id id
                           (hamming_window id id (pre_emphasis audioData))))
       * 2 - 2) SAMPLE_RATE = Some filterbanks /\
    length filterbanks = 40%nat /\
    forall row, row ∈ filterbanks ->
      length row
      = length (power_spectrum id id id
                  (hamming_window id id (pre_emphasis audioData))).
Proof.
  intros id pw audioData.
  destruct (create_mel_filterbanks id pw 40
    (Z.of_nat (length (power_spectrum id id id
                         (hamming_window id id (pre_emphasis audioData))))
     * 2 - 2) SAMPLE_RATE) as [filterbanks|] eqn:E; [|by vm_compute in E].
  exists filterbanks.
  assert (H1 : (1 <= length audioData)%nat) by (simpl; lia).
  assert (H2 : Z.of_nat (length audioData) <= 2 ^ 29) by (vm_compute; discriminate).
  split; [by split|]. split; [reflexivity|].
  exact (extractMFCC_filter_rows id id id id pw audioData filterbanks H1 H2 E).
Defined.

(** ** The first bin index *)

Section FirstBin.

Variables log10_d : f64 -> f64.
Variable pow_d : f64 -> f64 -> f64.

Lemma F64_of_Z_nonneg_cases (z : Z) :
  0 <= z < 2 ^ 53 ->
  F64.of_Z z = F64.zero \/ exists m e, F64.of_Z z = S754_finite false m e.
Proof.
  intros Hz. destruct (Z.eq_dec z 0) as [->|Hne]; [by left|].
  right. apply F64_of_Z_pos_finite. lia.
Qed.

Lemma mel_point_first (num_filters sample_rate : Z) :
  0 <= num_filters < 2 ^ 31 ->
  is_finite (hz_to_mel log10_d (F64.div (F64.of_Z sample_rate) (F64.of_Z 2))) = true ->
  mel_point log10_d num_filters sample_rate 0 = F64.zero.
Proof.
  intros Hnf Hfin. unfold mel_point.
  destruct (F64_of_Z_pos_finite (num_filters + 1)) as (m & e & ->).
  { split; [lia|]. assert (2 ^ 31 < 2 ^ 53) by done. lia. }
  change (F64.of_Z 0) with (S754_zero false).
  by destruct (hz_to_mel log10_d _) as [[]|[]| |[] mh eh].
Qed.

(** X18. The first bin index is 0 (the first filter starts at the constant
    component), for every FFT size and sample rate of the [int] range:
    [mel_points[0]] is [+0.0] whenever the highest mel value is finite, and
    [pow(10.0, 0.0)] is [1.0] (as IEEE 754 and C require of [pow]). *)
Theorem mel_bins_first (num_filters fft_size sample_rate : Z) (bin : list Z) :
  0 <= num_filters < 2 ^ 31 -> 0 <= fft_size < 2 ^ 31 -> 0 < sample_rate < 2 ^ 31 ->
  is_finite (hz_to_mel log10_d (F64.div (F64.of_Z sample_rate) (F64.of_Z 2))) = true ->
  pow_d (F64.of_Z 10) F64.zero = F64.one ->
  mel_bin log10_d pow_d num_filters fft_size sample_rate 0 = Some 0 /\
  (mel_bins log10_d pow_d num_filters fft_size sample_rate = Some bin ->
   nth_Z bin 0 = 0).
Proof.
  intros Hnf Hfft Hsr Hfin Hpow.
  assert (H3153 : 2 ^ 31 < 2 ^ 53) by done.
  assert (E : mel_bin log10_d pow_d num_filters fft_size sample_rate 0 = Some 0).
  { unfold mel_bin. rewrite mel_point_first by done. unfold mel_to_hz.
    change (F64.div F64.zero (F64.of_Z 2595)) with F64.zero. rewrite Hpow.
    change (F64.mul (F64.of_Z 700) (F64.sub F64.one F64.one)) with F64.zero.
    destruct (F64_of_Z_pos_finite sample_rate ltac:(lia)) as (ms & es & ->).
    by destruct (F64_of_Z_nonneg_cases (fft_size + 1) ltac:(lia))
      as [-> | (mf & ef & ->)]. }
  split; [done|]. intros Hbins. unfold mel_bins in Hbins.
  apply mapM_Some_1 in Hbins.
  unfold int_range in Hbins.
  destruct (Z.to_nat (num_filters + 2 - 0)) as [|c] eqn:Ec; [lia|].
  simpl in Hbins. inversion Hbins as [|x y l k Hx Hl]; subst.
  change (0 + Z.of_nat 0) with 0 in Hx. rewrite E in Hx. by injection Hx as <-.
Qed.

End FirstBin.

Lemma mel_bins_first_witness :
  let lg := fun x : f64 => x in
  let pw := fun _ y : f64 => F64.add y F64.one in
  mel_bins lg pw 4 32 48000 = Some [0; 3; 6; 10; 13; 16] /\
  mel_bin lg pw 4 32 48000 0 = Some 0 /\
  nth_Z [0; 3; 6; 10; 13; 16] 0 = 0.
Proof.
  intros lg pw.
  assert (Hbin : mel_bins lg pw 4 32 48000 = Some [0; 3; 6; 10; 13; 16])
    by (vm_compute; reflexivity).
  destruct (mel_bins_first lg pw 4 32 48000 [0; 3; 6; 10; 13; 16]) as [E Hnth].
  - simpl. lia.
  - simpl. lia.
  - simpl. lia.
  - vm_compute. reflexivity.
  - vm_compute. reflexivity.
  - split; [exact Hbin|]. split; [exact E|exact (Hnth Hbin)].
Defined.

(** ** Zero padding *)

Lemma for_range_fill_prefix {A : Type} (n N : nat) (h : nat -> A) (z : A) :
  (n <= N)%nat ->
  for_range 0 n (fun i a => <[i := h i]> a) (replicate N z)
  = map h (seq 0 n) ++ replicate (N - n) z.
Proof.
  intros Hn. induction n as [|n IH].
  - simpl. by rewrite Nat.sub_0_r.
  - rewrite for_range_snoc, IH by lia. cbv beta. rewrite Nat.add_0_l.
    rewrite seq_S, map_app. simpl.
    rewrite insert_app_r_alt by (rewrite length_map, length_seq; lia).
    rewrite length_map, length_seq, Nat.sub_diag.
    replace (N - n)%nat with (S (N - S n)) by lia. simpl.
    by rewrite <- app_assoc.
Qed.

Lemma double_until_pow2 (N : nat) (k : Z) :
  0 <= k -> Z.of_nat N = 2 ^ k -> double_until N 1 (Z.of_nat N) = Z.of_nat N.
Proof.
  intros Hk HN. destruct (fft_size_spec N) as (k' & Hk' & -> & Hle & Hmin).
  rewrite HN in *. f_equal.
  apply Z.pow_le_mono_r_iff in Hle; [|lia|lia].
  destruct Hmin as [->|Hmin]; [lia|].
  apply Z.pow_lt_mono_r_iff in Hmin; lia.
Qed.

Section Padding.

Variables cos_d sin_d acos_d : f64 -> f64.

(** X19. Padding is transparent: appending to a frame the zeros that bring it
    to the FFT size chosen by [power_spectrum] gives the same power
    spectrum, value for value. *)
Theorem power_spectrum_zero_padded (frame : list f32) :
  Z.of_nat (length frame) <= 2 ^ 29 ->
  let fft_size := Z.to_nat (double_until (length frame) 1 (Z.of_nat (length frame))) in
  (length frame <= fft_size)%nat /\
  power_spectrum cos_d sin_d acos_d
    (frame ++ replicate (fft_size - length frame) F32.zero)
  = power_spectrum cos_d sin_d acos_d frame.
Proof.
  intros _ fft_size.
  destruct (fft_size_spec (length frame)) as (k & Hk & E & Hle & _).
  assert (HN : Z.of_nat fft_size = 2 ^ k).
  { unfold fft_size. rewrite E. apply Z2Nat.id. apply Z.pow_nonneg. lia. }
  assert (Hn : (length frame <= fft_size)%nat) by lia.
  split; [done|].
  set (padded := frame ++ replicate (fft_size - length frame) F32.zero).
  assert (Hlen : length padded = fft_size).
  { unfold padded. rewrite length_app, length_replicate. lia. }
  assert (Hin :
    for_range 0 fft_size
      (fun i a => <[i := cd_of_real (F64.of_float (nth_f padded i))]> a)
      (replicate fft_size (cd_of_real F64.zero))
    = for_range 0 (length frame)
        (fun i a => <[i := cd_of_real (F64.of_float (nth_f frame i))]> a)
        (replicate fft_size (cd_of_real F64.zero))).
  { rewrite (for_range_fill_prefix fft_size fft_size
               (fun i => cd_of_real (F64.of_float (nth_f padded i)))) by lia.
    rewrite (for_range_fill_prefix (length frame) fft_size
               (fun i => cd_of_real (F64.of_float (nth_f frame i)))) by lia.
    rewrite Nat.sub_diag, app_nil_r.
    replace (seq 0 fft_size)
      with (seq 0 (length frame) ++ seq (length frame) (fft_size - length frame))
      by (rewrite <- seq_app; f_equal; lia).
    rewrite map_app. f_equal.
    - apply map_ext_in. intros i Hi. apply in_seq in Hi.
      unfold padded, nth_f. by rewrite lookup_app_l by lia.
    - apply list_eq. intros j. rewrite list_lookup_fmap.
      destruct (decide (j < fft_size - length frame)%nat) as [Hj|Hj].
      + rewrite lookup_seq_lt by done. rewrite lookup_replicate_2 by done. simpl.
        unfold padded, nth_f. rewrite lookup_app_r by lia.
        rewrite lookup_replicate_2 by lia. done.
      + rewrite lookup_seq_ge by lia. simpl. symmetry.
        apply lookup_replicate_None. lia. }
  unfold power_spectrum. rewrite Hlen.
  rewrite (double_until_pow2 fft_size k Hk HN), Nat2Z.id. fold fft_size.
  by rewrite Hin.
Qed.

End Padding.

Lemma power_spectrum_zero_padded_witness :
  let id := fun x : f64 => x in
  let frame := [F32.one; F32.of_Z (-3); F32.one] in
  Z.of_nat (length frame) <= 2 ^ 29 /\
  power_spectrum id id id (frame ++ [F32.zero]) = power_spectrum id id id frame.
Proof.
  intros id frame.
  assert (H : Z.of_nat (length frame) <= 2 ^ 29) by (vm_compute; discriminate).
  split; [exact H|]. exact (proj2 (power_spectrum_zero_padded id id id frame H)).
Defined.

(** * The pipeline against the specification *)

(** ** The loops of the transform as the specification words them *)

Lemma for_range_foldl {S : Type} (lo count : nat) (body : nat -> S -> S) (s : S) :
  for_range lo count body s = foldl (fun s i => body i s) s (seq lo count).
Proof.
  revert lo s. induction count as [|c IH]; intros lo s; simpl; [done|]. apply IH.
Qed.

Lemma nth_cd_ext (a b : list cd) :
  length a = length b ->
  (forall i, (i < length a)%nat -> nth_cd a i = nth_cd b i) -> a = b.
Proof.
  intros Hlen Hnth. apply list_eq. intros i.
  destruct (decide (i < length a)%nat) as [Hlt|Hge].
  - specialize (Hnth i Hlt). unfold nth_cd in Hnth.
    destruct (lookup_lt_is_Some_2 a i Hlt) as [x Hx].
    destruct (lookup_lt_is_Some_2 b i ltac:(lia)) as [y Hy].
    rewrite Hx, Hy in *. simpl in Hnth. by rewrite Hnth.
  - by rewrite !lookup_ge_None_2 by lia.
Qed.

Lemma nth_cd_imap (f : nat -> cd) (a : list cd) (i : nat) :
  (i < length a)%nat -> nth_cd (imap (fun p _ => f p) a) i = f i.
Proof.
  intros Hi. unfold nth_cd. rewrite list_lookup_imap.
  destruct (lookup_lt_is_Some_2 a i Hi) as [x ->]. done.
Qed.

Lemma pow2_nat_Z (n k : nat) : n = (2 ^ k)%nat -> Z.of_nat n = 2 ^ Z.of_nat k.
Proof. intros ->. by rewrite Nat2Z.inj_pow. Qed.

Lemma spec_rev_lt (k i : nat) : (spec_rev k i < 2 ^ k)%nat.
Proof.
  revert i. induction k as [|k IH]; intros i; [simpl; lia|].
  change (spec_rev (S k) i) with ((i mod 2) * 2 ^ k + spec_rev k (i / 2))%nat.
  rewrite Nat.pow_succ_r'. specialize (IH (i / 2)%nat).
  pose proof (Nat.mod_upper_bound i 2 ltac:(lia)) as Hc.
  assert ((i mod 2) * 2 ^ k <= 1 * 2 ^ k)%nat by (apply Nat.mul_le_mono_r; lia).
  lia.
Qed.

(** Bit [b] of the reversed index is bit [k - 1 - b] of the index. *)
Lemma spec_rev_bits (k i : nat) (b : Z) :
  0 <= b ->
  Z.testbit (Z.of_nat (spec_rev k i)) b
  = (b <? Z.of_nat k) && Z.testbit (Z.of_nat i) (Z.of_nat k - 1 - b).
Proof.
  revert i b. induction k as [|k IH]; intros i b Hb.
  - simpl spec_rev. rewrite Z.bits_0.
    by destruct (Z.ltb_spec b (Z.of_nat 0)); [lia|].
  - pose proof (spec_rev_lt k (i / 2)) as Hlt.
    apply inj_lt in Hlt. rewrite Nat2Z.inj_pow in Hlt. simpl Z.of_nat in Hlt at 2.
    change (spec_rev (S k) i) with ((i mod 2) * 2 ^ k + spec_rev k (i / 2))%nat.
    rewrite Nat2Z.inj_add, Nat2Z.inj_mul, Nat2Z.inj_pow, Nat2Z.inj_mod.
    change (Z.of_nat 2) with 2.
    set (R := Z.of_nat (spec_rev k (i / 2))) in *.
    assert (HR : 0 <= R) by (subst R; lia).
    set (K := Z.of_nat k) in *. assert (HK : 0 <= K) by (subst K; lia).
    assert (Hpow : 0 < 2 ^ K) by (apply Z.pow_pos_nonneg; lia).
    replace (Z.of_nat (S k)) with (K + 1) by (subst K; lia).
    pose proof (Z.mod_pos_bound (Z.of_nat i) 2 ltac:(lia)) as Hc.
    destruct (Z.lt_total b K) as [Hlo|[->|Hhi]].
    + rewrite <- (Z.mod_pow2_bits_low _ K) by lia.
      rewrite Z.add_comm, Z.mod_add, Z.mod_small by lia.
      subst R. rewrite IH by done. fold K.
      destruct (Z.ltb_spec b K); [|lia]. destruct (Z.ltb_spec b (K + 1)); [|lia].
      rewrite !andb_true_l, Nat2Z.inj_div. change (Z.of_nat 2) with 2.
      rewrite Z.div2_bits by lia. f_equal. lia.
    + destruct (Z.ltb_spec K (K + 1)); [|lia]. rewrite andb_true_l.
      replace K with (0 + K) at 2 by lia.
      rewrite <- Z.div_pow2_bits by lia.
      rewrite Z.div_add_l, Z.div_small, Z.add_0_r by lia.
      replace (K + 1 - 1 - K) with 0 by lia.
      change 2 with (2 ^ 1) at 1. apply Z.mod_pow2_bits_low. lia.
    + destruct (Z.ltb_spec b (K + 1)); [lia|]. rewrite andb_false_l.
      apply (bits_above_pow2 _ (K + 1)); [lia| |lia].
      rewrite Z.pow_add_r by lia. change (2 ^ 1) with 2. nia.
Qed.

Lemma bit_reverse_spec_rev (k i : nat) :
  bit_reverse k (Z.of_nat i) = Z.of_nat (spec_rev k i).
Proof.
  apply Z.bits_inj'. intros b Hb. by rewrite bit_reverse_bits, spec_rev_bits.
Qed.

Lemma fft_permute_nth (k : nat) (a : list cd) (i : nat) :
  Z.of_nat (length a) = 2 ^ Z.of_nat k -> (i < length a)%nat ->
  nth_cd (fft_permute k a) i = nth_cd a (Z.to_nat (bit_reverse k (Z.of_nat i))).
Proof.
  intros Hlen Hi. rewrite fft_permute_nat.
  apply (permute_loop (fun j => Z.to_nat (bit_reverse k (Z.of_nat j))) a); [|done].
  intros j Hj.
  pose proof (bit_reverse_lt k (Z.of_nat j)) as Hr.
  pose proof (bit_reverse_twice k (Z.of_nat j) ltac:(lia)) as Hinv.
  split; [lia|]. rewrite Z2Nat.id by lia. rewrite Hinv. lia.
Qed.

(** The first loop of [fft] is the bit-reversal permutation. *)
Lemma fft_permute_spec (k : nat) (a : list cd) :
  length a = (2 ^ k)%nat -> fft_permute k a = spec_bit_reversal a.
Proof.
  intros Hlen. apply nth_cd_ext.
  - unfold spec_bit_reversal. by rewrite length_fft_permute, length_imap.
  - rewrite length_fft_permute. intros i Hi.
    rewrite fft_permute_nth by (done || by apply pow2_nat_Z).
    unfold spec_bit_reversal.
    rewrite (nth_cd_imap (fun p => nth_cd a (spec_rev (Nat.log2 (length a)) p))) by done.
    rewrite Hlen, Nat.log2_pow2 by lia.
    by rewrite bit_reverse_spec_rev, Nat2Z.id.
Qed.

(** *** The butterflies of one block *)

Lemma fft_block_nth (wlen : cd) (half i : nat) (a : list cd) :
  (i + 2 * half <= length a)%nat ->
  forall p, (p < length a)%nat ->
    nth_cd (fft_block wlen (2 * half) i a) p
    = if decide (i <= p < i + half)%nat
      then cd_add (nth_cd a p) (cd_mul (nth_cd a (p + half)) (spec_twiddle wlen (p - i)))
      else if decide (i + half <= p < i + 2 * half)%nat
      then cd_sub (nth_cd a (p - half))
             (cd_mul (nth_cd a p) (spec_twiddle wlen (p - half - i)))
      else nth_cd a p.
Proof.
  intros Hfit. unfold fft_block.
  replace (2 * half / 2)%nat with half by (symmetry; rewrite Nat.mul_comm; apply Nat.div_mul; lia).
  pose proof (for_range_inv
    (fun j (st : list cd * cd) =>
       snd st = spec_twiddle wlen j /\ length (fst st) = length a /\
       forall p, (p < length a)%nat ->
         nth_cd (fst st) p
         = if decide (i <= p < i + j)%nat
           then cd_add (nth_cd a p) (cd_mul (nth_cd a (p + half)) (spec_twiddle wlen (p - i)))
           else if decide (i + half <= p < i + half + j)%nat
           then cd_sub (nth_cd a (p - half))
                  (cd_mul (nth_cd a p) (spec_twiddle wlen (p - half - i)))
           else nth_cd a p)
    0 half (fft_butterfly wlen i half) (a, cd_of_real F64.one)) as Hinv.
  destruct Hinv as (_ & _ & Hfinal).
  - split; [done|]. split; [done|]. intros p Hp. simpl.
    destruct (decide (i <= p < i + 0)%nat); [lia|].
    by destruct (decide (i + half <= p < i + half + 0)%nat); [lia|].
  - intros j [cur w] Hj (Hw & Hlen & Hcur). simpl in Hw, Hlen, Hcur. subst w.
    unfold fft_butterfly.
    assert (Hu : nth_cd cur (i + j) = nth_cd a (i + j)).
    { rewrite Hcur by lia. destruct (decide (i <= i + j < i + j)%nat); [lia|].
      by destruct (decide (i + half <= i + j < i + half + j)%nat); [lia|]. }
    assert (Hv : nth_cd cur (i + j + half) = nth_cd a (i + j + half)).
    { rewrite Hcur by lia. destruct (decide (i <= i + j + half < i + j)%nat); [lia|].
      by destruct (decide (i + half <= i + j + half < i + half + j)%nat); [lia|]. }
    rewrite Hu, Hv. cbn [fst snd]. split; [done|].
    split; [by rewrite !length_insert|]. intros p Hp.
    rewrite nth_cd_insert by (rewrite length_insert; lia).
    destruct (decide (p = i + j + half)%nat) as [->|Hne1].
    { destruct (decide (i <= i + j + half < i + S j)%nat); [lia|].
      destruct (decide (i + half <= i + j + half < i + half + S j)%nat); [|lia].
      replace (i + j + half - half)%nat with (i + j)%nat by lia.
      by replace (i + j - i)%nat with j by lia. }
    rewrite nth_cd_insert by lia.
    destruct (decide (p = i + j)%nat) as [->|Hne2].
    { destruct (decide (i <= i + j < i + S j)%nat); [|lia].
      by replace (i + j - i)%nat with j by lia. }
    rewrite Hcur by done.
    destruct (decide (i <= p < i + j)%nat), (decide (i <= p < i + S j)%nat); try lia; [done|].
    destruct (decide (i + half <= p < i + half + j)%nat),
      (decide (i + half <= p < i + half + S j)%nat); try lia; done.
  - intros p Hp. rewrite Nat.add_0_l in Hfinal. rewrite Hfinal by done.
    destruct (decide (i <= p < i + half)%nat); [done|].
    destruct (decide (i + half <= p < i + half + half)%nat),
      (decide (i + half <= p < i + 2 * half)%nat); try lia; done.
Qed.

Lemma block_position (len b p : nat) :
  (b * len <= p < S b * len)%nat -> (p mod len = p - b * len)%nat.
Proof.
  intros Hp. symmetry. apply (Nat.mod_unique p len b); lia.
Qed.

Section Transform.

Variables cos_d sin_d acos_d : f64 -> f64.
Hypothesis acos_pi : acos_d (F64.of_Z (-1)) = spec_pi.

(** *** One pass over all blocks *)

Lemma fft_pass_spec (invert : bool) (half c : nat) (a : list cd) :
  (0 < half)%nat -> length a = (c * (2 * half))%nat ->
  fft_pass cos_d sin_d acos_d invert (2 * half) a
  = spec_butterflies cos_d sin_d invert (2 * half) a.
Proof.
  intros Hhalf Hlen. unfold fft_pass, spec_butterflies, PI. rewrite acos_pi.
  set (len := (2 * half)%nat) in *.
  set (wlen := {| re := cos_d _; im := sin_d _ |}).
  replace (len / 2)%nat with half
    by (subst len; symmetry; rewrite Nat.mul_comm; apply Nat.div_mul; lia).
  replace ((length a + len - 1) / len)%nat with c
    by (apply (Nat.div_unique _ len c (len - 1)); lia).
  set (S := fun p : nat =>
              if (p mod len <? half)%nat
              then cd_add (nth_cd a p)
                     (cd_mul (nth_cd a (p + half)) (spec_twiddle wlen (p mod len)))
              else cd_sub (nth_cd a (p - half))
                     (cd_mul (nth_cd a p) (spec_twiddle wlen (p mod len - half)))).
  pose proof (for_range_inv
    (fun b (cur : list cd) =>
       length cur = length a /\
       forall p, (p < length a)%nat ->
         nth_cd cur p = if (p <? b * len)%nat then S p else nth_cd a p)
    0 c (fun b cur => fft_block wlen len (b * len) cur) a) as Hinv.
  destruct Hinv as [Hl Hfinal].
  - split; [done|]. intros p Hp. by destruct (Nat.ltb_spec p (0 * len)); [lia|].
  - intros b cur Hb [Hcl Hcur].
    split; [by rewrite length_fft_block|]. intros p Hp.
    assert (Hfit : (b * len + 2 * half <= length cur)%nat).
    { rewrite Hcl, Hlen. fold len.
      assert (Datatypes.S b * len <= c * len)%nat by (apply Nat.mul_le_mono_r; lia).
      lia. }
    subst len. rewrite fft_block_nth by (done || lia).
    set (len := (2 * half)%nat) in *.
    assert (Elen : len = (2 * half)%nat) by done.
    destruct (decide (b * len <= p < b * len + half)%nat) as [Hlo|Hnlo].
    + rewrite !Hcur by lia.
      destruct (Nat.ltb_spec p (b * len)); [lia|].
      destruct (Nat.ltb_spec (p + half) (b * len)); [lia|].
      destruct (Nat.ltb_spec p (Datatypes.S b * len)); [|lia].
      unfold S. rewrite (block_position len b p) by lia.
      by destruct (Nat.ltb_spec (p - b * len) half); [|lia].
    + destruct (decide (b * len + half <= p < b * len + len)%nat) as [Hhi|Hnhi].
      * rewrite !Hcur by lia.
        destruct (Nat.ltb_spec p (b * len)); [lia|].
        destruct (Nat.ltb_spec (p - half) (b * len)); [lia|].
        destruct (Nat.ltb_spec p (Datatypes.S b * len)); [|lia].
        unfold S. rewrite (block_position len b p) by lia.
        destruct (Nat.ltb_spec (p - b * len) half); [lia|].
        by replace (p - b * len - half)%nat with (p - half - b * len)%nat by lia.
      * rewrite Hcur by done.
        destruct (Nat.ltb_spec p (b * len)), (Nat.ltb_spec p (Datatypes.S b * len));
          try done; lia.
  - apply nth_cd_ext; [by rewrite length_imap|]. rewrite Hl. intros p Hp.
    rewrite Hfinal by done. rewrite (nth_cd_imap S) by done.
    by destruct (Nat.ltb_spec p ((0 + c) * len)); [|lia].
Qed.

Lemma length_spec_butterflies (invert : bool) (len : nat) (a : list cd) :
  length (spec_butterflies cos_d sin_d invert len a) = length a.
Proof. unfold spec_butterflies. by rewrite length_imap. Qed.

(** *** The passes for the block sizes [2^s], ..., [2^k] *)

Lemma fft_passes_spec (invert : bool) (k d s fuel : nat) (a : list cd) :
  length a = (2 ^ k)%nat -> (1 <= s)%nat -> (s + d = k + 1)%nat -> (d <= fuel)%nat ->
  fft_passes cos_d sin_d acos_d fuel invert (2 ^ s) a
  = foldl (fun a s => spec_butterflies cos_d sin_d invert (2 ^ s) a) a (seq s d).
Proof.
  intros Hlen Hs. revert s fuel a Hlen Hs.
  induction d as [|d IH]; intros s fuel a Hlen Hs Hsd Hfuel.
  - assert (length a < 2 ^ s)%nat.
    { rewrite Hlen. apply Nat.pow_lt_mono_r; lia. }
    destruct fuel as [|fuel]; [done|]. simpl fft_passes.
    by destruct (Nat.leb_spec (2 ^ s) (length a)); [lia|].
  - destruct fuel as [|fuel]; [lia|]. simpl fft_passes.
    assert (2 ^ s <= length a)%nat.
    { rewrite Hlen. apply Nat.pow_le_mono_r; lia. }
    destruct (Nat.leb_spec (2 ^ s) (length a)); [|lia].
    assert (Hpow : (2 ^ s = 2 * 2 ^ (s - 1))%nat).
    { rewrite <- Nat.pow_succ_r'. f_equal. lia. }
    assert (Hpass : fft_pass cos_d sin_d acos_d invert (2 ^ s) a
                    = spec_butterflies cos_d sin_d invert (2 ^ s) a).
    { rewrite Hpow. apply (fft_pass_spec invert (2 ^ (s - 1)) (2 ^ (k - s))).
      - apply Nat.neq_0_lt_0. apply Nat.pow_nonzero. lia.
      - rewrite <- Hpow, <- Nat.pow_add_r, Hlen. f_equal. lia. }
    rewrite Hpass. cbn [seq foldl].
    replace (2 ^ s + (2 ^ s + 0))%nat with (2 ^ Datatypes.S s)%nat
      by (rewrite Nat.pow_succ_r'; lia).
    apply IH; [by rewrite length_spec_butterflies|lia|lia|lia].
Qed.

Lemma pow2_gt_lin_nat (k : nat) : (k < 2 ^ k)%nat.
Proof. apply Nat.pow_gt_lin_r. lia. Qed.

(** *** The transform *)

Lemma fft_spec (k : nat) (a : list cd) (invert : bool) :
  length a = (2 ^ k)%nat ->
  fft cos_d sin_d acos_d a invert = spec_transform cos_d sin_d a invert.
Proof.
  intros Hlen. unfold fft, spec_transform.
  rewrite (log2_until_pow2 k) by by apply pow2_nat_Z.
  rewrite (fft_permute_spec k a Hlen).
  assert (Hl : length (spec_bit_reversal a) = (2 ^ k)%nat)
    by (unfold spec_bit_reversal; by rewrite length_imap).
  assert (Hp : fft_passes cos_d sin_d acos_d (length a) invert 2 (spec_bit_reversal a)
               = foldl (fun a s => spec_butterflies cos_d sin_d invert (2 ^ s) a)
                   (spec_bit_reversal a) (seq 1 k)).
  { apply (fft_passes_spec invert k k 1); [done|lia|lia|].
    rewrite Hlen. pose proof (pow2_gt_lin_nat k). lia. }
  by rewrite Hp, Hlen, Nat.log2_pow2 by lia.
Qed.

End Transform.

(** ** Sizes *)

Lemma fft_size_log2_up (n : nat) :
  Z.to_nat (double_until n 1 (Z.of_nat n)) = (2 ^ Nat.log2_up n)%nat.
Proof.
  destruct (fft_size_spec n) as (k & Hk & -> & Hle & Hmin).
  rewrite <- (Z2Nat.id k) in * by done. set (k' := Z.to_nat k) in *. clearbody k'.
  pose proof (pow2_nat_Z _ k' eq_refl) as E. rewrite <- E in *. clear E.
  rewrite Nat2Z.id. apply Nat2Z.inj_le in Hle. f_equal. symmetry.
  destruct k' as [|j].
  - simpl in Hle. destruct n as [|[|n]]; [done|done|lia].
  - destruct Hmin as [E|Hmin]; [lia|].
    replace (Z.of_nat (S j) - 1) with (Z.of_nat j) in Hmin by lia.
    rewrite <- (pow2_nat_Z _ j eq_refl) in Hmin. apply Nat2Z.inj_lt in Hmin.
    apply Nat.log2_up_unique; [lia|]. simpl Nat.pred. lia.
Qed.

(** ** The multiplication by [1.0] in the ramps *)

Lemma F64_of_Z_mul_one (a : Z) :
  0 <= a < 2 ^ 53 -> F64.mul (F64.of_Z a) F64.one = F64.of_Z a.
Proof.
  intros Ha. destruct (decide (a = 0)) as [->|Hne]; [done|].
  pose proof (of_Z_mantissa a ltac:(lia)) as [Hma Hda].
  rewrite (F64_of_Z_exact a) by lia.
  apply F64_mul_one; [|lia].
  change (Zpos (digits2_pos (Z.to_pos (a * 2 ^ (53 - Zdigits2 a)))))
    with (Zdigits2 (Zpos (Z.to_pos (a * 2 ^ (53 - Zdigits2 a))))).
  rewrite Z2Pos.id by lia. apply Zdigits2_unique; [lia|]. simpl (53 - 1). lia.
Qed.

(** ** Tables *)

Lemma table_ext (rows cols : nat) (t : list (list f64)) (f : nat -> nat -> f64) :
  table_dims rows cols t ->
  (forall r c, (r < rows)%nat -> (c < cols)%nat -> at2 t r c = f r c) ->
  t = map (fun r => map (fun c => f r c) (seq 0 cols)) (seq 0 rows).
Proof.
  intros [Hrows Hcols] Hcell. apply list_eq. intros r. rewrite list_lookup_fmap.
  destruct (decide (r < rows)%nat) as [Hr|Hr].
  - rewrite lookup_seq_lt by done. simpl.
    destruct (lookup_lt_is_Some_2 t r ltac:(lia)) as [row Hrow]. rewrite Hrow. f_equal.
    pose proof (Hcols r row Hrow) as Hlen.
    apply list_eq. intros c. rewrite list_lookup_fmap.
    destruct (decide (c < cols)%nat) as [Hc|Hc].
    + rewrite lookup_seq_lt by done. simpl.
      specialize (Hcell r c Hr Hc). unfold at2, nth_v, nth_f in Hcell.
      rewrite Hrow in Hcell. simpl in Hcell.
      destruct (lookup_lt_is_Some_2 row c ltac:(lia)) as [x Hx].
      rewrite Hx in *. simpl in Hcell. by rewrite Hcell.
    + rewrite lookup_seq_ge by lia. simpl. apply lookup_ge_None_2. lia.
  - rewrite lookup_seq_ge by lia. simpl. apply lookup_ge_None_2. lia.
Qed.

Lemma mapM_fmap {A B C : Type} (f : B -> option C) (g : A -> B) (l : list A) :
  mapM f (g <$> l) = mapM (fun x => f (g x)) l.
Proof.
  induction l as [|x l IH]; [done|]. rewrite fmap_cons. cbn [mapM].
  destruct (f (g x)) as [y|]; [|done]. simpl. by rewrite IH.
Qed.

Lemma mapM_ext_eq {A B : Type} (f g : A -> option B) (l : list A) :
  (forall x, f x = g x) -> mapM f l = mapM g l.
Proof.
  intros H. induction l as [|x l IH]; [done|]. cbn [mapM]. rewrite H.
  destruct (g x) as [y|]; [|done]. simpl. by rewrite IH.
Qed.

Lemma double_to_int_range (x : f64) (z : Z) :
  double_to_int x = Some z -> - 2 ^ 31 <= z < 2 ^ 31.
Proof.
  unfold double_to_int. destruct x as [s|s| |s m e]; try done.
  - intros [= <-]. lia.
  - destruct (Z.leb_spec (- 2 ^ 31) (Z.shiftl (cond_Zopp s (Zpos m)) e)); [|done].
    destruct (Z.ltb_spec (Z.shiftl (cond_Zopp s (Zpos m)) e) (2 ^ 31)); [|done].
    intros [= <-]. lia.
Qed.

Lemma mapM_double_to_int_range {A : Type} (f : A -> option Z) (l : list A) (bin : list Z) :
  (forall x z, f x = Some z -> - 2 ^ 31 <= z < 2 ^ 31) ->
  mapM f l = Some bin -> forall i, - 2 ^ 31 <= nth_Z bin i < 2 ^ 31.
Proof.
  intros Hf Hm i. unfold nth_Z.
  destruct (bin !! Z.to_nat i) as [z|] eqn:E; [|simpl; lia]. simpl.
  apply mapM_Some_1 in Hm.
  destruct (Forall2_lookup_r _ _ _ _ _ Hm E) as (x & _ & Hx). by eapply Hf.
Qed.

Section Stages.

Variables cos_d sin_d acos_d log_d log10_d : f64 -> f64.
Variable pow_d : f64 -> f64 -> f64.
Hypothesis acos_pi : acos_d (F64.of_Z (-1)) = spec_pi.

(** ** Step 1 *)

Lemma pre_emphasis_spec_eq (frame : list f32) :
  pre_emphasis frame = spec_pre_emphasis frame.
Proof.
  rewrite pre_emphasis_correct. unfold pre_emphasis_map, spec_pre_emphasis.
  apply imap_ext. intros i x _. destruct i as [|j]; [done|].
  by change pre_emphasis_coeff with spec_alpha.
Qed.

(** ** Step 2 *)

Lemma hamming_window_spec_eq (frame : list f32) :
  hamming_window cos_d acos_d frame = spec_hamming cos_d frame.
Proof.
  rewrite hamming_window_correct. unfold hamming_map, spec_hamming.
  apply imap_ext. intros i x _.
  unfold hamming_coeff, spec_hamming_coefficient, PI. by rewrite acos_pi.
Qed.

(** ** Step 3 *)

Lemma power_spectrum_spec_eq (frame : list f32) :
  power_spectrum cos_d sin_d acos_d frame = spec_power_spectrum cos_d sin_d frame.
Proof.
  unfold power_spectrum, spec_power_spectrum.
  rewrite fft_size_log2_up. set (N := (2 ^ Nat.log2_up (length frame))%nat).
  assert (Hn : (length frame <= N)%nat).
  { destruct (fft_size_spec (length frame)) as (k & Hk & E & Hle & _).
    pose proof (fft_size_log2_up (length frame)) as HN. fold N in HN.
    rewrite E in HN. rewrite <- HN.
    assert (0 < 2 ^ k) by (apply Z.pow_pos_nonneg; lia). lia. }
  rewrite (for_range_fill_prefix (length frame) N
             (fun i => cd_of_real (F64.of_float (nth_f frame i)))) by done.
  assert (Hmap : map (fun i => cd_of_real (F64.of_float (nth_f frame i)))
                   (seq 0 (length frame))
                 = map (fun x => cd_of_real (F64.of_float x)) frame).
  { apply list_eq. intros i. rewrite !list_lookup_fmap.
    destruct (decide (i < length frame)%nat) as [Hi|Hi].
    - rewrite lookup_seq_lt by done. simpl. unfold nth_f.
      destruct (lookup_lt_is_Some_2 frame i Hi) as [x ->]. done.
    - rewrite lookup_seq_ge by lia. by rewrite (lookup_ge_None_2 frame) by lia. }
  rewrite Hmap.
  set (padded := map _ frame ++ replicate _ _).
  rewrite (fft_spec cos_d sin_d acos_d acos_pi (Nat.log2_up (length frame)) padded)
    by (unfold padded; rewrite length_app, length_map, length_replicate; fold N; lia).
  apply (for_range_fill (N / 2 + 1)
           (fun i _ => F64.div (cd_norm (nth_cd (spec_transform cos_d sin_d padded false) i))
                         (F64.of_Z (Z.of_nat N)))).
Qed.

(** ** The filterbank *)

Lemma mel_bins_spec_eq (num_filters fft_size sample_rate : Z) :
  mel_bins log10_d pow_d num_filters fft_size sample_rate
  = mapM (spec_bin log10_d pow_d num_filters fft_size sample_rate)
      (seq 0 (Z.to_nat (num_filters + 2))).
Proof.
  unfold mel_bins, int_range. rewrite mapM_fmap, Z.sub_0_r.
  apply mapM_ext_eq. intros i. by rewrite Z.add_0_l.
Qed.

Lemma spec_weight_cell (num_filters fft_size : Z) (bin : list Z)
    (filters : list (list f64)) (r c : nat) :
  (forall i, - 2 ^ 31 <= nth_Z bin i < 2 ^ 31) ->
  fill_filters num_filters fft_size bin = Some filters ->
  (r < Z.to_nat num_filters)%nat -> (c < Z.to_nat (filter_cols fft_size))%nat ->
  at2 filters r c = spec_weight bin (Z.of_nat (S r)) (Z.of_nat c).
Proof.
  intros Hint Hfill Hr Hc.
  pose proof (Hint (Z.of_nat r)) as H0. pose proof (Hint (Z.of_nat r + 1)) as H1.
  pose proof (Hint (Z.of_nat r + 2)) as H2.
  assert (H53 : 2 ^ 31 + 2 ^ 31 < 2 ^ 53) by done.
  unfold spec_weight.
  replace (Z.of_nat (S r) - 1) with (Z.of_nat r) by lia.
  replace (Z.of_nat (S r) + 1) with (Z.of_nat r + 2) by lia.
  replace (Z.of_nat (S r)) with (Z.of_nat r + 1) by lia.
  destruct (fill_filters_cell num_filters fft_size bin filters (Z.of_nat r) (Z.of_nat c)
              Hfill ltac:(lia) ltac:(lia))
    as [(Hup & _ & E)|[(Hdn & _ & E)|(Hnup & Hndn & E)]];
    rewrite !Nat2Z.id in E; rewrite E.
  - destruct (Z.leb_spec (nth_Z bin (Z.of_nat r)) (Z.of_nat c)); [|lia].
    destruct (Z.ltb_spec (Z.of_nat c) (nth_Z bin (Z.of_nat r + 1))); [|lia].
    unfold quot53. by rewrite F64_of_Z_mul_one by lia.
  - destruct (Z.ltb_spec (Z.of_nat c) (nth_Z bin (Z.of_nat r + 1))); [lia|].
    rewrite andb_false_r.
    destruct (Z.leb_spec (nth_Z bin (Z.of_nat r + 1)) (Z.of_nat c)); [|lia].
    destruct (Z.ltb_spec (Z.of_nat c) (nth_Z bin (Z.of_nat r + 2))); [|lia].
    unfold quot53. by rewrite F64_of_Z_mul_one by lia.
  - destruct (Z.leb_spec (nth_Z bin (Z.of_nat r)) (Z.of_nat c)),
      (Z.ltb_spec (Z.of_nat c) (nth_Z bin (Z.of_nat r + 1))); try lia;
      destruct (Z.leb_spec (nth_Z bin (Z.of_nat r + 1)) (Z.of_nat c)),
        (Z.ltb_spec (Z.of_nat c) (nth_Z bin (Z.of_nat r + 2))); try lia; done.
Qed.

Lemma create_mel_filterbanks_spec_eq (num_filters fft_size sample_rate : Z)
    (filters : list (list f64)) :
  0 <= fft_size ->
  create_mel_filterbanks log10_d pow_d num_filters fft_size sample_rate = Some filters ->
  spec_filterbank log10_d pow_d num_filters fft_size sample_rate = Some filters.
Proof.
  intros Hsize. unfold create_mel_filterbanks, spec_filterbank.
  rewrite mel_bins_spec_eq.
  destruct (mapM _ _) as [bin|] eqn:Ebin; [|done]. simpl. intros Hfill. f_equal.
  assert (Hint : forall i, - 2 ^ 31 <= nth_Z bin i < 2 ^ 31).
  { apply (mapM_double_to_int_range _ _ _ ltac:(intros x z; apply double_to_int_range) Ebin). }
  assert (Hcols : filter_cols fft_size = fft_size / 2 + 1).
  { unfold filter_cols. by rewrite Z.quot_div_nonneg by lia. }
  rewrite <- Hcols, <- fmap_S_seq, <- list_fmap_compose. symmetry.
  apply (table_ext _ _ _ (fun r c => spec_weight bin (Z.of_nat (S r)) (Z.of_nat c))).
  - by apply (fill_filters_dims _ _ bin).
  - intros r c Hr Hc. by apply (spec_weight_cell num_filters fft_size bin).
Qed.

(** ** Step 4 *)

Lemma apply_mel_filters_spec_eq (power : list f64) (filterbanks : list (list f64)) :
  apply_mel_filters log_d power filterbanks = spec_energies log_d power filterbanks.
Proof.
  rewrite apply_mel_filters_correct. unfold mel_energies_map, spec_energies.
  apply map_ext. intros weights.
  unfold log_energy, mel_accumulate, log_floor. by rewrite for_range_foldl.
Qed.

(** ** Step 5 *)

Lemma dct_spec_eq (mel_energies : list f64) :
  dct cos_d acos_d mel_energies = spec_dct cos_d mel_energies.
Proof.
  rewrite dct_correct. unfold dct_map, spec_dct.
  apply map_ext. intros k. unfold dct_sum, dct_basis, PI.
  by rewrite for_range_foldl, acos_pi.
Qed.

Lemma length_spec_power_spectrum (frame : list f32) :
  (1 <= length (spec_power_spectrum cos_d sin_d frame))%nat.
Proof. unfold spec_power_spectrum. rewrite length_map, length_seq. lia. Qed.

(** ** C2 *)

(** C2. For every non-empty input frame, whenever [acos(-1.0)] is the
    [double] nearest to pi and [extractMFCC] returns (no conversion to
    [int] and no store of the filterbank construction is undefined), its
    result is the vector of 13 coefficients that the specification
    describes: (1) pre-emphasis, every sample but the first minus 0.95
    times the unmodified sample before it; (2) Hamming windowing with
    [0.54 - 0.46 cos(2 pi i / (n - 1))]; (3) the power spectrum of section
    4.1, that is zero padding to the next power of two, bit reversal,
    butterfly merges and [|X_k|^2 / n] for [k = 0 .. n/2]; (4) the 40
    triangular mel filters of section 4.2 applied to it, each energy [e]
    replaced by [log(e)] if [e > 0] and by [log(1e-10)] otherwise; (5) the
    unnormalised cosine sums over the filters for [k = 0 .. 12].  The
    right-hand side [spec_mfcc] is written from the specification and
    shares with the embedded code only the arithmetic of [float],
    [double] and [std::complex]. *)
Theorem extractMFCC_pipeline (frame mfcc : list f32) :
  frame <> [] ->
  extractMFCC cos_d sin_d acos_d log_d log10_d pow_d frame = Some mfcc ->
  spec_mfcc cos_d sin_d log_d log10_d pow_d frame = Some mfcc /\
  length mfcc = 13%nat.
Proof.
  intros _. unfold extractMFCC, spec_mfcc, SAMPLE_RATE.
  rewrite pre_emphasis_spec_eq, hamming_window_spec_eq, power_spectrum_spec_eq.
  set (power := spec_power_spectrum cos_d sin_d _).
  pose proof (length_spec_power_spectrum (spec_hamming cos_d (spec_pre_emphasis frame)))
    as Hlen. fold power in Hlen.
  replace (Z.of_nat (length power) * 2 - 2) with (2 * (Z.of_nat (length power) - 1)) by lia.
  destruct (create_mel_filterbanks _ _ _ _ _) as [filterbanks|] eqn:Efb; [|done].
  apply create_mel_filterbanks_spec_eq in Efb; [|lia]. rewrite Efb. simpl.
  rewrite apply_mel_filters_spec_eq, dct_spec_eq. intros [= <-].
  split; [done|]. unfold spec_dct. by rewrite length_map, length_seq.
Qed.

End Stages.

Lemma extractMFCC_pipeline_witness :
  let frame :=
    map (fun i => F32.of_Z ((Z.of_nat i * Z.of_nat i) mod 23 - 11)) (seq 0 200) in
  let cs := fun x : f64 => F64.sub F64.one (F64.mul x x) in
  let sn := fun x : f64 => x in
  let ac := fun _ : f64 => spec_pi in
  let lg := fun x : f64 => x in
  let lg10 := fun x : f64 => F64.sub x F64.one in
  let pw := fun _ y : f64 => F64.add y F64.one in
  let mfcc :=
    [S754_finite false 10166561 (-5); S754_finite true 11455972 (-3);
     S754_finite true 13362202 (-1); S754_finite true 15429608 0;
     S754_finite true 13838759 1; S754_finite true 10856208 2;
     S754_finite true 15667887 2; S754_finite true 10677209 3;
     S754_finite true 13957899 3; S754_finite true 8838007 4;
     S754_finite true 10915778 4; S754_finite true 13212261 4;
     S754_finite true 15727457 4] in
  frame <> [] /\
  ac (F64.of_Z (-1)) = spec_pi /\
  extractMFCC cs sn ac lg lg10 pw frame = Some mfcc /\
  spec_mfcc cs sn lg lg10 pw frame = Some mfcc.
Proof.
  intros frame cs sn ac lg lg10 pw mfcc.
  assert (H1 : frame <> []) by done.
  assert (H2 : ac (F64.of_Z (-1)) = spec_pi) by reflexivity.
  assert (H3 : extractMFCC cs sn ac lg lg10 pw frame = Some mfcc)
    by (vm_compute; reflexivity).
  split; [exact H1|]. split; [exact H2|]. split; [exact H3|].
  exact (proj1 (extractMFCC_pipeline cs sn ac lg lg10 pw H2 frame mfcc H1 H3)).
Defined.
